(** * Prolongation of infinitesimal generators: a shallow embedding

    The notebook [Prolong.ipynb] (Python 2.7, sympy) builds jet-space
    symbols as strings, resolves the symbol of a one-higher derivative by
    comparing sorted characters, expands total derivatives by the chain
    rule and assembles the prolonged vector field.  This file embeds those
    functions and proves properties of them.

    Conventions of the embedding:
    - a Python [str] is a [list ascii]; [+] on strings is [++], [len] is
      [length], [sorted(s)] is the list of characters in code-point order;
    - a Python exception is a [Raise] result; [None] is [None : option _];
    - a list that the code changes in place lives on a heap and is named by
      a reference; lists that are only read are values;
    - list positions produced by [range] and by
      [combinations_with_replacement(range(p), k)] are natural numbers; a
      position that a caller passes is a natural number too, so nothing is
      stated about a call with a negative position, which Python counts
      from the end of the list;
    - the sympy engine is an expression tree with symbolic differentiation;
      two expressions are algebraically equal when they evaluate alike
      under every interpretation of the symbols ([aeq]);
    - how sympy reads a name (['E'] is the number e, [var('')] raises, a
      symbol named like a function of the notebook takes the name over)
      is a parameter of the functions of the modules [Notebook] and
      [NotebookListing]; the functions outside these modules treat every
      name as the symbol so called. *)

From Stdlib Require Import Ascii String ZArith Lia.
From stdpp Require Import base tactics option list sorting numbers strings sets gmap.

Open Scope list_scope.

(** ** Python values and exceptions *)

Abbreviation str := (list ascii) (only parsing).

(** A string literal of the notebook, as a [str]. *)
Definition py (s : string) : str := list_ascii_of_string s.

Inductive exn := IndexError | ValueError | TypeError | NameError.

Inductive result (A : Type) : Type :=
  | Ok (a : A)
  | Raise (e : exn).
Arguments Ok {A} a.
Arguments Raise {A} e.

Global Instance result_ret : MRet result := @Ok.
Global Instance result_bind : MBind result := fun A B f m =>
  match m with
  | Ok a => f a
  | Raise e => Raise e
  end.

Global Instance exn_eq_dec : EqDecision exn.
Proof. solve_decision. Defined.

Global Instance result_eq_dec {A} `{EqDecision A} : EqDecision (result A).
Proof. solve_decision. Defined.

(** [l[i]] for a position [i >= 0]. *)
Definition index {A} (l : list A) (i : nat) : result A :=
  match l !! i with
  | Some a => Ok a
  | None => Raise IndexError
  end.

(** [l.remove(x)]: drops the first element equal to [x]. *)
Fixpoint list_remove (x : str) (l : list str) : result (list str) :=
  match l with
  | [] => Raise ValueError
  | y :: l' =>
      if decide (x = y) then Ok l'
      else l'' ← list_remove x l'; Ok (y :: l'')
  end.

(** [for a in l: s = body(s, a)], stopping at the first exception. *)
Fixpoint for_each {St A} (body : St → A → result St) (l : list A) (s : St)
  : result St :=
  match l with
  | [] => Ok s
  | a :: rest => s' ← body s a; for_each body rest s'
  end.

(** [range(n)] and [range(a, b)]. *)
Definition range (n : nat) : list nat := seq 0 n.
Definition range2 (a b : nat) : list nat := seq a (b - a).

(** ** [sorted] on strings *)

Definition char_le (a b : ascii) : Prop := nat_of_ascii a ≤ nat_of_ascii b.

Global Instance char_le_dec : RelDecision char_le.
Proof. intros a b. unfold char_le. apply _. Defined.

Global Instance char_le_total : Total char_le.
Proof. intros a b. unfold char_le. lia. Qed.

Global Instance char_le_trans : Transitive char_le.
Proof. intros a b c. unfold char_le. lia. Qed.

Global Instance char_le_antisymm : AntiSymm (=) char_le.
Proof.
  intros a b Hab Hba. unfold char_le in *.
  rewrite <- (ascii_nat_embedding a), <- (ascii_nat_embedding b).
  f_equal. lia.
Qed.

(** [sorted(s)] *)
Definition sorted (s : str) : list ascii := merge_sort char_le s.

(** ** Jet symbols (notebook cells 3, 7, 11) *)

(** [jet(X,U)]: every [U[i]+X[j]], [i] outermost. *)
Definition jet (X U : list str) : list str :=
  U ≫= (λ u, (λ x, u ++ x) <$> X).

(** The inner loop of [njet]: [cnt] is the number of iterations that
    [range(i+1, len(J)-1)] fixed on entry; [k] is the running position. *)
Fixpoint njet_inner (cnt i k : nat) (J : list str) : result (list str) :=
  match cnt with
  | 0 => Ok J
  | S cnt' =>
      Ji ← index J i;
      Jk ← index J k;
      if decide (sorted Ji = sorted Jk) then
        J' ← list_remove Jk J;
        njet_inner cnt' i k J'
      else njet_inner cnt' i (S k) J
  end.

(** The outer loop of [njet] over the positions [range(len(J))] fixed on
    entry, with its [break]. *)
Fixpoint njet_outer (idx : list nat) (J : list str) : result (list str) :=
  match idx with
  | [] => Ok J
  | i :: rest =>
      J' ← njet_inner (length J - 1 - (i + 1)) i (i + 1) J;
      if decide (Z.of_nat (length J') - 2 ≤ Z.of_nat i)%Z then Ok J'
      else njet_outer rest J'
  end.

Definition njet_dedup (J : list str) : result (list str) :=
  njet_outer (range (length J)) J.

(** [njet(X,U,n)].  For [n = 0] the list that is deduplicated in place and
    returned is the caller's [U] itself. *)
Definition njet (X U : list str) (n : nat) : result (list str) :=
  njet_dedup (Nat.iter n (jet X) U).

(** The loop of [fulljet]: [J = J + njet(X,U,i+1)]. *)
Definition fulljet (X U : list str) (n : nat) : result (list str) :=
  for_each (fun J i => Ji ← njet X U (i + 1); Ok (J ++ Ji)) (range n) (X ++ U).

(** ** The derivative-symbol resolver (cells 15, 20) *)

(** [uJalpha(u_div,x_var,X,U)]: the first symbol of
    [njet(X,U,len(str(u_div)))] whose sorted characters are those of
    [str(u_div)+str(x_var)]; falls off the loop, returning [None], when
    there is none. *)
Definition uJalpha (u_div x_var : str) (X U : list str) : result (option str) :=
  J ← njet X U (length u_div);
  Ok (find (fun s => bool_decide (sorted (u_div ++ x_var) = sorted s)) J).

(** [str(f)] for a value that is a symbol (or label) or [None]. *)
Definition py_str (f : option str) : str :=
  match f with
  | Some s => s
  | None => py "None"
  end.

(** [divUJi(X,U,u,J,i)]. *)
Definition divUJi (X U : list str) (u : str) (J : list nat) (i : nat)
  : result (option str) :=
  f ← for_each (fun f j =>
         Jj ← index J j;
         x ← index X Jj;
         uJalpha (py_str f) x X U) (range (length J)) (Some u);
  x ← index X i;
  uJalpha (py_str f) x X U.

(** ** The expression engine

    The notebook delegates expressions to sympy: named symbols, [+], [*],
    [-] and [diff(expr, name)].  Here an expression is a tree over integer
    constants, named symbols, sums, products and applications of a unary
    function or of one of its derivatives ([Fn f k a] stands for the [k]-th
    derivative of [f] at [a]); [diff] is symbolic differentiation with the
    sum, product and chain rules.  Symbols are identified by their names;
    in this part and the next two every name is the symbol so called.
    What [diff] and [var] do with a name that sympy reads otherwise, and
    that [var] binds the symbol to its name in the notebook's global
    namespace, is the subject of the part on sympy's names below. *)

Inductive expr : Type :=
  | Int (z : Z)
  | Sym (s : str)
  | Add (a b : expr)
  | Mul (a b : expr)
  | Fn (f : str) (k : nat) (a : expr).

Fixpoint diff (P : expr) (s : str) : expr :=
  match P with
  | Int _ => Int 0
  | Sym t => if decide (t = s) then Int 1 else Int 0
  | Add a b => Add (diff a s) (diff b s)
  | Mul a b => Add (Mul (diff a s) b) (Mul a (diff b s))
  | Fn f k a => Mul (Fn f (S k) a) (diff a s)
  end.

(** [a - b] *)
Definition Sub (a b : expr) : expr := Add a (Mul (Int (-1)) b).

(** An interpretation gives every symbol a value and every function and
    derivative of a function a meaning. *)
Record interp : Type := Interp {
  sym_val : str → Z;
  fn_val : str → nat → Z → Z
}.

Fixpoint eval (ι : interp) (e : expr) : Z :=
  match e with
  | Int z => z
  | Sym s => sym_val ι s
  | Add a b => (eval ι a + eval ι b)%Z
  | Mul a b => (eval ι a * eval ι b)%Z
  | Fn f k a => fn_val ι f k (eval ι a)
  end.

(** Algebraic equality of two expressions. *)
Definition aeq (a b : expr) : Prop := ∀ ι, eval ι a = eval ι b.

(** An operand that must be a symbol: multiplying by [None] is a
    [TypeError]. *)
Definition operand (r : option str) : result expr :=
  match r with
  | Some s => Ok (Sym s)
  | None => Raise TypeError
  end.

(** ** Total derivatives (cells 24, 28) *)

(** [totDiv(X,U,P,i,n)] as cell 24 defines it. *)
Definition totDiv (X U : list str) (P : expr) (i n : nat) : result expr :=
  x ← index X i;
  F ← fulljet X U n;
  let J := filter (fun v => v ∉ X) F in
  for_each (fun expr j =>
      Jj ← index J j;
      r ← uJalpha Jj x X U;
      s ← operand r;
      Ok (Add expr (Mul (diff P Jj) s))) (range (length J)) (diff P x).

(** [TotDiv(X,U,P,J)] as cell 28 defines it. *)
Definition TotDiv (X U : list str) (P : expr) (J : list nat) : result expr :=
  J0 ← index J 0;
  expr ← totDiv X U P J0 (length J + 1);
  for_each (fun expr i =>
      Ji ← index J i;
      totDiv X U expr Ji (length J + 1)) (range2 1 (length J)) expr.

(** ** Lists as objects *)

(** The heap gives the contents of the list behind each reference. *)
Abbreviation heap := (gmap nat (list expr)) (only parsing).

Definition contents (h : heap) (r : nat) : list expr := default [] (h !! r).

(** [l.append(c)] for the list [l] behind the reference [r]. *)
Definition append (h : heap) (r : nat) (c : expr) : heap :=
  <[r := contents h r ++ [c]]> h.

(** ** The consolidated listing (cell 38)

    The last code cell repeats every function.  [jet], [njet], [fulljet],
    [uJalpha] and [divUJi] are repeated unchanged; [totDiv] and [TotDiv]
    differ from the cells above; [phiAlpha], [diffOrd] and [Prolong] are
    complete only there. *)

Module Listing.

(** [totDiv] of the listing calls [fullJet], a name bound nowhere in the
    notebook: after [diff(P,X[i])] the call raises [NameError]. *)
Definition totDiv (X U : list str) (P : expr) (i n : nat) : result expr :=
  x ← index X i;
  let expr := diff P x in
  Raise NameError.

(** [combinations_with_replacement(pool, k)], in the order itertools
    yields them. *)
Fixpoint combinations_with_replacement {A} (k : nat) (pool : list A)
  : list (list A) :=
  match k with
  | 0 => [[]]
  | S k' =>
      (fix go (pool : list A) : list (list A) :=
         match pool with
         | [] => []
         | x :: rest =>
             map (cons x) (combinations_with_replacement k' pool) ++ go rest
         end) pool
  end.

(** [diffOrd(p,n)] *)
Definition diffOrd (p n : nat) : list (list (list nat)) :=
  map (fun i => combinations_with_replacement i (range p)) (range2 1 (n + 1)).

Section Globals.

(** Python looks the global name [totDiv] up when [TotDiv] runs; [D] is the
    function bound to it then. *)
Variable D : list str → list str → expr → nat → nat → result expr.

(** [TotDiv(X,U,P,n,J)] *)
Definition TotDiv (X U : list str) (P : expr) (n : nat) (J : list nat)
  : result expr :=
  J0 ← index J 0;
  expr ← D X U P J0 n;
  for_each (fun expr i =>
      Ji ← index J i;
      D X U expr Ji n) (range2 1 (length J)) expr.

(** [phiAlpha(X,U,v,J,q)] *)
Definition phiAlpha (X U : list str) (v : list expr) (J : list nat) (q : nat)
  : result expr :=
  let phi := drop (length X) v in
  let xi := take (length X) v in
  a ← for_each (fun a i =>
         xi_i ← index xi i;
         Uq ← index U q;
         Xi ← index X i;
         r ← uJalpha Uq Xi X U;
         s ← operand r;
         Ok (Add a (Mul xi_i s))) (range (length X)) (Int 0);
  b ← for_each (fun b i =>
         xi_i ← index xi i;
         Uq ← index U q;
         r ← divUJi X U Uq J i;
         s ← operand r;
         Ok (Add b (Mul xi_i s))) (range (length X)) (Int 0);
  phi_q ← index phi q;
  c ← TotDiv X U (Sub phi_q a) (length J) J;
  Ok (Add c b).

(** [Prolong(X,U,v,n)].  The caller's list is an object on the heap and
    [v] is a reference to it; [a = v] copies the reference, so [a.append]
    changes the list that [v] names, and [phiAlpha(X,U,v,...)] reads that
    list as it stands.  The function returns the reference [a]. *)
Definition Prolong (X U : list str) (v : nat) (n : nat) (h : heap)
  : result (nat * heap) :=
  let a := v in
  let J := diffOrd (length X) n in
  h' ← for_each (fun h i =>
         for_each (fun h j =>
           for_each (fun h q =>
             Ji ← index J i;
             Jij ← index Ji j;
             c ← phiAlpha X U (contents h v) Jij q;
             Ok (append h a c)) (range (length U)) h) (range (length X)) h)
         (range n) h;
  Ok (a, h').

End Globals.

End Listing.

(** ** The notebook with sympy's names

    Two calls of the notebook hand a string to sympy.  [diff(P, name)]
    reads [name] as an expression: for most names this is the symbol of
    that name, but sympy reads some strings otherwise (['E'] is the number
    e) and [diff] then raises [ValueError].  [var(name)] creates the symbol
    and binds it to its name in the notebook's global namespace; it raises
    [ValueError] for the empty string, and a symbol whose name is one of
    the names the notebook's functions look up (['jet'], ['var'], ...)
    takes that name over.

    The functions above treat every name as the symbol so called.  The
    functions of this part take sympy's reading of names as two
    parameters, and their outcome says when a run leaves what the
    embedding describes. *)

(** The outcome of a call: a value, an exception, or [Beyond]: the call
    does something that the embedding does not follow (a global name of
    the notebook is bound to a symbol, or sympy gives back something that
    is not a symbol).  Nothing is stated about a run past that point. *)
Inductive outcome (A : Type) : Type :=
  | Returns (a : A)
  | Raises (e : exn)
  | Beyond.
Arguments Returns {A} a.
Arguments Raises {A} e.
Arguments Beyond {A}.

Global Instance outcome_ret : MRet outcome := @Returns.
Global Instance outcome_bind : MBind outcome := fun A B f m =>
  match m with
  | Returns a => f a
  | Raises e => Raises e
  | Beyond => Beyond
  end.

Global Instance outcome_eq_dec {A} `{EqDecision A} : EqDecision (outcome A).
Proof. solve_decision. Defined.

(** A computation that does not call sympy. *)
Definition run {A} (r : result A) : outcome A :=
  match r with
  | Ok a => Returns a
  | Raise e => Raises e
  end.

(** [for a in l: s = body(s, a)] *)
Fixpoint for_each_o {St A} (body : St → A → outcome St) (l : list A) (s : St)
  : outcome St :=
  match l with
  | [] => Returns s
  | a :: rest => s' ← body s a; for_each_o body rest s'
  end.

(** A loop whose body changes lists on the heap: the heap is kept as it
    stands when the loop stops. *)
Fixpoint for_each_h {A} (body : heap → A → heap * outcome unit) (l : list A)
    (h : heap) : heap * outcome unit :=
  match l with
  | [] => (h, Returns ())
  | a :: rest =>
      match body h a with
      | (h', Returns _) => for_each_h body rest h'
      | stop => stop
      end
  end.

(** The global names that the functions of the notebook look up when they
    run: the functions themselves, the misspelt [fullJet], and the
    built-in and imported names, which a global of the same name hides. *)
Definition notebook_names : list str :=
  py <$> ["jet"; "njet"; "fulljet"; "uJalpha"; "divUJi"; "totDiv"; "TotDiv";
          "phiAlpha"; "diffOrd"; "Prolong"; "fullJet"; "range"; "len";
          "sorted"; "str"; "var"; "diff"; "filter"; "list";
          "combinations_with_replacement"]%string.

Module Notebook.

Section sympy.

(** [sympify name]: the name of the symbol that [diff] differentiates by
    when it is given the string [name], or the exception it raises. *)
Variable sympify : str → outcome str.

(** [symbols name]: the name of the symbol that [var(name)] creates, or the
    exception it raises. *)
Variable symbols : str → outcome str.

(** [diff(P, name)] *)
Definition diff (P : expr) (name : str) : outcome expr :=
  s ← sympify name; Returns (diff P s).

(** [var(name)]: the symbol is bound to its name in the global namespace
    of the notebook. *)
Definition var (name : str) : outcome str :=
  s ← symbols name;
  if decide (s ∈ notebook_names) then Beyond else Returns s.

(** [uJalpha(u_div,x_var,X,U)] *)
Definition uJalpha (u_div x_var : str) (X U : list str) : outcome (option str) :=
  J ← run (njet X U (length u_div));
  match find (fun s => bool_decide (sorted (u_div ++ x_var) = sorted s)) J with
  | Some s => r ← var s; Returns (Some r)
  | None => Returns None
  end.

(** [divUJi(X,U,u,J,i)] *)
Definition divUJi (X U : list str) (u : str) (J : list nat) (i : nat)
  : outcome (option str) :=
  f ← for_each_o (fun f j =>
         Jj ← run (index J j);
         x ← run (index X Jj);
         uJalpha (py_str f) x X U) (range (length J)) (Some u);
  x ← run (index X i);
  uJalpha (py_str f) x X U.

(** [totDiv(X,U,P,i,n)] as cell 24 defines it. *)
Definition totDiv (X U : list str) (P : expr) (i n : nat) : outcome expr :=
  x ← run (index X i);
  e0 ← diff P x;
  F ← run (fulljet X U n);
  let J := filter (fun v => v ∉ X) F in
  for_each_o (fun expr j =>
      Jj ← run (index J j);
      d ← diff P Jj;
      r ← uJalpha Jj x X U;
      s ← run (operand r);
      Returns (Add expr (Mul d s))) (range (length J)) e0.

(** [TotDiv(X,U,P,J)] as cell 28 defines it. *)
Definition TotDiv (X U : list str) (P : expr) (J : list nat) : outcome expr :=
  J0 ← run (index J 0);
  expr ← totDiv X U P J0 (length J + 1);
  for_each_o (fun expr i =>
      Ji ← run (index J i);
      totDiv X U expr Ji (length J + 1)) (range2 1 (length J)) expr.

End sympy.

End Notebook.

Module NotebookListing.

Section sympy.

Variable sympify : str → outcome str.
Variable symbols : str → outcome str.

(** [totDiv] of the listing: [X[i]], then [diff(P,X[i])], then the
    unbound name [fullJet]. *)
Definition totDiv (X U : list str) (P : expr) (i n : nat) : outcome expr :=
  x ← run (index X i);
  expr ← Notebook.diff sympify P x;
  Raises NameError.

Section Globals.

(** The function bound to the global name [totDiv] when [TotDiv] runs. *)
Variable D : list str → list str → expr → nat → nat → outcome expr.

(** [TotDiv(X,U,P,n,J)] *)
Definition TotDiv (X U : list str) (P : expr) (n : nat) (J : list nat)
  : outcome expr :=
  J0 ← run (index J 0);
  expr ← D X U P J0 n;
  for_each_o (fun expr i =>
      Ji ← run (index J i);
      D X U expr Ji n) (range2 1 (length J)) expr.

(** [phiAlpha(X,U,v,J,q)] *)
Definition phiAlpha (X U : list str) (v : list expr) (J : list nat) (q : nat)
  : outcome expr :=
  let phi := drop (length X) v in
  let xi := take (length X) v in
  a ← for_each_o (fun a i =>
         xi_i ← run (index xi i);
         Uq ← run (index U q);
         Xi ← run (index X i);
         r ← Notebook.uJalpha symbols Uq Xi X U;
         s ← run (operand r);
         Returns (Add a (Mul xi_i s))) (range (length X)) (Int 0);
  b ← for_each_o (fun b i =>
         xi_i ← run (index xi i);
         Uq ← run (index U q);
         r ← Notebook.divUJi symbols X U Uq J i;
         s ← run (operand r);
         Returns (Add b (Mul xi_i s))) (range (length X)) (Int 0);
  phi_q ← run (index phi q);
  c ← TotDiv X U (Sub phi_q a) (length J) J;
  Returns (Add c b).

(** [Prolong(X,U,v,n)]: the heap at the end of the call, and the outcome.
    A coefficient is appended once [phiAlpha] has returned it. *)
Definition Prolong (X U : list str) (v : nat) (n : nat) (h : heap)
  : heap * outcome nat :=
  let a := v in
  let J := Listing.diffOrd (length X) n in
  let '(h', r) :=
    for_each_h (fun h i =>
      for_each_h (fun h j =>
        for_each_h (fun h q =>
          match (Ji ← run (index J i);
                 Jij ← run (index Ji j);
                 phiAlpha X U (contents h v) Jij q) with
          | Returns c => (append h a c, Returns ())
          | Raises e => (h, Raises e)
          | Beyond => (h, Beyond)
          end) (range (length U)) h) (range (length X)) h)
      (range n) h in
  (h', _ ← r; Returns a).

End Globals.

End sympy.

End NotebookListing.

(** ** Definitions used to state the properties *)

(** Binomial coefficients, by Pascal's rule. *)
Fixpoint binom (n k : nat) : nat :=
  match k, n with
  | 0, _ => 1
  | S _, 0 => 0
  | S k', S n' => binom n' k' + binom n' k
  end.

(** Every label is one character long. *)
Definition single_chars (X : list str) : Prop := Forall (λ x, length x = 1) X.

(** The value of [njet(X,U,m)]. *)
Definition band (X U : list str) (m : nat) : list str :=
  match njet X U m with
  | Ok R => R
  | Raise _ => []
  end.

(** The symbols of orders 1 to [n], in the order [fulljet] appends them. *)
Definition bands (X U : list str) (n : nat) : list str :=
  concat (band X U <$> seq 1 n).

(** The dependent variables and the symbols of orders 1 to [n], without
    the labels of [X]. *)
Definition coords (X U : list str) (n : nat) : list str :=
  filter (λ v, v ∉ X) (U ++ bands X U n).

(** The symbol [uJalpha] returns, when it returns one. *)
Definition resolved (X U : list str) (s x : str) : str :=
  match uJalpha s x X U with
  | Ok (Some r) => r
  | _ => []
  end.

(** The chain-rule sum over a list of symbols:
    [diff(P,x) + sum of diff(P,s) * resolved(s,x)] for [s] in [l], added
    left to right. *)
Definition chain_sum (X U : list str) (l : list str) (P : expr) (x : str)
  : expr :=
  fold_left (λ e s, Add e (Mul (diff P s) (Sym (resolved X U s x)))) l (diff P x).

(** The total derivative written with a sum over the symbols of orders 1
    to [n] only. *)
Definition totDiv_orders_1_to_n (X U : list str) (P : expr) (x : str) (n : nat)
  : expr :=
  chain_sum X U (filter (λ v, v ∉ X) (bands X U n)) P x.

(** The chain-rule sum [totDiv] builds at ceiling [n]. *)
Definition chain (X U : list str) (n : nat) (P : expr) (x : str) : expr :=
  chain_sum X U (coords X U n) P x.

(** Finite sums of integers. *)
Definition sumZ {A} (f : A → Z) (l : list A) : Z :=
  foldr (λ a acc, f a + acc)%Z 0%Z l.

(** The value of two chain-rule sums, one inside the other, written out
    term by term: the second partial derivative, the two sums of mixed
    terms, the double sum, and the terms in which the outer derivative
    falls on a resolved symbol. *)
Definition normal (X U : list str) (n : nat) (ι : interp) (P : expr) (x y : str)
  : Z :=
  (eval ι (diff (diff P x) y)
  + sumZ (λ s, eval ι (diff (diff P s) y) * sym_val ι (resolved X U s x))
      (coords X U n)
  + sumZ (λ t, eval ι (diff (diff P x) t) * sym_val ι (resolved X U t y))
      (coords X U n)
  + sumZ (λ t, sumZ (λ s, eval ι (diff (diff P s) t)
                           * sym_val ι (resolved X U s x)
                           * sym_val ι (resolved X U t y)) (coords X U n))
      (coords X U n)
  + sumZ (λ s, eval ι (diff P s)
               * (if decide (resolved X U s x ∈ coords X U n)
                  then sym_val ι (resolved X U (resolved X U s x) y) else 0))
      (coords X U n))%Z.

(** [covers J J']: every symbol of [J] has a symbol with the same
    characters in [J']. *)
Definition covers (J J' : list str) : Prop :=
  ∀ s, s ∈ J → ∃ r, r ∈ J' ∧ sorted r = sorted s.

(** The labels at the positions [J]. *)
Definition labels_at (X : list str) (J : list nat) : list str :=
  (λ j, default [] (X !! j)) <$> J.

(** The symbols that occur in an expression. *)
Fixpoint syms (P : expr) : list str :=
  match P with
  | Int _ => []
  | Sym s => [s]
  | Add a b => syms a ++ syms b
  | Mul a b => syms a ++ syms b
  | Fn _ _ a => syms a
  end.

(** The multi-indices and positions of dependent variables for which
    [Prolong] computes a coefficient, in the order of its loops: for each
    order, the first [p] multi-indices that [diffOrd] lists, each with every
    position of [U]. *)
Definition visited (p q n : nat) : list (list nat * nat) :=
  J ← concat (take p <$> Listing.diffOrd p n); (λ q', (J, q')) <$> range q.

(** The first string of every class of rearrangements, in the order of
    the list. *)
Fixpoint nub (l : list str) : list str :=
  match l with
  | [] => []
  | x :: l' => x :: filter (λ y, sorted x ≠ sorted y) (nub l')
  end.

(** All sequences of [k] labels of [P], the first label varying slowest. *)
Fixpoint tuples (k : nat) (P : list str) : list (list str) :=
  match k with
  | 0 => [[]]
  | S k' => x ← P; cons x <$> tuples k' P
  end.

(** The multi-index [J[i][j]] of [J = diffOrd(p,n)]. *)
Definition multi_index (p n i j : nat) : list nat :=
  default [] (default [] (Listing.diffOrd p n !! i) !! j).

(** The list behind [v] starts with the components [v0]. *)
Definition appended_from (v : nat) (v0 : list expr) (h : heap) : Prop :=
  ∃ cs, contents h v = v0 ++ cs.

(** From [h] to [h'] the coefficients of the pairs [L], each the value of
    [phiAlpha] for the components [v0], were appended to the list behind
    [v], and no other list changed. *)
Definition appends (D : list str → list str → expr → nat → nat → result expr)
    (X U : list str) (v : nat) (v0 : list expr) (h h' : heap)
    (L : list (list nat * nat)) : Prop :=
  ∃ cs, contents h' v = contents h v ++ cs
      ∧ (∀ r, r ≠ v → h' !! r = h !! r)
      ∧ Forall2 (λ c Jq, Listing.phiAlpha D X U v0 Jq.1 Jq.2 = Ok c) cs L.

(** [e] and its partial derivatives up to order [m] evaluate to 0. *)
Fixpoint vanishes (m : nat) (e : expr) : Prop :=
  (∀ ι, eval ι e = 0%Z)
  ∧ match m with
    | 0 => True
    | S m' => ∀ s, vanishes m' (diff e s)
    end.

(** The partial derivatives of [e] of orders 2 to [m+2] evaluate to 0. *)
Definition flat (m : nat) (e : expr) : Prop :=
  ∀ s t, vanishes m (diff (diff e s) t).

(** A linear combination of symbols with integer coefficients: its value,
    and its partial derivative with respect to [t]. *)
Definition lin_val (ι : interp) (l : list (Z * str)) : Z :=
  sumZ (λ cs, cs.1 * sym_val ι cs.2)%Z l.

Definition lin_coef (l : list (Z * str)) (t : str) : Z :=
  sumZ (λ cs, cs.1 * (if decide (cs.2 = t) then 1 else 0))%Z l.

(** The symbol reached from [s] by resolving one derivative after the
    other, with respect to the labels at the positions [J]. *)
Definition res_path (X U : list str) (s : str) (J : list nat) : str :=
  fold_left (λ s j, resolved X U s (default [] (X !! j))) J s.

(** The partial derivatives of [e] are the coefficients of [l]. *)
Definition grad (e : expr) (l : list (Z * str)) : Prop :=
  ∀ ι t, eval ι (diff e t) = lin_coef l t.

(** The integer an expression is, for an integer constant. *)
Definition int_of (e : expr) : Z :=
  match e with
  | Int z => z
  | _ => 0%Z
  end.

(** The symbol [divUJi] returns, when it returns one. *)
Definition div_sym (X U : list str) (u : str) (J : list nat) (i : nat) : str :=
  match divUJi X U u J i with
  | Ok (Some r) => r
  | _ => []
  end.

(** The integer [v[i]] and the symbol of the derivative of [u] by [X[i]]. *)
Definition xi_coef (v : list expr) (i : nat) : Z :=
  int_of (default (Int 0) (v !! i)).

Definition u_sym (X U : list str) (u : str) (i : nat) : str :=
  resolved X U u (default [] (X !! i)).

(** [good s]: sympy reads [s] as the symbol called [s], [var(s)] creates
    that symbol, and [s] is not a name the notebook looks up. *)
Definition good (sympify symbols : str → outcome str) (s : str) : Prop :=
  sympify s = Returns s ∧ symbols s = Returns s ∧ s ∉ notebook_names.

Global Instance good_dec sympify symbols s : Decision (good sympify symbols s).
Proof. unfold good. apply _. Defined.

(** Every label of [X] and every symbol of orders 0 to [N] is [good]. *)
Definition good_names (sympify symbols : str → outcome str) (X U : list str)
    (N : nat) : Prop :=
  Forall (good sympify symbols) (X ++ coords X U N).

(** A reading of names for the examples: ['E'] is the number e, for which
    [diff] raises [ValueError]; [var('')] raises [ValueError]; any other
    string is the symbol so called. *)
Definition sympify_E (s : str) : outcome str :=
  if decide (s = py "E") then Raises ValueError else Returns s.

Definition symbols_nonempty (s : str) : outcome str :=
  if decide (s = []) then Raises ValueError else Returns s.

(** The labels and symbols of the examples. *)
Definition x_ : str := py "x".
Definition y_ : str := py "y".
Definition z_ : str := py "z".
Definition u_ : str := py "u".
Definition v_ : str := py "v".

(** ** Lemmas *)

(** *** Facts about [sorted] *)

Lemma sorted_Permutation (a b : str) : sorted a = sorted b ↔ a ≡ₚ b.
Proof.
  unfold sorted. split.
  - intros E. rewrite <- (merge_sort_Permutation char_le a), E.
    apply merge_sort_Permutation.
  - intros E. apply (Sorted_unique char_le).
    + apply (Sorted_merge_sort char_le).
    + apply (Sorted_merge_sort char_le).
    + by rewrite !merge_sort_Permutation.
Qed.

Lemma sorted_length (a : str) : length (sorted a) = length a.
Proof. unfold sorted. by rewrite merge_sort_Permutation. Qed.

Lemma sorted_eq_length (a b : str) : sorted a = sorted b → length a = length b.
Proof. intros E%sorted_Permutation. by rewrite E. Qed.

(** *** The result monad *)

Lemma index_lookup {A} (l : list A) i a : l !! i = Some a → index l i = Ok a.
Proof. unfold index. by intros ->. Qed.

Lemma bind_Ok {A B} (f : A → result B) (a : A) : Ok a ≫= f = f a.
Proof. reflexivity. Qed.

(** *** [list.remove] *)

Lemma list_remove_elem (x : str) (l : list str) :
  x ∈ l → ∃ l', list_remove x l = Ok l' ∧ S (length l') = length l ∧ l' `sublist_of` l.
Proof.
  induction l as [|y l IH]; [by inversion 1|].
  intros Hin. simpl. destruct (decide (x = y)) as [->|Hne].
  - exists l. split_and!; [done..|]. by apply sublist_cons.
  - destruct IH as (l' & -> & Hlen & Hsub).
    { by apply elem_of_cons in Hin as [?|?]. }
    exists (y :: l'). simpl. split_and!; [done|lia|by apply sublist_skip].
Qed.

Lemma list_remove_middle (x : str) (l1 l2 : list str) :
  x ∉ l1 → list_remove x (l1 ++ x :: l2) = Ok (l1 ++ l2).
Proof.
  induction l1 as [|y l1 IH]; simpl.
  - by rewrite decide_True.
  - intros [Hne Hnin]%not_elem_of_cons. rewrite decide_False by done.
    by rewrite IH.
Qed.

(** *** [njet] never raises *)

Lemma njet_inner_ok (cnt : nat) : ∀ i k J,
  i < k → cnt = 0 ∨ k + cnt < length J →
  ∃ J', njet_inner cnt i k J = Ok J' ∧ J' `sublist_of` J.
Proof.
  induction cnt as [|cnt IH]; intros i k J Hik Hlen; simpl.
  { by exists J. }
  destruct Hlen as [|Hlen]; [done|].
  destruct (lookup_lt_is_Some_2 J i) as [Ji HJi]; [lia|].
  destruct (lookup_lt_is_Some_2 J k) as [Jk HJk]; [lia|].
  rewrite (index_lookup _ _ _ HJi), (index_lookup _ _ _ HJk). simpl.
  destruct (decide (sorted Ji = sorted Jk)).
  - destruct (list_remove_elem Jk J) as (J1 & -> & HlenJ & Hsub).
    { by eapply list_elem_of_lookup_2. }
    simpl. destruct (IH i k J1) as (J' & -> & Hsub'); [done|right; lia|].
    exists J'. split; [done|]. by etrans.
  - destruct (IH i (S k) J) as (J' & -> & Hsub'); [lia|right; lia|].
    by exists J'.
Qed.

Lemma njet_outer_ok (idx : list nat) : ∀ J,
  ∃ J', njet_outer idx J = Ok J' ∧ J' `sublist_of` J.
Proof.
  induction idx as [|i idx IH]; intros J; simpl.
  { by exists J. }
  destruct (njet_inner_ok (length J - 1 - (i + 1)) i (i + 1) J)
    as (J1 & -> & Hsub); [lia|lia|].
  simpl. destruct (decide _).
  - by exists J1.
  - destruct (IH J1) as (J' & -> & Hsub'). exists J'. split; [done|]. by etrans.
Qed.

Lemma njet_ok (X U : list str) (n : nat) :
  ∃ R, njet X U n = Ok R ∧ R `sublist_of` Nat.iter n (jet X) U.
Proof. apply njet_outer_ok. Qed.

(** *** The deduplication loops on a list without repeated strings *)

Lemma njet_inner_NoDup (C : list str) : ∀ A x B z,
  NoDup (A ++ x :: B ++ C ++ [z]) →
  njet_inner (length C) (length A) (length A + 1 + length B)
             (A ++ x :: B ++ C ++ [z])
  = Ok (A ++ x :: B ++ filter (λ y, sorted x ≠ sorted y) C ++ [z]).
Proof.
  induction C as [|y C IH]; intros A x B z Hnd; simpl in Hnd |- *.
  { done. }
  assert (Hre : A ++ x :: B ++ y :: C ++ [z] = (A ++ x :: B) ++ y :: C ++ [z])
    by by rewrite <- !app_assoc.
  rewrite (index_lookup _ (length A) x) by apply list_lookup_middle, eq_refl.
  rewrite (index_lookup _ (length A + 1 + length B) y).
  2:{ rewrite Hre. apply list_lookup_middle. rewrite length_app. simpl. lia. }
  simpl. destruct (decide (sorted x = sorted y)) as [E|E].
  - rewrite Hre in Hnd |- *. rewrite list_remove_middle.
    2:{ apply NoDup_app in Hnd as (_ & Hnd & _). intros Hin.
        apply (Hnd y Hin). by left. }
    simpl. rewrite <- app_assoc. simpl.
    rewrite IH.
    + rewrite filter_cons_False; [done|]. by intros ?.
    + rewrite <- app_assoc in Hnd. simpl in Hnd.
      eapply sublist_NoDup; [exact Hnd|].
      apply sublist_app; [done|]. apply sublist_skip.
      apply sublist_app; [done|]. by apply sublist_cons.
  - specialize (IH A x (B ++ [y]) z). rewrite length_app in IH. simpl in IH.
    replace (length A + 1 + (length B + 1)) with (S (length A + 1 + length B)) in IH by lia.
    rewrite <- !app_assoc in IH. simpl in IH. rewrite IH by done.
    by rewrite filter_cons_True.
Qed.

(** After the loops: the kept strings form a sublist, every string of the
    input is still represented up to a rearrangement of its characters,
    and, when the last string of the input has no rearrangement elsewhere
    in it, no two kept strings are rearrangements of each other. *)
Lemma njet_outer_NoDup (todo : nat) : ∀ A B,
  length (A ++ B) ≤ length A + todo →
  NoDup (A ++ B) →
  ∃ R, njet_outer (seq (length A) todo) (A ++ B) = Ok R
     ∧ R `sublist_of` (A ++ B)
     ∧ (∀ s, s ∈ A ++ B → ∃ r, r ∈ R ∧ sorted r = sorted s)
     ∧ (NoDup (sorted <$> A) →
        (∀ a b, a ∈ A → b ∈ B → sorted a ≠ sorted b) →
        (∀ C z y, B = C ++ [z] → y ∈ C → sorted y ≠ sorted z) →
        NoDup (sorted <$> R)).
Proof.
  induction todo as [|todo IH]; intros A B Hlen Hnd.
  { rewrite length_app in Hlen. destruct B; [|simpl in Hlen; lia].
    rewrite app_nil_r. simpl. exists A. split_and!; eauto. }
  simpl seq. cbn [njet_outer].
  destruct B as [|x B].
  { rewrite app_nil_r in *.
    replace (length A - 1 - (length A + 1)) with 0 by lia. simpl.
    rewrite decide_True by lia. exists A. split_and!; eauto. }
  destruct B as [|z C _] using rev_ind.
  { rewrite length_app. simpl.
    replace (length A + 1 - 1 - (length A + 1)) with 0 by lia. simpl.
    rewrite decide_True by (rewrite length_app; simpl; lia).
    exists (A ++ [x]). split_and!; eauto.
    intros HA Hcross _. rewrite fmap_app. simpl.
    apply NoDup_app. split_and!; [done| |apply NoDup_singleton].
    intros k (a & -> & Ha)%list_elem_of_fmap Hk%list_elem_of_singleton.
    eapply Hcross; [exact Ha|by left|done]. }
  replace (length (A ++ x :: C ++ [z]) - 1 - (length A + 1)) with (length C)
    by (rewrite !length_app; simpl; rewrite length_app; simpl; lia).
  pose proof (njet_inner_NoDup C A x [] z) as Hin. simpl in Hin.
  rewrite Nat.add_0_r in Hin. rewrite Hin by done. clear Hin. simpl.
  set (C' := filter (λ y, sorted x ≠ sorted y) C).
  assert (HsubC : C' `sublist_of` C) by apply sublist_filter.
  assert (Hsub : (A ++ x :: C' ++ [z]) `sublist_of` (A ++ x :: C ++ [z])).
  { apply sublist_app; [done|]. apply sublist_skip. by apply sublist_app. }
  assert (Hcov : ∀ s, s ∈ A ++ x :: C ++ [z] →
                 ∃ r, r ∈ A ++ x :: C' ++ [z] ∧ sorted r = sorted s).
  { intros s Hs. destruct (decide (sorted x = sorted s)) as [E|E].
    - exists x. split; [|done]. apply elem_of_app. right. by left.
    - exists s. split; [|done].
      apply elem_of_app in Hs as [Hs|Hs]; [apply elem_of_app; by left|].
      apply elem_of_app. right.
      apply elem_of_cons in Hs as [->|Hs]; [by left|]. right.
      apply elem_of_app in Hs as [Hs|Hs]; apply elem_of_app; [left|by right].
      by apply list_elem_of_filter. }
  destruct (decide _) as [Hbrk|Hbrk].
  - exists (A ++ x :: C' ++ [z]). split_and!; [done..|].
    assert (C' = []) as ->.
    { rewrite !length_app in Hbrk. simpl in Hbrk. rewrite length_app in Hbrk.
      simpl in Hbrk. destruct C'; [done|simpl in Hbrk; lia]. }
    simpl. intros HA Hcross Hlast.
    rewrite fmap_app. simpl. apply NoDup_app. split_and!; [done| |].
    + intros k (a & -> & Ha)%list_elem_of_fmap Hk.
      apply elem_of_cons in Hk as [Hk|Hk%list_elem_of_singleton].
      * eapply Hcross; [exact Ha| |exact Hk]. by left.
      * eapply Hcross; [exact Ha| |exact Hk]. set_solver.
    + apply NoDup_cons. split; [|apply NoDup_singleton].
      intros Hk%list_elem_of_singleton.
      eapply (Hlast (x :: C) z x); [done|by left|done].
  - specialize (IH (A ++ [x]) (C' ++ [z])).
    replace (length (A ++ [x])) with (S (length A)) in IH
      by (rewrite length_app; simpl; lia).
    rewrite <- !app_assoc in IH. simpl in IH.
    destruct IH as (R & -> & HsubR & HcovR & HkeysR).
    { rewrite !length_app in Hlen |- *. simpl in *. rewrite length_app in Hlen |- *.
      simpl in *. apply sublist_length in HsubC. lia. }
    { by eapply sublist_NoDup. }
    exists R. split_and!; [done|by etrans| |].
    + intros s Hs. destruct (Hcov s Hs) as (r & Hr & Er).
      destruct (HcovR r Hr) as (r' & Hr' & Er'). exists r'. split; [done|congruence].
    + intros HA Hcross Hlast. apply HkeysR.
      * rewrite fmap_app. simpl. apply NoDup_app. split_and!; [done| |apply NoDup_singleton].
        intros k (a & -> & Ha)%list_elem_of_fmap Hk%list_elem_of_singleton.
        eapply Hcross; [exact Ha|by left|done].
      * intros a b [Ha| ->%list_elem_of_singleton]%elem_of_app Hb.
        -- apply Hcross; [done|]. right.
           eapply elem_of_sublist; [exact Hb|]. by apply sublist_app.
        -- apply elem_of_app in Hb as [Hb|Hb%list_elem_of_singleton].
           ++ unfold C' in Hb. by apply list_elem_of_filter in Hb as [? _].
           ++ subst b. eapply (Hlast (x :: C) z x); [done|by left].
      * intros C0 z0 y [EC Ez]%app_inj_tail Hy. subst z0. rewrite <- EC in Hy.
        eapply (Hlast (x :: C) z y); [done|]. right.
        by eapply elem_of_sublist.
Qed.

Lemma njet_dedup_NoDup (J : list str) :
  NoDup J →
  ∃ R, njet_dedup J = Ok R
     ∧ R `sublist_of` J
     ∧ (∀ s, s ∈ J → ∃ r, r ∈ R ∧ sorted r = sorted s)
     ∧ ((∀ C z y, J = C ++ [z] → y ∈ C → sorted y ≠ sorted z) →
        NoDup (sorted <$> R)).
Proof.
  intros Hnd. destruct (njet_outer_NoDup (length J) [] J) as (R & HR & ? & ? & Hk);
    [simpl; lia|done|].
  exists R. split_and!; [done..|].
  intros Hlast. apply Hk; [constructor|by inversion 1|done].
Qed.

(** *** Binomial coefficients *)

Lemma binom_0_r n : binom n 0 = 1.
Proof. by destruct n. Qed.

Lemma binom_lt : ∀ n k, n < k → binom n k = 0.
Proof.
  induction n as [|n IH]; intros [|k] H; simpl; try lia.
  rewrite !IH by lia. done.
Qed.

Lemma binom_fact : ∀ n k, k ≤ n → binom n k * (fact k * fact (n - k)) = fact n.
Proof.
  induction n as [|n IH]; intros [|k] H; simpl binom; try lia.
  - simpl. lia.
  - rewrite Nat.sub_0_r. simpl fact at 1. lia.
  - destruct (decide (k = n)) as [->|Hne].
    + rewrite (binom_lt n (S n)) by lia.
      pose proof (IH n (le_n _)) as E. rewrite Nat.sub_diag in *.
      change (fact (S n)) with (S n * fact n). simpl fact in E |- *. nia.
    + pose proof (IH k ltac:(lia)) as E1. pose proof (IH (S k) ltac:(lia)) as E2.
      replace (n - k) with (S (n - S k)) in E1 by lia.
      replace (S n - S k) with (S (n - S k)) by lia.
      change (fact (S n)) with (S n * fact n).
      change (fact (S k)) with (S k * fact k) in *.
      change (fact (S (n - S k))) with (S (n - S k) * fact (n - S k)) in *.
      nia.
Qed.

(** *** [Listing.combinations_with_replacement] *)

Section cwr.
Context {A : Type} `{EqDecision A}.
Implicit Types (pool w : list A).

Lemma cwr_0 pool : Listing.combinations_with_replacement 0 pool = [[]].
Proof. done. Qed.

Lemma cwr_nil k : Listing.combinations_with_replacement (S k) (@nil A) = [].
Proof. done. Qed.

Lemma cwr_cons k x pool :
  Listing.combinations_with_replacement (S k) (x :: pool)
  = (cons x <$> Listing.combinations_with_replacement k (x :: pool))
    ++ Listing.combinations_with_replacement (S k) pool.
Proof. done. Qed.

Lemma cwr_length : ∀ k pool,
  length (Listing.combinations_with_replacement k pool) = binom (length pool + k - 1) k.
Proof.
  induction k as [|k IHk]; intros pool.
  { by rewrite binom_0_r. }
  induction pool as [|x pool IHp].
  { rewrite cwr_nil. simpl. rewrite binom_lt; [done|lia]. }
  rewrite cwr_cons, length_app, length_fmap, IHk, IHp. simpl length.
  replace (S (length pool) + S k - 1) with (S (length pool + k)) by lia.
  replace (S (length pool) + k - 1) with (length pool + k) by lia.
  replace (length pool + S k - 1) with (length pool + k) by lia.
  done.
Qed.

Lemma elem_of_cwr : ∀ k pool w,
  w ∈ Listing.combinations_with_replacement k pool →
  length w = k ∧ ∀ a, a ∈ w → a ∈ pool.
Proof.
  induction k as [|k IHk]; intros pool w.
  { rewrite cwr_0. intros ->%list_elem_of_singleton. split; [done|]. by inversion 1. }
  induction pool as [|x pool IHp].
  { rewrite cwr_nil. by inversion 1. }
  rewrite cwr_cons, elem_of_app, list_elem_of_fmap.
  intros [(w' & -> & Hw')|Hw].
  - destruct (IHk _ _ Hw') as [Hl Hin]. split; [simpl; lia|].
    intros a [->|Ha]%elem_of_cons; [by left|by apply Hin].
  - destruct (IHp Hw) as [Hl Hin]. split; [done|].
    intros a Ha. right. by apply Hin.
Qed.

Lemma cwr_unique : ∀ k pool w w',
  NoDup pool →
  w ∈ Listing.combinations_with_replacement k pool →
  w' ∈ Listing.combinations_with_replacement k pool →
  w ≡ₚ w' → w = w'.
Proof.
  induction k as [|k IHk]; intros pool w w' Hnd.
  { rewrite cwr_0. by intros ->%list_elem_of_singleton ->%list_elem_of_singleton. }
  induction pool as [|x pool IHp].
  { rewrite cwr_nil. by inversion 1. }
  apply NoDup_cons in Hnd as [Hx Hnd'].
  rewrite cwr_cons, !elem_of_app, !list_elem_of_fmap.
  intros [(w1 & -> & Hw1)|Hw] [(w1' & -> & Hw1')|Hw'] Hp.
  - f_equal. eapply IHk; [by apply NoDup_cons|done..|].
    by apply (inj (cons x)) in Hp.
  - exfalso. apply Hx. apply (elem_of_cwr _ _ _ Hw'). rewrite <- Hp. by left.
  - exfalso. apply Hx. apply (elem_of_cwr _ _ _ Hw). rewrite Hp. by left.
  - by apply IHp.
Qed.

Lemma cwr_complete : ∀ k pool w,
  length w = k → (∀ a, a ∈ w → a ∈ pool) →
  ∃ w', w' ∈ Listing.combinations_with_replacement k pool ∧ w' ≡ₚ w.
Proof.
  induction k as [|k IHk]; intros pool w Hl Hin.
  { apply nil_length_inv in Hl as ->. exists []. split; [by left|done]. }
  induction pool as [|x pool IHp].
  { destruct w as [|a w]; [done|]. specialize (Hin a ltac:(by left)). by inversion Hin. }
  destruct (decide (x ∈ w)) as [Hx|Hx].
  - apply elem_of_Permutation in Hx as [w1 Hw1].
    destruct (IHk (x :: pool) w1) as (w1' & Hw1' & Hp).
    { apply Permutation_length in Hw1. simpl in Hw1. lia. }
    { intros a Ha. apply Hin. rewrite Hw1. by right. }
    exists (x :: w1'). split.
    + rewrite cwr_cons, elem_of_app, list_elem_of_fmap. left. by exists w1'.
    + by rewrite Hw1, Hp.
  - destruct IHp as (w' & Hw' & Hp).
    { intros a Ha. specialize (Hin a Ha).
      apply elem_of_cons in Hin as [->|?]; [done|done]. }
    exists w'. split; [|done].
    rewrite cwr_cons, elem_of_app. by right.
Qed.

Lemma cwr_NoDup : ∀ k pool,
  NoDup pool → NoDup (Listing.combinations_with_replacement k pool).
Proof.
  induction k as [|k IHk]; intros pool Hnd.
  { rewrite cwr_0. apply NoDup_singleton. }
  induction pool as [|x pool IHp].
  { rewrite cwr_nil. constructor. }
  pose proof Hnd as [Hx Hnd']%NoDup_cons.
  rewrite cwr_cons. apply NoDup_app. split_and!.
  - apply (NoDup_fmap_2 _). by apply IHk.
  - intros w (w1 & -> & Hw1)%list_elem_of_fmap Hw.
    apply Hx. apply (elem_of_cwr _ _ _ Hw). by left.
  - by apply IHp.
Qed.

End cwr.

(** *** The symbols before deduplication *)

Lemma single_chars_elem (X : list str) (x : str) :
  single_chars X → x ∈ X → length x = 1.
Proof. unfold single_chars. rewrite Forall_forall. auto. Qed.

Lemma single_chars_incl (X ws : list str) :
  single_chars X → (∀ x, x ∈ ws → x ∈ X) → single_chars ws.
Proof.
  unfold single_chars. rewrite !Forall_forall. auto.
Qed.

Lemma elem_of_jet (X L : list str) (s : str) :
  s ∈ jet X L ↔ ∃ t x, t ∈ L ∧ x ∈ X ∧ s = t ++ x.
Proof.
  unfold jet. rewrite list_elem_of_bind. split.
  - intros (t & (x & -> & Hx)%list_elem_of_fmap & Ht). by exists t, x.
  - intros (t & x & Ht & Hx & ->). exists t. split; [|done].
    apply list_elem_of_fmap. by exists x.
Qed.

Lemma elem_of_iter_jet (X U : list str) (k : nat) (s : str) :
  s ∈ Nat.iter k (jet X) U ↔
  ∃ u ws, u ∈ U ∧ length ws = k ∧ (∀ x, x ∈ ws → x ∈ X) ∧ s = u ++ concat ws.
Proof.
  revert s. induction k as [|k IH]; intros s; simpl.
  - split.
    + intros Hs. exists s, []. split_and!; [done|done|by inversion 1|].
      simpl. by rewrite app_nil_r.
    + intros (u & ws & Hu & ->%nil_length_inv & _ & ->). simpl.
      by rewrite app_nil_r.
  - rewrite elem_of_jet. split.
    + intros (t & x & (u & ws & Hu & Hl & Hws & ->)%IH & Hx & ->).
      exists u, (ws ++ [x]). split_and!; [done| | |].
      * rewrite length_app. simpl. lia.
      * intros y [?| ->%list_elem_of_singleton]%elem_of_app; auto.
      * rewrite concat_app. simpl. by rewrite app_nil_r, app_assoc.
    + intros (u & ws & Hu & Hl & Hws & ->).
      destruct ws as [|x ws _] using rev_ind; [done|].
      rewrite length_app in Hl. simpl in Hl.
      exists (u ++ concat ws), x. split_and!.
      * apply IH. exists u, ws. split_and!; [done|lia| |done].
        intros y Hy. apply Hws. apply elem_of_app. by left.
      * apply Hws. apply elem_of_app. right. by left.
      * rewrite concat_app. simpl. by rewrite app_nil_r, app_assoc.
Qed.

Lemma single_chars_concat (ws : list str) :
  single_chars ws → ws = (λ a, [a]) <$> concat ws.
Proof.
  induction ws as [|w ws IH]; intros H; [done|].
  apply Forall_cons in H as [Hw H].
  destruct w as [|a [|??]]; try done. simpl. f_equal. by apply IH.
Qed.

Lemma single_chars_concat_length (ws : list str) :
  single_chars ws → length (concat ws) = length ws.
Proof.
  intros H. rewrite (single_chars_concat ws H) at 2. by rewrite length_fmap.
Qed.

Lemma single_chars_Permutation (ws ws' : list str) :
  single_chars ws → single_chars ws' → concat ws ≡ₚ concat ws' → ws ≡ₚ ws'.
Proof.
  intros H H' Hp. rewrite (single_chars_concat ws H), (single_chars_concat ws' H').
  by apply fmap_Permutation.
Qed.

Lemma iter_jet_length (X U : list str) (k : nat) (s : str) :
  single_chars X → s ∈ Nat.iter k (jet X) U →
  ∃ u, u ∈ U ∧ length s = length u + k.
Proof.
  intros HX (u & ws & Hu & Hl & Hws & ->)%elem_of_iter_jet.
  exists u. split; [done|]. rewrite length_app, single_chars_concat_length; [lia|].
  by eapply single_chars_incl.
Qed.

Lemma NoDup_jet (X L : list str) :
  single_chars X → NoDup X → NoDup L → NoDup (jet X L).
Proof.
  intros HX HndX HndL. unfold jet. apply NoDup_bind; [| |done].
  - intros t1 t2 s _ _ (x1 & -> & Hx1)%list_elem_of_fmap
      (x2 & E & Hx2)%list_elem_of_fmap.
    apply app_inj_2 in E as [? ?]; [done|].
    by rewrite (single_chars_elem X x1), (single_chars_elem X x2).
  - intros t _. by apply (NoDup_fmap_2 _).
Qed.

Lemma NoDup_iter_jet (X U : list str) (k : nat) :
  single_chars X → NoDup X → NoDup U → NoDup (Nat.iter k (jet X) U).
Proof. intros. induction k; simpl; [done|]. by apply NoDup_jet. Qed.

Lemma iter_jet_last (X U : list str) (c ul : str) (k : nat) :
  ∃ C, Nat.iter k (jet (X ++ [c])) (U ++ [ul]) = C ++ [ul ++ concat (replicate k c)].
Proof.
  induction k as [|k [C IH]]; simpl.
  - exists U. by rewrite app_nil_r.
  - rewrite IH. unfold jet at 1. rewrite bind_app, bind_singleton, fmap_app. simpl.
    eexists. rewrite !app_assoc. f_equal. f_equal.
    rewrite <- !app_assoc. f_equal.
    clear. induction k as [|k IHk]; simpl; [by rewrite app_nil_r|].
    by rewrite <- app_assoc, IHk.
Qed.

(** With one dependent variable the last symbol before deduplication is
    the only one with its characters. *)
Lemma iter_jet_last_unique (X : list str) (u : str) (k : nat) C z y :
  single_chars X → NoDup X →
  Nat.iter k (jet X) [u] = C ++ [z] → y ∈ C → sorted y ≠ sorted z.
Proof.
  intros HX HndX HL Hy E.
  assert (Hnd : NoDup (C ++ [z])).
  { rewrite <- HL. apply NoDup_iter_jet; [done..|apply NoDup_singleton]. }
  assert (Hyz : y ≠ z).
  { intros ->. apply NoDup_app in Hnd as (_ & Hnd & _). apply (Hnd z Hy). by left. }
  assert (Hy' : y ∈ Nat.iter k (jet X) [u]) by (rewrite HL; apply elem_of_app; by left).
  apply elem_of_iter_jet in Hy' as (u' & ws & ->%list_elem_of_singleton & Hl & Hws & ->).
  destruct X as [|c X _] using rev_ind.
  { destruct ws as [|w ws]; [|specialize (Hws w ltac:(by left)); by inversion Hws].
    simpl in Hl. subst k. simpl in HL.
    destruct C as [|? C]; [by inversion Hy|]. by destruct C. }
  destruct (iter_jet_last X [] c u k) as [C' HL']. simpl in HL'.
  rewrite HL' in HL. apply app_inj_tail in HL as [_ <-].
  apply Hyz. f_equal.
  apply sorted_Permutation, Permutation_app_inv_l in E.
  assert (Hc : length c = 1).
  { apply (single_chars_elem _ _ HX), elem_of_app. right. by left. }
  destruct c as [|a [|??]]; try done.
  assert (Hws' : single_chars ws) by by eapply single_chars_incl.
  assert (concat (replicate k [a]) = replicate k a) as Hrep.
  { clear. induction k; simpl; [done|]. by rewrite IHk. }
  rewrite Hrep in E |- *. symmetry in E. apply replicate_Permutation in E.
  by rewrite <- E.
Qed.

(** *** The size of an order-[k] band *)

Lemma njet_one_dependent (X : list str) (u : str) (k : nat) :
  single_chars X → NoDup X →
  ∃ R, njet X [u] k = Ok R ∧ NoDup R
     ∧ length R = binom (length X + k - 1) k.
Proof.
  intros HX HndX.
  assert (HndL : NoDup (Nat.iter k (jet X) [u])).
  { apply NoDup_iter_jet; [done..|apply NoDup_singleton]. }
  destruct (njet_dedup_NoDup _ HndL) as (R & HR & Hsub & Hcov & Hkeys).
  exists R. split_and!; [done|by eapply sublist_NoDup|].
  specialize (Hkeys (λ C z y, iter_jet_last_unique X u k C z y HX HndX)).
  rewrite <- cwr_length, <- (length_fmap sorted R).
  rewrite <- (length_fmap (λ ws, sorted (u ++ concat ws))).
  apply Permutation_length, NoDup_Permutation; [done| |].
  - apply NoDup_fmap_2_strong; [|by apply cwr_NoDup].
    intros ws ws' Hws Hws' E.
    apply (cwr_unique k X ws ws' HndX Hws Hws').
    apply sorted_Permutation, Permutation_app_inv_l in E.
    apply single_chars_Permutation; [| |done].
    + eapply single_chars_incl; [done|]. apply (elem_of_cwr _ _ _ Hws).
    + eapply single_chars_incl; [done|]. apply (elem_of_cwr _ _ _ Hws').
  - intros key. rewrite !list_elem_of_fmap. split.
    + intros (r & -> & Hr).
      assert (Hr' : r ∈ Nat.iter k (jet X) [u]) by by eapply elem_of_sublist.
      apply elem_of_iter_jet in Hr'
        as (u' & ws & ->%list_elem_of_singleton & Hl & Hws & ->).
      destruct (cwr_complete k X ws Hl Hws) as (ws' & Hws' & Hp).
      exists ws'. split; [|done].
      apply sorted_Permutation. by rewrite Hp.
    + intros (ws & -> & Hws). apply elem_of_cwr in Hws as [Hl Hws].
      destruct (Hcov (u ++ concat ws)) as (r & Hr & E).
      { apply elem_of_iter_jet. exists u, ws. split_and!; [by left|done..]. }
      by exists r.
Qed.

Lemma for_each_index_from {St A} (body : St → A → result St) (pre J : list A) :
  ∀ s0, for_each (λ s j, a ← index (pre ++ J) j; body s a)
          (seq (length pre) (length J)) s0 = for_each body J s0.
Proof.
  revert pre. induction J as [|a J IH]; intros pre s0; simpl; [done|].
  rewrite (index_lookup _ _ a) by apply list_lookup_middle, eq_refl. simpl.
  destruct (body s0 a) as [s1|e]; simpl; [|done].
  specialize (IH (pre ++ [a]) s1). rewrite <- app_assoc, length_app in IH.
  simpl in IH. replace (length pre + 1)%nat with (S (length pre)) in IH by lia.
  exact IH.
Qed.

Lemma for_each_index {St A} (body : St → A → result St) (J : list A) (s0 : St) :
  for_each (λ s j, a ← index J j; body s a) (range (length J)) s0
  = for_each body J s0.
Proof. apply (for_each_index_from body [] J s0). Qed.

(** *** The jet coordinates a total derivative ranges over *)

Lemma njet_band (X U : list str) (m : nat) : njet X U m = Ok (band X U m).
Proof. unfold band. by destruct (njet_ok X U m) as (R & -> & _). Qed.

Lemma band_sublist (X U : list str) (m : nat) :
  band X U m `sublist_of` Nat.iter m (jet X) U.
Proof. unfold band. by destruct (njet_ok X U m) as (R & -> & ?). Qed.

Lemma fulljet_bands (X U : list str) (n : nat) :
  fulljet X U n = Ok (X ++ U ++ bands X U n).
Proof.
  unfold fulljet, bands, range.
  assert (H : ∀ a J, for_each (λ J i, Ji ← njet X U (i + 1); Ok (J ++ Ji)) (seq a n) J
                     = Ok (J ++ concat (band X U <$> seq (S a) n))).
  { induction n as [|n IH]; intros a J; simpl.
    - by rewrite app_nil_r.
    - rewrite njet_band. simpl. rewrite IH.
      replace (a + 1) with (S a) by lia. by rewrite <- app_assoc. }
  rewrite H. by rewrite <- app_assoc.
Qed.

Lemma filter_none {A} (P : A → Prop) `{∀ x, Decision (P x)} (l : list A) :
  (∀ x, x ∈ l → ¬ P x) → filter P l = [].
Proof.
  induction l as [|a l IH]; intros H0; [done|].
  rewrite filter_cons_False by (apply H0; by left).
  apply IH. intros x Hx. apply H0. by right.
Qed.

Lemma filter_all {A} (P : A → Prop) `{∀ x, Decision (P x)} (l : list A) :
  (∀ x, x ∈ l → P x) → filter P l = l.
Proof.
  induction l as [|a l IH]; intros H0; [done|].
  rewrite filter_cons_True by (apply H0; by left).
  f_equal. apply IH. intros x Hx. apply H0. by right.
Qed.

Lemma filter_not_elem_of_app (X l : list str) :
  filter (λ v, v ∉ X) (X ++ l) = filter (λ v, v ∉ X) l.
Proof.
  rewrite filter_app, (filter_none _ X); [done|]. intros x Hx Hn. by apply Hn.
Qed.

Lemma uJalpha_cases (X U : list str) (s x : str) :
  uJalpha s x X U = Ok None ∨ uJalpha s x X U = Ok (Some (resolved X U s x)).
Proof.
  unfold resolved, uJalpha. rewrite njet_band. simpl.
  destruct (find _ _); auto.
Qed.

(** [totDiv] as a fold over the coordinates. *)
Lemma totDiv_coords (X U : list str) (P : expr) (i n : nat) (x : str) :
  X !! i = Some x →
  totDiv X U P i n
  = for_each (λ expr s, r ← uJalpha s x X U; t ← operand r;
                        Ok (Add expr (Mul (diff P s) t)))
      (coords X U n) (diff P x).
Proof.
  intros Hx. unfold totDiv. rewrite (index_lookup _ _ _ Hx), bind_Ok. cbv beta.
  rewrite fulljet_bands, bind_Ok. cbv beta zeta. rewrite filter_not_elem_of_app.
  by rewrite (for_each_index
    (λ expr s, r ← uJalpha s x X U; t ← operand r; Ok (Add expr (Mul (diff P s) t)))).
Qed.

Lemma for_each_resolved (X U : list str) (P : expr) (x : str) (l : list str) :
  Forall (λ s, uJalpha s x X U ≠ Ok None) l →
  ∀ e0,
  for_each (λ expr s, r ← uJalpha s x X U; t ← operand r;
                      Ok (Add expr (Mul (diff P s) t))) l e0
  = Ok (fold_left (λ e s, Add e (Mul (diff P s) (Sym (resolved X U s x)))) l e0).
Proof.
  induction 1 as [|s l Hs Hl IH]; intros e0; simpl; [done|].
  destruct (uJalpha_cases X U s x) as [E|E]; [done|].
  rewrite E. simpl. apply IH.
Qed.

(** *** Jet coordinates over single-character labels *)

Section labels.
Context (X U : list str).
Context (HX : single_chars X) (HU : single_chars U) (Hnd : NoDup (X ++ U)).

Lemma NoDup_labels_X : NoDup X.
Proof using Hnd. by apply NoDup_app in Hnd as (? & _ & _). Qed.

Lemma NoDup_labels_U : NoDup U.
Proof using Hnd. by apply NoDup_app in Hnd as (_ & _ & ?). Qed.

Lemma band_length (m : nat) (s : str) : s ∈ band X U m → length s = m + 1.
Proof using HX HU.
  intros Hs. eapply elem_of_sublist in Hs; [|apply band_sublist].
  apply iter_jet_length in Hs as (u & Hu & ->); [|done].
  rewrite (single_chars_elem U u); [lia|done..].
Qed.

Lemma band_NoDup (m : nat) : NoDup (band X U m).
Proof using HX Hnd.
  eapply sublist_NoDup; [|apply band_sublist].
  apply NoDup_iter_jet; [done|apply NoDup_labels_X|apply NoDup_labels_U].
Qed.

Lemma band_cover (m : nat) (t : str) :
  t ∈ Nat.iter m (jet X) U → ∃ r, r ∈ band X U m ∧ sorted r = sorted t.
Proof using HX Hnd.
  intros Ht.
  destruct (njet_dedup_NoDup (Nat.iter m (jet X) U)) as (R & HR & _ & Hcov & _).
  { apply NoDup_iter_jet; [done|apply NoDup_labels_X|apply NoDup_labels_U]. }
  unfold band, njet. rewrite HR. by apply Hcov.
Qed.

Lemma elem_of_bands (n : nat) (s : str) :
  s ∈ bands X U n ↔ ∃ m, 1 ≤ m ≤ n ∧ s ∈ band X U m.
Proof.
  unfold bands. rewrite list_elem_of_In, in_concat. split.
  - intros (l & (m & -> & Hm)%list_elem_of_In%list_elem_of_fmap & Hs%list_elem_of_In).
    apply elem_of_seq in Hm. exists m. split; [lia|done].
  - intros (m & Hm & Hs). exists (band X U m). split; [|by apply list_elem_of_In].
    apply list_elem_of_In, list_elem_of_fmap. exists m. split; [done|].
    apply elem_of_seq. lia.
Qed.

Lemma bands_S (n : nat) : bands X U (S n) = bands X U n ++ band X U (S n).
Proof.
  unfold bands. rewrite seq_S, fmap_app, concat_app. simpl. by rewrite app_nil_r.
Qed.

Lemma bands_NoDup (n : nat) : NoDup (bands X U n).
Proof using HX HU Hnd.
  induction n as [|n IH]; [constructor|].
  rewrite bands_S. apply NoDup_app. split_and!; [done| |apply band_NoDup].
  intros s (m & Hm & Hs)%elem_of_bands Hs'.
  apply band_length in Hs, Hs'. lia.
Qed.

Lemma coords_eq (n : nat) : coords X U n = U ++ bands X U n.
Proof using HX HU Hnd.
  unfold coords. apply filter_all.
  intros s [Hs|(m & Hm & Hs)%elem_of_bands]%elem_of_app Hx.
  - apply NoDup_app in Hnd as (_ & Hd & _). by apply (Hd s).
  - apply band_length in Hs. rewrite (single_chars_elem X s) in Hs; [lia|done..].
Qed.

Lemma coords_NoDup (n : nat) : NoDup (coords X U n).
Proof using HX HU Hnd.
  rewrite coords_eq. apply NoDup_app. split_and!;
    [apply NoDup_labels_U| |apply bands_NoDup].
  intros s Hs (m & Hm & Hs')%elem_of_bands.
  apply band_length in Hs'. rewrite (single_chars_elem U s) in Hs'; [lia|done..].
Qed.

Lemma elem_of_coords (n : nat) (s : str) :
  s ∈ coords X U n ↔ s ∈ U ∨ ∃ m, 1 ≤ m ≤ n ∧ s ∈ band X U m.
Proof using HX HU Hnd. rewrite coords_eq, elem_of_app, elem_of_bands. done. Qed.

Lemma coords_iter (n : nat) (s : str) :
  s ∈ coords X U n →
  1 ≤ length s ≤ n + 1 ∧ s ∈ Nat.iter (length s - 1) (jet X) U.
Proof using HX HU Hnd.
  intros [Hs|(m & Hm & Hs)]%elem_of_coords.
  - rewrite (single_chars_elem U s); [|done..]. simpl. split; [lia|done].
  - pose proof (band_length _ _ Hs) as ->. split; [lia|].
    replace (m + 1 - 1) with m by lia.
    eapply elem_of_sublist; [done|apply band_sublist].
Qed.

(** The resolver finds a symbol for every coordinate. *)
Lemma uJalpha_coords (n : nat) (s x : str) :
  s ∈ coords X U n → x ∈ X →
  uJalpha s x X U = Ok (Some (resolved X U s x))
  ∧ resolved X U s x ∈ band X U (length s)
  ∧ sorted (s ++ x) = sorted (resolved X U s x).
Proof using HX HU Hnd.
  intros [Hlen Hs]%coords_iter Hx.
  assert (Hsx : s ++ x ∈ Nat.iter (length s) (jet X) U).
  { destruct (length s) as [|k]; [lia|]. simpl in *. rewrite Nat.sub_0_r in Hs.
    apply elem_of_jet. by exists s, x. }
  destruct (band_cover (length s) (s ++ x) Hsx) as (r & Hr & E).
  unfold resolved, uJalpha. rewrite njet_band. simpl.
  destruct (find _ _) as [r'|] eqn:Hf.
  - apply find_some in Hf as [Hin Hp]. apply bool_decide_eq_true in Hp.
    split_and!; [done|by apply list_elem_of_In|done].
  - exfalso. eapply find_none in Hf; [|apply list_elem_of_In, Hr].
    apply bool_decide_eq_false in Hf. by apply Hf.
Qed.

Lemma resolved_length (n : nat) (s x : str) :
  s ∈ coords X U n → x ∈ X → length (resolved X U s x) = length s + 1.
Proof using HX HU Hnd.
  intros Hs Hx. destruct (uJalpha_coords n s x Hs Hx) as (_ & _ & E).
  apply sorted_eq_length in E. rewrite length_app in E.
  rewrite (single_chars_elem X x) in E; [lia|done..].
Qed.

Lemma resolved_not_label (n : nat) (s x y : str) :
  s ∈ coords X U n → x ∈ X → y ∈ X → resolved X U s x ≠ y.
Proof using HX HU Hnd.
  intros Hs Hx Hy E. pose proof (resolved_length n s x Hs Hx) as Hl.
  rewrite E, (single_chars_elem X y) in Hl; [|done..].
  apply coords_iter in Hs. lia.
Qed.

Lemma resolved_elem_of_coords (n : nat) (s x : str) :
  s ∈ coords X U n → x ∈ X →
  resolved X U s x ∈ coords X U n ↔ length s ≤ n.
Proof using HX HU Hnd.
  intros Hs Hx. destruct (uJalpha_coords n s x Hs Hx) as (_ & Hb & _).
  pose proof (resolved_length n s x Hs Hx) as Hl.
  pose proof (coords_iter n s Hs) as [Hs1 _].
  split.
  - intros [? _]%coords_iter. lia.
  - intros Hle. apply elem_of_coords. right. exists (length s). split; [lia|done].
Qed.

Lemma resolved_comm (n : nat) (s x y : str) :
  s ∈ coords X U n → x ∈ X → y ∈ X →
  resolved X U (resolved X U s x) y = resolved X U (resolved X U s y) x.
Proof using HX HU Hnd.
  intros Hs Hx Hy.
  destruct (uJalpha_coords n s x Hs Hx) as (_ & _ & Ex).
  destruct (uJalpha_coords n s y Hs Hy) as (_ & _ & Ey).
  pose proof (resolved_length n s x Hs Hx) as Lx.
  pose proof (resolved_length n s y Hs Hy) as Ly.
  unfold resolved at 1 3. unfold uJalpha. rewrite !njet_band. simpl.
  rewrite Lx, Ly.
  assert (E : sorted (resolved X U s x ++ y) = sorted (resolved X U s y ++ x)).
  { apply sorted_Permutation. apply sorted_Permutation in Ex, Ey.
    rewrite <- Ex, <- Ey, <- !app_assoc. f_equiv. apply Permutation_app_comm. }
  by rewrite E.
Qed.

End labels.

Section algebra.
Local Open Scope Z_scope.

(** *** Finite sums *)

Lemma sumZ_ext_in {A} (f g : A → Z) (l : list A) :
  (∀ a, a ∈ l → f a = g a) → sumZ f l = sumZ g l.
Proof.
  induction l as [|a l IH]; intros H; simpl; [done|].
  rewrite (H a) by by left. rewrite IH; [done|].
  intros b Hb. apply H. by right.
Qed.

Lemma sumZ_plus {A} (f g : A → Z) (l : list A) :
  sumZ (λ a, f a + g a) l = sumZ f l + sumZ g l.
Proof. induction l as [|a l IH]; simpl; [done|]. rewrite IH. ring. Qed.

Lemma sumZ_mul_r {A} (f : A → Z) (c : Z) (l : list A) :
  sumZ (λ a, f a * c) l = sumZ f l * c.
Proof. induction l as [|a l IH]; simpl; [done|]. rewrite IH. ring. Qed.

Lemma sumZ_zero {A} (l : list A) : sumZ (λ _, 0) l = 0.
Proof. induction l as [|a l IH]; simpl; [done|]. by rewrite IH. Qed.

Lemma sumZ_swap {A B} (f : A → B → Z) (l1 : list A) (l2 : list B) :
  sumZ (λ a, sumZ (λ b, f a b) l2) l1 = sumZ (λ b, sumZ (λ a, f a b) l1) l2.
Proof.
  induction l1 as [|a l1 IH]; simpl.
  - by rewrite sumZ_zero.
  - by rewrite IH, sumZ_plus.
Qed.

Lemma sumZ_indicator {A} `{EqDecision A} (a : A) (g : A → Z) (l : list A) :
  NoDup l →
  sumZ (λ t, (if decide (a = t) then 1 else 0) * g t) l
  = if decide (a ∈ l) then g a else 0.
Proof.
  induction 1 as [|b l Hb Hl IH]; unfold sumZ; cbn [foldr]; fold (sumZ (A:=A)).
  - rewrite decide_False; [done|by inversion 1].
  - fold (sumZ (λ t, (if decide (a = t) then 1 else 0) * g t) l). rewrite IH. destruct (decide (a = b)) as [->|Hne].
    + rewrite (decide_False (P := b ∈ l)) by done.
      rewrite decide_True by by left. ring.
    + destruct (decide (a ∈ l)) as [Hin|Hin].
      * rewrite decide_True by by right. ring.
      * rewrite decide_False; [ring|]. by intros [?|?]%elem_of_cons.
Qed.

(** *** Partial derivatives *)

Lemma diff_comm (ι : interp) (P : expr) (a b : str) :
  eval ι (diff (diff P a) b) = eval ι (diff (diff P b) a).
Proof.
  induction P as [z|t|P1 IH1 P2 IH2|P1 IH1 P2 IH2|f k P IH]; simpl.
  - done.
  - by destruct (decide (t = a)), (decide (t = b)).
  - by rewrite IH1, IH2.
  - rewrite IH1, IH2. ring.
  - rewrite IH. ring.
Qed.

Lemma eval_fold_chain (ι : interp) (f : str → expr) (g : str → str)
    (l : list str) : ∀ e0,
  eval ι (fold_left (λ e s, Add e (Mul (f s) (Sym (g s)))) l e0)
  = eval ι e0 + sumZ (λ s, eval ι (f s) * sym_val ι (g s)) l.
Proof.
  induction l as [|a l IH]; intros e0; simpl; [ring|].
  rewrite IH. simpl. ring.
Qed.

Lemma eval_diff_fold_chain (ι : interp) (f : str → expr) (g : str → str)
    (t : str) (l : list str) : ∀ e0,
  eval ι (diff (fold_left (λ e s, Add e (Mul (f s) (Sym (g s)))) l e0) t)
  = eval ι (diff e0 t)
    + sumZ (λ s, eval ι (diff (f s) t) * sym_val ι (g s)
                 + eval ι (f s) * (if decide (g s = t) then 1 else 0)) l.
Proof.
  induction l as [|a l IH]; intros e0; simpl; [ring|].
  rewrite IH. simpl. destruct (decide (g a = t)); simpl; ring.
Qed.

(** *** Two total derivatives in either order *)

Section commute.
Context (X U : list str).
Context (HX : single_chars X) (HU : single_chars U) (Hnd : NoDup (X ++ U)).
Context (n : nat) (ι : interp).

Lemma eval_chain_chain (P : expr) (x y : str) :
  x ∈ X → y ∈ X → eval ι (chain X U n (chain X U n P x) y) = normal X U n ι P x y.
Proof using HX HU Hnd.
  intros Hx Hy. unfold chain at 1, chain_sum at 1. rewrite eval_fold_chain.
  unfold chain, chain_sum. rewrite eval_diff_fold_chain.
  rewrite (sumZ_ext_in _ (λ s, eval ι (diff (diff P s) y)
                                * sym_val ι (resolved X U s x))).
  2:{ intros s Hs. rewrite decide_False; [ring|].
      by eapply resolved_not_label. }
  rewrite (sumZ_ext_in
    (λ s, eval ι (diff (fold_left _ (coords X U n) (diff P x)) s) * _)
    (λ t, eval ι (diff (diff P x) t) * sym_val ι (resolved X U t y)
          + (sumZ (λ s, eval ι (diff (diff P s) t)
                        * sym_val ι (resolved X U s x)
                        * sym_val ι (resolved X U t y)) (coords X U n)
             + sumZ (λ s, (if decide (resolved X U s x = t) then 1 else 0)
                          * (eval ι (diff P s) * sym_val ι (resolved X U t y)))
                 (coords X U n)))).
  2:{ intros t Ht. rewrite eval_diff_fold_chain, sumZ_plus.
      rewrite Z.mul_add_distr_r, Z.mul_add_distr_r. f_equal. f_equal.
      - by rewrite <- sumZ_mul_r.
      - rewrite <- sumZ_mul_r. apply sumZ_ext_in. intros s _. ring. }
  rewrite !sumZ_plus. unfold normal.
  rewrite (sumZ_swap (λ t s, (if decide (resolved X U s x = t) then 1 else 0)
                             * (eval ι (diff P s) * sym_val ι (resolved X U t y)))).
  rewrite (sumZ_ext_in
    (λ s, sumZ (λ t, (if decide (resolved X U s x = t) then 1 else 0)
                     * (eval ι (diff P s) * sym_val ι (resolved X U t y)))
            (coords X U n))
    (λ s, eval ι (diff P s)
          * (if decide (resolved X U s x ∈ coords X U n)
             then sym_val ι (resolved X U (resolved X U s x) y) else 0))).
  2:{ intros s Hs.
      rewrite (sumZ_indicator (resolved X U s x)
                 (λ t, eval ι (diff P s) * sym_val ι (resolved X U t y)))
        by by apply coords_NoDup.
      destruct (decide _); ring. }
  ring.
Qed.

Lemma normal_comm (P : expr) (x y : str) :
  x ∈ X → y ∈ X → normal X U n ι P x y = normal X U n ι P y x.
Proof using HX HU Hnd.
  intros Hx Hy. unfold normal.
  rewrite (diff_comm ι P x y).
  rewrite (sumZ_ext_in (λ s, eval ι (diff (diff P s) y) * _)
             (λ t, eval ι (diff (diff P y) t) * sym_val ι (resolved X U t x))).
  2:{ intros s _. by rewrite (diff_comm ι P s y). }
  rewrite (sumZ_ext_in (λ t, eval ι (diff (diff P x) t) * _)
             (λ s, eval ι (diff (diff P s) x) * sym_val ι (resolved X U s y))).
  2:{ intros s _. by rewrite (diff_comm ι P x s). }
  rewrite (sumZ_swap (λ t s, eval ι (diff (diff P s) t)
                             * sym_val ι (resolved X U s x)
                             * sym_val ι (resolved X U t y))).
  rewrite (sumZ_ext_in
    (λ s, sumZ (λ t, eval ι (diff (diff P s) t) * sym_val ι (resolved X U s x)
                     * sym_val ι (resolved X U t y)) (coords X U n))
    (λ t, sumZ (λ s, eval ι (diff (diff P s) t) * sym_val ι (resolved X U s y)
                     * sym_val ι (resolved X U t x)) (coords X U n))).
  2:{ intros s _. apply sumZ_ext_in. intros t _.
      rewrite (diff_comm ι P s t). ring. }
  rewrite (sumZ_ext_in
    (λ s, eval ι (diff P s)
          * (if decide (resolved X U s x ∈ coords X U n)
             then sym_val ι (resolved X U (resolved X U s x) y) else 0))
    (λ s, eval ι (diff P s)
          * (if decide (resolved X U s y ∈ coords X U n)
             then sym_val ι (resolved X U (resolved X U s y) x) else 0))).
  2:{ intros s Hs. f_equal.
      rewrite (resolved_comm X U HX HU Hnd n s x y) by done.
      destruct (decide (resolved X U s x ∈ _)) as [H1|H1],
               (decide (resolved X U s y ∈ _)) as [H2|H2]; try done.
      - exfalso. apply H2.
        apply (resolved_elem_of_coords X U HX HU Hnd n s y Hs Hy).
        by apply (resolved_elem_of_coords X U HX HU Hnd n s x Hs Hx).
      - exfalso. apply H1.
        apply (resolved_elem_of_coords X U HX HU Hnd n s x Hs Hx).
        by apply (resolved_elem_of_coords X U HX HU Hnd n s y Hs Hy). }
  ring.
Qed.

Lemma chain_comm (P : expr) (x y : str) :
  x ∈ X → y ∈ X →
  eval ι (chain X U n (chain X U n P x) y) = eval ι (chain X U n (chain X U n P y) x).
Proof using HX HU Hnd.
  intros Hx Hy. rewrite !eval_chain_chain by done. by apply normal_comm.
Qed.

End commute.

End algebra.

Lemma coords_resolve (X U : list str) (n : nat) (x : str) :
  single_chars X → single_chars U → NoDup (X ++ U) → x ∈ X →
  Forall (λ s, uJalpha s x X U ≠ Ok None) (coords X U n).
Proof.
  intros HX HU Hnd Hx. apply Forall_forall. intros s Hs.
  destruct (uJalpha_coords X U HX HU Hnd n s x Hs Hx) as (-> & _). done.
Qed.

Lemma totDiv_chain (X U : list str) (P : expr) (i n : nat) (x : str) :
  single_chars X → single_chars U → NoDup (X ++ U) → X !! i = Some x →
  totDiv X U P i n = Ok (chain X U n P x).
Proof.
  intros HX HU Hnd Hx. rewrite (totDiv_coords X U P i n x Hx).
  apply for_each_resolved, coords_resolve; [done..|].
  by eapply list_elem_of_lookup_2.
Qed.

Lemma TotDiv_listing_pair (X U : list str) (P : expr) (n a b : nat) (xa xb : str) :
  single_chars X → single_chars U → NoDup (X ++ U) →
  X !! a = Some xa → X !! b = Some xb →
  Listing.TotDiv totDiv X U P n [a; b]
  = Ok (chain X U n (chain X U n P xa) xb).
Proof.
  intros HX HU Hnd Ha Hb. unfold Listing.TotDiv. simpl.
  rewrite (totDiv_chain X U P a n xa) by done. simpl.
  by rewrite (totDiv_chain X U _ b n xb) by done.
Qed.

(** *** The notebook with sympy's names *)

Lemma run_bind {A B} (m : result A) (f : A → result B) :
  run (m ≫= f) = run m ≫= (λ a, run (f a)).
Proof. by destruct m. Qed.

Lemma bind_Returns {A B} (f : A → outcome B) (a : A) : Returns a ≫= f = f a.
Proof. reflexivity. Qed.

Lemma for_each_o_run {St A} (bo : St → A → outcome St) (b : St → A → result St)
    (l : list A) :
  (∀ s a, a ∈ l → bo s a = run (b s a)) →
  ∀ s, for_each_o bo l s = run (for_each b l s).
Proof.
  induction l as [|a l IH]; intros H s; [done|]. simpl.
  rewrite H by left. destruct (b s a) as [s'|e]; [|done]. simpl.
  apply IH. intros. apply H. by right.
Qed.

Lemma for_each_o_index_from {St A} (body : St → A → outcome St) (pre J : list A) :
  ∀ s0, for_each_o (λ s j, a ← run (index (pre ++ J) j); body s a)
          (seq (length pre) (length J)) s0 = for_each_o body J s0.
Proof.
  revert pre. induction J as [|a J IH]; intros pre s0; simpl; [done|].
  rewrite (index_lookup _ _ a) by apply list_lookup_middle, eq_refl. simpl.
  destruct (body s0 a) as [s1|e|]; simpl; [|done..].
  specialize (IH (pre ++ [a]) s1). rewrite <- app_assoc, length_app in IH.
  simpl in IH. replace (length pre + 1)%nat with (S (length pre)) in IH by lia.
  exact IH.
Qed.

Lemma for_each_o_index {St A} (body : St → A → outcome St) (J : list A) (s0 : St) :
  for_each_o (λ s j, a ← run (index J j); body s a) (range (length J)) s0
  = for_each_o body J s0.
Proof. apply (for_each_o_index_from body [] J s0). Qed.

Lemma good_names_X sympify symbols (X U : list str) (N : nat) (x : str) :
  good_names sympify symbols X U N → x ∈ X → good sympify symbols x.
Proof.
  unfold good_names. rewrite Forall_forall. intros H Hx. apply H.
  apply elem_of_app. by left.
Qed.

Lemma good_names_coords sympify symbols (X U : list str) (N : nat) (s : str) :
  good_names sympify symbols X U N → s ∈ coords X U N → good sympify symbols s.
Proof.
  unfold good_names. rewrite Forall_forall. intros H Hx. apply H.
  apply elem_of_app. by right.
Qed.

Lemma Notebook_diff_symbol sympify (P : expr) (s : str) :
  sympify s = Returns s → Notebook.diff sympify P s = Returns (diff P s).
Proof. intros E. unfold Notebook.diff. by rewrite E. Qed.

Lemma Notebook_diff_good sympify symbols (P : expr) (s : str) :
  good sympify symbols s → Notebook.diff sympify P s = Returns (diff P s).
Proof. intros (E & _). by apply Notebook_diff_symbol. Qed.

Lemma Notebook_var_good sympify symbols (s : str) :
  good sympify symbols s → Notebook.var symbols s = Returns s.
Proof.
  intros (_ & E & Hn). unfold Notebook.var. rewrite E. simpl.
  by rewrite decide_False.
Qed.

(** The resolver of the notebook and the search it makes. *)
Lemma Notebook_uJalpha_None symbols (u x : str) (X U : list str) :
  uJalpha u x X U = Ok None → Notebook.uJalpha symbols u x X U = Returns None.
Proof.
  unfold uJalpha, Notebook.uJalpha. rewrite njet_band. simpl.
  destruct (find _ _); [done|]. done.
Qed.

Lemma Notebook_uJalpha_Some symbols (u x r : str) (X U : list str) :
  uJalpha u x X U = Ok (Some r) →
  Notebook.uJalpha symbols u x X U = (r' ← Notebook.var symbols r; Returns (Some r')).
Proof.
  unfold uJalpha, Notebook.uJalpha. rewrite njet_band. simpl.
  destruct (find _ _); [|done]. by intros [= ->].
Qed.

Lemma Notebook_uJalpha_good sympify symbols (u x r : str) (X U : list str) :
  uJalpha u x X U = Ok (Some r) → good sympify symbols r →
  Notebook.uJalpha symbols u x X U = Returns (Some r).
Proof.
  intros E Hg. rewrite (Notebook_uJalpha_Some _ _ _ _ _ _ E).
  by rewrite (Notebook_var_good sympify symbols r Hg).
Qed.

(** [Notebook.totDiv] as a loop over the coordinates. *)
Lemma Notebook_totDiv_coords sympify symbols (X U : list str) (P : expr)
    (i n : nat) (x : str) :
  X !! i = Some x →
  Notebook.totDiv sympify symbols X U P i n
  = (e0 ← Notebook.diff sympify P x;
     for_each_o (λ expr s,
         d ← Notebook.diff sympify P s;
         r ← Notebook.uJalpha symbols s x X U;
         t ← run (operand r);
         Returns (Add expr (Mul d t))) (coords X U n) e0).
Proof.
  intros Hx. unfold Notebook.totDiv.
  rewrite (index_lookup _ _ _ Hx). simpl.
  destruct (Notebook.diff sympify P x) as [e0| |]; [|done..]. simpl.
  rewrite fulljet_bands. simpl. rewrite filter_not_elem_of_app.
  by rewrite (for_each_o_index
    (λ expr s, d ← Notebook.diff sympify P s;
               r ← Notebook.uJalpha symbols s x X U;
               t ← run (operand r); Returns (Add expr (Mul d t)))).
Qed.

(** When sympy reads [X[i]] and the coordinates as the symbols so called
    and the resolver returns the matched symbol, [Notebook.totDiv] does
    what [totDiv] does. *)
Lemma Notebook_totDiv_run sympify symbols (X U : list str) (P : expr)
    (i n : nat) (x : str) :
  X !! i = Some x → sympify x = Returns x →
  Forall (λ s, sympify s = Returns s
               ∧ (uJalpha s x X U = Ok None
                  ∨ Notebook.uJalpha symbols s x X U
                    = Returns (Some (resolved X U s x)))) (coords X U n) →
  Notebook.totDiv sympify symbols X U P i n = run (totDiv X U P i n).
Proof.
  intros Hx Ex Hall.
  rewrite (Notebook_totDiv_coords _ _ _ _ _ _ _ _ Hx), (totDiv_coords _ _ _ _ _ _ Hx).
  rewrite (Notebook_diff_symbol _ _ _ Ex), bind_Returns.
  generalize (diff P x). induction Hall as [|s l [Es Hs] Hl IH]; intros e0; [done|].
  cbn [for_each for_each_o]. rewrite (Notebook_diff_symbol _ _ _ Es), bind_Returns.
  destruct Hs as [E|E].
  - rewrite E, (Notebook_uJalpha_None _ _ _ _ _ E). done.
  - rewrite E. destruct (uJalpha_cases X U s x) as [E'|E'].
    + rewrite (Notebook_uJalpha_None symbols _ _ _ _ E') in E. done.
    + rewrite E'. simpl. apply IH.
Qed.

Section good_labels.
Context (sympify symbols : str → outcome str).
Context (X U : list str).
Context (HX : single_chars X) (HU : single_chars U) (Hnd : NoDup (X ++ U)).

Lemma coords_mono (n N : nat) (s : str) :
  n ≤ N → s ∈ coords X U n → s ∈ coords X U N.
Proof using HX HU Hnd.
  intros Hle Hs. apply (elem_of_coords X U HX HU Hnd) in Hs.
  apply (elem_of_coords X U HX HU Hnd).
  destruct Hs as [Hs|(m & Hm & Hs)]; [by left|].
  right. exists m. split; [lia|done].
Qed.

Lemma good_names_le (N n : nat) :
  n ≤ N → good_names sympify symbols X U N → good_names sympify symbols X U n.
Proof using HX HU Hnd.
  unfold good_names. rewrite !Forall_forall. intros Hle H s Hs. apply H.
  apply elem_of_app in Hs as [Hs|Hs]; apply elem_of_app; [by left|right].
  by apply (coords_mono n N).
Qed.

Lemma Notebook_uJalpha_coords (N : nat) (s x : str) :
  good_names sympify symbols X U N →
  s ∈ coords X U N → length s ≤ N → x ∈ X →
  Notebook.uJalpha symbols s x X U = Returns (Some (resolved X U s x)).
Proof using HX HU Hnd.
  intros Hg Hs Hl Hx.
  destruct (uJalpha_coords X U HX HU Hnd N s x Hs Hx) as (E & _ & _).
  apply (Notebook_uJalpha_good sympify symbols); [done|].
  apply (good_names_coords sympify symbols X U N); [done|].
  by apply (resolved_elem_of_coords X U HX HU Hnd N s x).
Qed.

Lemma Notebook_totDiv_labels (n : nat) (P : expr) (i : nat) :
  good_names sympify symbols X U (n + 1) →
  Notebook.totDiv sympify symbols X U P i n = run (totDiv X U P i n).
Proof using HX HU Hnd.
  intros Hg. destruct (X !! i) as [x|] eqn:Hx.
  - assert (Hxin : x ∈ X) by by eapply list_elem_of_lookup_2.
    apply (Notebook_totDiv_run _ _ _ _ _ _ _ x); [done| |].
    + by apply (good_names_X sympify symbols X U (n + 1)).
    + apply Forall_forall. intros s Hs.
      assert (Hs' : s ∈ coords X U (n + 1)) by (apply (coords_mono n); [lia|done]).
      split.
      * by apply (good_names_coords sympify symbols X U (n + 1)).
      * right. apply (Notebook_uJalpha_coords (n + 1)); [done..| |done].
        apply (coords_iter X U HX HU Hnd) in Hs. lia.
  - unfold Notebook.totDiv, totDiv, index. by rewrite Hx.
Qed.

Lemma Notebook_totDiv_chain (n : nat) (P : expr) (i : nat) (x : str) :
  good_names sympify symbols X U (n + 1) → X !! i = Some x →
  Notebook.totDiv sympify symbols X U P i n = Returns (chain X U n P x).
Proof using HX HU Hnd.
  intros Hg Hx. rewrite Notebook_totDiv_labels by done.
  by rewrite (totDiv_chain X U P i n x).
Qed.

Lemma Notebook_TotDiv_listing (n : nat) (P : expr) (J : list nat) :
  good_names sympify symbols X U (n + 1) →
  NotebookListing.TotDiv (Notebook.totDiv sympify symbols) X U P n J
  = run (Listing.TotDiv totDiv X U P n J).
Proof using HX HU Hnd.
  intros Hg. unfold NotebookListing.TotDiv, Listing.TotDiv.
  rewrite run_bind. destruct (index J 0) as [j0|]; [|done]. simpl.
  rewrite Notebook_totDiv_labels by done.
  destruct (totDiv X U P j0 n) as [e|]; [|done]. simpl.
  apply for_each_o_run. intros s a _. rewrite run_bind.
  destruct (index J a); [|done]. simpl. by apply Notebook_totDiv_labels.
Qed.

Lemma Notebook_TotDiv_labels (P : expr) (J : list nat) :
  good_names sympify symbols X U (length J + 2) →
  Notebook.TotDiv sympify symbols X U P J = run (TotDiv X U P J).
Proof using HX HU Hnd.
  intros Hg.
  change (Notebook.TotDiv sympify symbols X U P J)
    with (NotebookListing.TotDiv (Notebook.totDiv sympify symbols) X U P
            (length J + 1) J).
  change (TotDiv X U P J) with (Listing.TotDiv totDiv X U P (length J + 1) J).
  apply Notebook_TotDiv_listing.
  by replace (length J + 1 + 1) with (length J + 2) by lia.
Qed.

Lemma Notebook_divUJi_loop (N : nat) (J : list nat) : ∀ f : str,
  good_names sympify symbols X U N →
  f ∈ coords X U N → length f + length J ≤ N + 1 →
  for_each_o (λ (f : option str) j,
      x ← run (index X j); Notebook.uJalpha symbols (py_str f) x X U) J (Some f)
  = run (for_each (λ (f : option str) j,
      x ← index X j; uJalpha (py_str f) x X U) J (Some f))
  ∧ ∀ r, for_each (λ (f : option str) j,
      x ← index X j; uJalpha (py_str f) x X U) J (Some f) = Ok r →
      ∃ s, r = Some s ∧ s ∈ coords X U N ∧ length s = length f + length J.
Proof using HX HU Hnd.
  induction J as [|j J IH]; intros f Hg Hf Hlen.
  { split; [done|]. intros r [= <-]. exists f. split_and!; [done..|simpl; lia]. }
  simpl in Hlen. cbn [for_each for_each_o].
  destruct (X !! j) as [x|] eqn:Hx.
  - assert (Hxin : x ∈ X) by by eapply list_elem_of_lookup_2.
    rewrite (index_lookup _ _ _ Hx). simpl.
    destruct (uJalpha_coords X U HX HU Hnd N f x Hf Hxin) as (Eu & _ & _).
    pose proof (resolved_length X U HX HU Hnd N f x Hf Hxin) as Hl.
    rewrite Eu, (Notebook_uJalpha_coords N f x) by (done || lia). simpl.
    destruct (IH (resolved X U f x)) as [E1 E2]; [done| |lia|].
    { apply (resolved_elem_of_coords X U HX HU Hnd N f x); [done..|lia]. }
    split; [done|]. intros r Hr. destruct (E2 r Hr) as (s & -> & Hs & Hls).
    exists s. split_and!; [done..|]. simpl. lia.
  - unfold index. rewrite Hx. simpl. split; [done|]. done.
Qed.

Lemma Notebook_divUJi_labels (u : str) (J : list nat) (i : nat) :
  good_names sympify symbols X U (length J + 1) → u ∈ U →
  Notebook.divUJi symbols X U u J i = run (divUJi X U u J i).
Proof using HX HU Hnd.
  intros Hg Hu. unfold Notebook.divUJi, divUJi.
  rewrite (for_each_o_index
    (λ (f : option str) j, x ← run (index X j);
       Notebook.uJalpha symbols (py_str f) x X U) J (Some u)).
  rewrite (for_each_index
    (λ (f : option str) j, x ← index X j; uJalpha (py_str f) x X U) J (Some u)).
  pose proof (single_chars_elem U u HU Hu) as Lu.
  assert (Huc : u ∈ coords X U (length J + 1)).
  { apply elem_of_coords; [done..|]. by left. }
  destruct (Notebook_divUJi_loop (length J + 1) J u Hg Huc ltac:(lia)) as [E1 E2].
  rewrite E1.
  destruct (for_each _ J (Some u)) as [r|e] eqn:Ef; [|done]. simpl.
  destruct (E2 r eq_refl) as (s & -> & Hs & Hls).
  destruct (X !! i) as [x|] eqn:Hx.
  - assert (Hxin : x ∈ X) by by eapply list_elem_of_lookup_2.
    rewrite (index_lookup _ _ _ Hx). simpl.
    destruct (uJalpha_coords X U HX HU Hnd _ s x Hs Hxin) as (Eu & _ & _).
    rewrite Eu, (Notebook_uJalpha_coords (length J + 1) s x) by (done || lia).
    done.
  - unfold index. rewrite Hx. done.
Qed.

Lemma Notebook_first_loop (N : nat) (v : list expr) (q : nat) :
  good_names sympify symbols X U N → 1 ≤ N →
  for_each_o (λ a i,
      xi_i ← run (index (take (length X) v) i);
      Uq ← run (index U q);
      Xi ← run (index X i);
      r ← Notebook.uJalpha symbols Uq Xi X U;
      s ← run (operand r);
      Returns (Add a (Mul xi_i s))) (range (length X)) (Int 0)
  = run (for_each (λ a i,
      xi_i ← index (take (length X) v) i;
      Uq ← index U q;
      Xi ← index X i;
      r ← uJalpha Uq Xi X U;
      s ← operand r;
      Ok (Add a (Mul xi_i s))) (range (length X)) (Int 0)).
Proof using HX HU Hnd.
  intros Hg HN. apply for_each_o_run. intros a i _.
  destruct (index (take (length X) v) i) as [e|]; [|done]. simpl.
  destruct (U !! q) as [u|] eqn:Hu.
  2:{ unfold index. rewrite Hu. done. }
  rewrite (index_lookup _ _ _ Hu). simpl.
  destruct (X !! i) as [x|] eqn:Hx.
  2:{ unfold index. rewrite Hx. done. }
  rewrite (index_lookup _ _ _ Hx). simpl.
  assert (Huin : u ∈ U) by by eapply list_elem_of_lookup_2.
  assert (Hxin : x ∈ X) by by eapply list_elem_of_lookup_2.
  assert (Huc : u ∈ coords X U N).
  { apply elem_of_coords; [done..|]. by left. }
  pose proof (single_chars_elem U u HU Huin) as Lu.
  destruct (uJalpha_coords X U HX HU Hnd _ u x Huc Hxin) as (Eu & _ & _).
  rewrite Eu, (Notebook_uJalpha_coords N u x) by (done || lia).
  done.
Qed.

Lemma Notebook_second_loop (v : list expr) (J : list nat) (q : nat) :
  good_names sympify symbols X U (length J + 1) →
  for_each_o (λ b i,
      xi_i ← run (index (take (length X) v) i);
      Uq ← run (index U q);
      r ← Notebook.divUJi symbols X U Uq J i;
      s ← run (operand r);
      Returns (Add b (Mul xi_i s))) (range (length X)) (Int 0)
  = run (for_each (λ b i,
      xi_i ← index (take (length X) v) i;
      Uq ← index U q;
      r ← divUJi X U Uq J i;
      s ← operand r;
      Ok (Add b (Mul xi_i s))) (range (length X)) (Int 0)).
Proof using HX HU Hnd.
  intros Hg. apply for_each_o_run. intros b i _.
  destruct (index (take (length X) v) i) as [e|]; [|done]. simpl.
  destruct (U !! q) as [u|] eqn:Hu.
  2:{ unfold index. rewrite Hu. done. }
  rewrite (index_lookup _ _ _ Hu). simpl.
  assert (Huin : u ∈ U) by by eapply list_elem_of_lookup_2.
  rewrite Notebook_divUJi_labels by done.
  destruct (divUJi X U u J i) as [r|]; [|done]. simpl.
  by destruct (operand r).
Qed.

Lemma Notebook_phiAlpha_labels (v : list expr) (J : list nat) (q : nat) :
  good_names sympify symbols X U (length J + 1) →
  NotebookListing.phiAlpha symbols (Notebook.totDiv sympify symbols) X U v J q
  = run (Listing.phiAlpha totDiv X U v J q).
Proof using HX HU Hnd.
  intros Hg. unfold NotebookListing.phiAlpha, Listing.phiAlpha. cbv zeta.
  rewrite (Notebook_first_loop (length J + 1)) by (done || lia).
  destruct (for_each _ (range (length X)) (Int 0)) as [a|]; [|done]. simpl.
  rewrite Notebook_second_loop by done.
  destruct (for_each _ (range (length X)) (Int 0)) as [b|]; [|done]. simpl.
  destruct (index (drop (length X) v) q) as [e|]; [|done]. simpl.
  rewrite Notebook_TotDiv_listing by done.
  by destruct (Listing.TotDiv totDiv X U (Sub e a) (length J) J).
Qed.

End good_labels.

(** [Notebook.uJalpha] returns [None] exactly when its search finds
    nothing. *)
Lemma Notebook_uJalpha_search symbols (X U : list str) (u x : str) :
  Notebook.uJalpha symbols u x X U = Returns None
  ↔ ∀ s, s ∈ band X U (length u) → sorted (u ++ x) ≠ sorted s.
Proof.
  unfold Notebook.uJalpha. rewrite njet_band. simpl. split.
  - destruct (find _ _) as [r|] eqn:Hf.
    { destruct (Notebook.var symbols r); done. }
    intros _ s Hs E.
    eapply find_none in Hf; [|apply list_elem_of_In, Hs].
    by apply bool_decide_eq_false in Hf.
  - intros Hno.
    destruct (find _ _) as [r|] eqn:Hf; [|done].
    apply find_some in Hf as [Hr Hp%bool_decide_eq_true].
    destruct (Hno r); [by apply list_elem_of_In|done].
Qed.

(** *** [Prolong] with sympy's names *)

Lemma for_each_h_run {A} (bh : heap → A → heap * outcome unit)
    (b : heap → A → result heap) (l : list A) :
  (∀ h a h', a ∈ l → b h a = Ok h' → bh h a = (h', Returns ())) →
  ∀ h h', for_each b l h = Ok h' → for_each_h bh l h = (h', Returns ()).
Proof.
  induction l as [|a l IH]; intros H h h' E; simpl in *.
  { by injection E as <-. }
  destruct (b h a) as [h1|] eqn:E1; [|done]. simpl in E.
  rewrite (H h a h1) by (by left || done).
  apply IH; [|done]. intros. apply H; [by right|done].
Qed.

Lemma diffOrd_entry_order (p n i : nat) (L : list (list nat)) (w : list nat) :
  Listing.diffOrd p n !! i = Some L → w ∈ L → length w = i + 1 ∧ i < n.
Proof.
  unfold Listing.diffOrd, range2. change (map ?f ?l) with (f <$> l).
  rewrite list_lookup_fmap. intros H Hw.
  destruct (seq 1 _ !! i) as [k|] eqn:Ek; [|done]. simpl in H. injection H as <-.
  apply lookup_seq in Ek as [-> Hi]. apply elem_of_cwr in Hw as [Hl Hin]. lia.
Qed.

Section good_Prolong.
Context (sympify symbols : str → outcome str).
Context (X U : list str).
Context (HX : single_chars X) (HU : single_chars U) (Hnd : NoDup (X ++ U)).

Lemma Notebook_Prolong_labels (v n : nat) (h h' : heap) (r : nat) :
  good_names sympify symbols X U (n + 1) →
  Listing.Prolong totDiv X U v n h = Ok (r, h') →
  NotebookListing.Prolong symbols (Notebook.totDiv sympify symbols) X U v n h
  = (h', Returns r).
Proof using HX HU Hnd.
  intros Hg. unfold Listing.Prolong, NotebookListing.Prolong. cbv zeta.
  destruct (for_each _ (range n) h) as [h1|] eqn:E; [|done]. simpl.
  intros [= <- <-].
  erewrite for_each_h_run; [done| |exact E].
  intros h2 i h3 _. apply for_each_h_run.
  intros h4 j h5 _. apply for_each_h_run.
  intros h6 q h7 _.
  destruct (index (Listing.diffOrd (length X) n) i) as [Ji|] eqn:EJi; [|done].
  simpl. destruct (index Ji j) as [Jij|] eqn:EJij; [|done]. simpl.
  assert (HL : length Jij ≤ n).
  { unfold index in EJi, EJij.
    destruct (Listing.diffOrd (length X) n !! i) as [L|] eqn:HL; [|done].
    destruct (Ji !! j) as [w|] eqn:Hw; [|done].
    assert (L = Ji) as -> by congruence. assert (w = Jij) as -> by congruence.
    pose proof (diffOrd_entry_order _ _ _ _ _ HL (list_elem_of_lookup_2 _ _ _ Hw))
      as [HL1 HL2].
    lia. }
  rewrite (Notebook_phiAlpha_labels sympify symbols X U HX HU Hnd).
  2:{ apply (good_names_le sympify symbols X U HX HU Hnd (n + 1)); [lia|done]. }
  destruct (Listing.phiAlpha totDiv X U (contents h6 v) Jij q) as [c|]; [|done].
  simpl. by intros [= <-].
Qed.

End good_Prolong.

(** *** The listing as it stands *)










(** ** The notebook's examples *)

Example jet_cell5 :
  jet [x_; y_] [u_; v_] = [py "ux"; py "uy"; py "vx"; py "vy"].
Proof. reflexivity. Qed.

Example njet_cell9 :
  njet [x_; y_] [u_; v_] 2
  = Ok [py "uxx"; py "uxy"; py "uyy"; py "vxx"; py "vxy"; py "vyy"].
Proof. vm_compute. reflexivity. Qed.

Example fulljet_cell13 :
  fulljet [x_; y_] [u_; v_] 2
  = Ok [x_; y_; u_; v_; py "ux"; py "uy"; py "vx"; py "vy";
        py "uxx"; py "uxy"; py "uyy"; py "vxx"; py "vxy"; py "vyy"].
Proof. vm_compute. reflexivity. Qed.

Example uJalpha_cell17 :
  uJalpha (py "uy") x_ [x_; y_] [u_] = Ok (Some (py "uxy")).
Proof. vm_compute. reflexivity. Qed.

Example divUJi_cell22 :
  divUJi [x_; y_] [u_] u_ [1; 0] 1 = Ok (Some (py "uxyy")).
Proof. vm_compute. reflexivity. Qed.

Example diffOrd_2_2 :
  Listing.diffOrd 2 2 = [[[0]; [1]]; [[0; 0]; [0; 1]; [1; 1]]].
Proof. reflexivity. Qed.

(** With sympy's names: a dependent variable called [E] stops [totDiv] at
    [diff(P,'E')]; [var('')] stops the resolver; and over the labels [e],
    [t] and [j] the second-order symbol is called [jet], the name of a
    function of the notebook. *)
Example totDiv_label_E :
  Notebook.totDiv sympify_E symbols_nonempty [x_] [py "E"] (Sym x_) 0 1
  = Raises ValueError.
Proof. vm_compute. reflexivity. Qed.

Example uJalpha_empty_symbol :
  Notebook.uJalpha symbols_nonempty [] [] [x_] [[]] = Raises ValueError.
Proof. vm_compute. reflexivity. Qed.

Example divUJi_symbol_jet :
  Notebook.divUJi symbols_nonempty [py "e"; py "t"] [py "j"] (py "j") [0] 1
  = Beyond.
Proof. vm_compute. reflexivity. Qed.

Example Prolong_listing_NameError :
  NotebookListing.Prolong symbols_nonempty (NotebookListing.totDiv sympify_E)
    [x_] [u_] 0 1 {[0 := [Int 1; Int 0]]}
  = ({[0 := [Int 1; Int 0]]}, Raises NameError).
Proof. vm_compute. reflexivity. Qed.

(** ** The properties *)

(** C1.  [Prolong(X,U,v,n)] is claimed to append one coefficient for every
    dependent variable and every multi-index of orders 1 to [n], that is
    [q * C(p+k-1,k)] coefficients at order [k].  Take [X = ['x','y']],
    [U = ['u']], [v = [1,0,0]] and [n = 2], where the count asks for
    [2 + 3 = 5].  As the listing stands the call raises [NameError] in
    [totDiv].  With [totDiv] as cell 24 defines it the call returns [v]
    followed by four coefficients, those of the multi-indices [(0)], [(1)],
    [(0,0)] and [(0,1)]: [diffOrd] lists three multi-indices of order 2,
    the loop over [range(len(X))] reads the first two, and [(1,1)] gets no
    coefficient. *)
Theorem Prolong_order_2_coefficients :
  let X := [x_; y_] in
  let U := [u_] in
  let v := [Int 1; Int 0; Int 0] in
  Listing.Prolong Listing.totDiv X U 0 2 {[0 := v]} = Raise NameError
  ∧ ∃ r h c1 c2 c3 c4,
    Listing.Prolong totDiv X U 0 2 {[0 := v]} = Ok (r, h)
    ∧ contents h r = v ++ [c1; c2; c3; c4]
    ∧ Listing.phiAlpha totDiv X U v [0] 0 = Ok c1
    ∧ Listing.phiAlpha totDiv X U v [1] 0 = Ok c2
    ∧ Listing.phiAlpha totDiv X U v [0; 0] 0 = Ok c3
    ∧ Listing.phiAlpha totDiv X U v [0; 1] 0 = Ok c4
    ∧ Listing.diffOrd (length X) 2 = [[[0]; [1]]; [[0; 0]; [0; 1]; [1; 1]]]
    ∧ length U * (binom (2 + 1 - 1) 1 + binom (2 + 2 - 1) 2) = 5.
Proof.
  cbv zeta. split; [vm_compute; reflexivity|].
  eexists _, _, _, _, _, _. split_and!.
  - vm_compute. reflexivity.
  - vm_compute. reflexivity.
  - vm_compute. reflexivity.
  - vm_compute. reflexivity.
  - vm_compute. reflexivity.
  - vm_compute. reflexivity.
  - reflexivity.
  - reflexivity.
Qed.

(** C2.  Over [p >= 1] distinct single-character independent-variable
    labels and one dependent-variable label, [njet] at order [k] returns
    exactly [C(p+k-1,k)] symbols, all different; for [p = 2] and [k = 2]
    they are [uxx], [uxy], [uyy]. *)
Theorem njet_band_size :
  (∀ (X : list str) (u : str) (k : nat),
      1 ≤ length X → single_chars X → NoDup X →
      ∃ R, njet X [u] k = Ok R ∧ NoDup R
         ∧ length R = binom (length X + k - 1) k)
  ∧ njet [x_; y_] [u_] 2 = Ok [py "uxx"; py "uxy"; py "uyy"].
Proof.
  split.
  - intros X u k _ HX Hnd. by apply njet_one_dependent.
  - vm_compute. reflexivity.
Qed.

Lemma njet_band_size_witness :
  ∃ R, njet [x_; y_; z_] [u_] 3 = Ok R ∧ NoDup R
     ∧ length R = binom (length [x_; y_; z_] + 3 - 1) 3.
Proof.
  apply (proj1 njet_band_size [x_; y_; z_] u_ 3).
  - simpl. lia.
  - repeat constructor.
  - compute_done.
Defined.

(** C3.  For [X = ['x']], [U = ['u']] and the translation [v = [1,0]],
    [Prolong(X,U,v,2)] is claimed to yield two coefficients algebraically
    equal to 0.  As the listing stands the call raises [NameError]: its
    [totDiv] calls [fullJet].  With [totDiv] as cell 24 defines it the call
    returns [v] followed by two coefficients, both algebraically equal
    to 0. *)
Theorem Prolong_translation :
  Listing.Prolong Listing.totDiv [x_] [u_] 0 2 {[0 := [Int 1; Int 0]]}
  = Raise NameError
  ∧ ∃ r h c1 c2,
    Listing.Prolong totDiv [x_] [u_] 0 2 {[0 := [Int 1; Int 0]]} = Ok (r, h)
    ∧ contents h r = [Int 1; Int 0; c1; c2]
    ∧ aeq c1 (Int 0) ∧ aeq c2 (Int 0).
Proof.
  split; [vm_compute; reflexivity|].
  eexists _, _, _, _. split_and!.
  - vm_compute. reflexivity.
  - vm_compute. reflexivity.
  - intros ι. simpl. ring.
  - intros ι. simpl. ring.
Qed.

(** C4.  [totDiv(['x','y'],['u'],'x*u*uxy',0,2)] returns an expression
    algebraically equal to [u*uxxy*x + u*uxy + ux*uxy*x]. *)
Theorem totDiv_cell26 :
  ∃ e,
    totDiv [x_; y_] [u_] (Mul (Mul (Sym x_) (Sym u_)) (Sym (py "uxy"))) 0 2
    = Ok e
    ∧ aeq e (Add (Add (Mul (Mul (Sym u_) (Sym (py "uxxy"))) (Sym x_))
                      (Mul (Sym u_) (Sym (py "uxy"))))
                 (Mul (Mul (Sym (py "ux")) (Sym (py "uxy"))) (Sym x_))).
Proof.
  eexists. split.
  - vm_compute. reflexivity.
  - intros ι. cbv [x_ u_ py list_ascii_of_string]. simpl. ring.
Qed.

(** C5.  Over distinct single-character labels with at least two
    independent variables, when sympy reads the labels and the symbols up
    to order 4 as symbols of their own names and none of them is a name
    the notebook uses, for every expression [P] the composed total
    derivatives [TotDiv(X,U,P,[0,1])] and [TotDiv(X,U,P,[1,0])] both
    return, and return algebraically equal expressions. *)
Theorem TotDiv_commutes (sympify symbols : str → outcome str)
    (X U : list str) (P : expr) :
  single_chars X → single_chars U → NoDup (X ++ U) → 2 ≤ length X →
  good_names sympify symbols X U 4 →
  ∃ e1 e2,
    Notebook.TotDiv sympify symbols X U P [0; 1] = Returns e1
    ∧ Notebook.TotDiv sympify symbols X U P [1; 0] = Returns e2
    ∧ aeq e1 e2.
Proof.
  intros HX HU Hnd Hlen Hg.
  destruct X as [|x0 [|x1 X']]; [simpl in Hlen; lia..|].
  eexists _, _. split_and!.
  - rewrite (Notebook_TotDiv_labels sympify symbols _ U HX HU Hnd) by done.
    change (TotDiv ?X ?U ?P ?J) with (Listing.TotDiv totDiv X U P (length J + 1) J).
    by rewrite (TotDiv_listing_pair _ U P _ 0 1 x0 x1).
  - rewrite (Notebook_TotDiv_labels sympify symbols _ U HX HU Hnd) by done.
    change (TotDiv ?X ?U ?P ?J) with (Listing.TotDiv totDiv X U P (length J + 1) J).
    by rewrite (TotDiv_listing_pair _ U P _ 1 0 x1 x0).
  - intros ι. apply chain_comm; [done..| |].
    + by left.
    + right. by left.
Qed.

Lemma TotDiv_commutes_witness :
  ∃ e1 e2,
    Notebook.TotDiv sympify_E symbols_nonempty [x_; y_] [u_]
      (Mul (Mul (Sym x_) (Sym u_)) (Sym (py "uxy"))) [0; 1] = Returns e1
    ∧ Notebook.TotDiv sympify_E symbols_nonempty [x_; y_] [u_]
        (Mul (Mul (Sym x_) (Sym u_)) (Sym (py "uxy"))) [1; 0] = Returns e2
    ∧ aeq e1 e2.
Proof.
  apply (TotDiv_commutes sympify_E symbols_nonempty [x_; y_] [u_]).
  - repeat constructor.
  - repeat constructor.
  - compute_done.
  - simpl. lia.
  - compute_done.
Defined.

(** C6.  For a non-empty [J], [TotDiv(X,U,P,J)] applies [totDiv] once per
    entry of [J], left to right in the order given, each call with ceiling
    [len(J)+1]. *)
Theorem TotDiv_left_to_right (X U : list str) (P : expr) (j : nat) (J : list nat) :
  TotDiv X U P (j :: J)
  = for_each (λ e i, totDiv X U e i (length (j :: J) + 1)) (j :: J) P.
Proof.
  unfold TotDiv. change (index (j :: J) 0) with (Ok j).
  rewrite bind_Ok. cbn [for_each].
  destruct (totDiv X U P j _) as [e|err]; [|done]. rewrite !bind_Ok.
  unfold range2. replace (length (j :: J) - 1) with (length J) by (simpl; lia).
  apply (for_each_index_from (λ e i, totDiv X U e i (length (j :: J) + 1)) [j] J).
Qed.

(** C7 (as stated).  The total derivative is claimed to add a term only
    for the symbols of orders 1 to [n].  For [X = ['x']], [U = ['u']],
    [P = u] and ceiling 1 that sum is 0, while [totDiv] returns an
    expression worth [ux]: the dependent variable [u] contributes
    [diff(u,u)*ux]. *)
Lemma totDiv_counts_dependent_variables :
  ∃ e ι,
    totDiv [x_] [u_] (Sym u_) 0 1 = Ok e
    ∧ eval ι e = 1%Z
    ∧ eval ι (totDiv_orders_1_to_n [x_] [u_] (Sym u_) x_ 1) = 0%Z.
Proof.
  eexists _, (Interp (λ _, 1%Z) (λ _ _ z, z)). split_and!.
  - vm_compute. reflexivity.
  - vm_compute. reflexivity.
  - vm_compute. reflexivity.
Qed.

(** C7 (amended).  When [X[i]] exists, no label of [U] is empty (an empty
    symbol would have [njet] deduplicate [U] in place), sympy reads [X[i]]
    and every coordinate as the symbol of that name and [uJalpha] returns
    the symbol it finds for every coordinate, [totDiv(X,U,P,i,n)] returns
    [diff(P,X[i])] plus one term [diff(P,s) * uJalpha(s,X[i])] for every
    [s] among the dependent variables [U] and the symbols of orders 1 to
    [n] that is not a label of [X], added in that order, and no other
    term. *)
Theorem totDiv_chain_rule (sympify symbols : str → outcome str)
    (X U : list str) (P : expr) (i n : nat) (x : str) :
  X !! i = Some x →
  [] ∉ U →
  sympify x = Returns x →
  Forall (λ s, sympify s = Returns s
               ∧ Notebook.uJalpha symbols s x X U
                 = Returns (Some (resolved X U s x))) (coords X U n) →
  Notebook.totDiv sympify symbols X U P i n
  = Returns (chain_sum X U (coords X U n) P x).
Proof.
  intros Hx _ Ex Hall.
  assert (Hres : Forall (λ s, uJalpha s x X U ≠ Ok None) (coords X U n)).
  { eapply Forall_impl; [exact Hall|]. intros s [_ E] E'.
    by rewrite (Notebook_uJalpha_None symbols _ _ _ _ E') in E. }
  rewrite (Notebook_totDiv_run sympify symbols X U P i n x Hx Ex).
  - rewrite (totDiv_coords X U P i n x Hx).
    by rewrite (for_each_resolved X U P x _ Hres).
  - eapply Forall_impl; [exact Hall|]. intros s [E1 E2]. split; [done|by right].
Qed.

Lemma totDiv_chain_rule_witness :
  Notebook.totDiv sympify_E symbols_nonempty [x_; y_] [u_]
    (Mul (Mul (Sym x_) (Sym u_)) (Sym (py "uxy"))) 0 2
  = Returns (chain_sum [x_; y_] [u_] (coords [x_; y_] [u_] 2)
               (Mul (Mul (Sym x_) (Sym u_)) (Sym (py "uxy"))) x_).
Proof.
  apply (totDiv_chain_rule sympify_E symbols_nonempty [x_; y_] [u_] _ 0 2 x_).
  - reflexivity.
  - compute_done.
  - reflexivity.
  - compute_done.
Defined.

(** C8 (as stated).  [uJalpha] is claimed to fail with an error when no
    symbol of the jet space it builds has the characters of the input
    symbol plus the new label.  For the symbol [u] and the label [z] over
    [X = ['x']], [U = ['u']] the only symbol built is [ux], it does not
    match, and the call returns [None]. *)
Lemma uJalpha_unmatched_returns_None :
  Notebook.uJalpha symbols_nonempty u_ z_ [x_] [u_] = Returns None
  ∧ uJalpha u_ z_ [x_] [u_] = Ok None
  ∧ njet [x_] [u_] (length u_) = Ok [py "ux"]
  ∧ sorted (u_ ++ z_) ≠ sorted (py "ux").
Proof.
  split_and!.
  - vm_compute. reflexivity.
  - vm_compute. reflexivity.
  - vm_compute. reflexivity.
  - vm_compute. discriminate.
Qed.

(** C8 (amended).  When no symbol of [njet(X,U,len(str(u_div)))] has the
    sorted characters of [str(u_div)+str(x_var)],
    [uJalpha(u_div,x_var,X,U)] returns [None]; and it returns [None] in
    that case only. *)
Theorem uJalpha_None (symbols : str → outcome str) (X U : list str)
    (u_div x_var : str) :
  ∃ J, njet X U (length u_div) = Ok J
     ∧ (Notebook.uJalpha symbols u_div x_var X U = Returns None
        ↔ ∀ s, s ∈ J → sorted (u_div ++ x_var) ≠ sorted s).
Proof.
  exists (band X U (length u_div)). split; [apply njet_band|].
  apply Notebook_uJalpha_search.
Qed.



(** C10.  [uJalpha(u_div,x_var,X,U)] searches [njet(X,U,len(str(u_div)))]:
    it returns [None] exactly when no symbol of that list has the sorted
    characters of [str(u_div)+str(x_var)], and a symbol it returns is
    [var] of a symbol of that list with these characters.  Over
    single-character labels every symbol of order [m] is [m+1] characters
    long, so the order searched is the next one; the texts of the symbols
    have these lengths at every order only when all labels are single
    characters; and for [U = ['uu']], [X = ['x']] the call on the
    dependent variable [uu] searches order 2 and returns [None], although
    the order-1 symbol [uux] has the characters asked for. *)
Theorem uJalpha_search_order :
  (∀ (symbols : str → outcome str) (X U : list str) (u_div x_var : str),
      ∃ J, njet X U (length u_div) = Ok J
         ∧ (Notebook.uJalpha symbols u_div x_var X U = Returns None
            ↔ ∀ s, s ∈ J → sorted (u_div ++ x_var) ≠ sorted s)
         ∧ (∀ r, Notebook.uJalpha symbols u_div x_var X U = Returns (Some r) →
                 ∃ s, s ∈ J ∧ sorted (u_div ++ x_var) = sorted s
                      ∧ symbols s = Returns r)
         ∧ (Forall (λ t, symbols t = Returns t ∧ t ∉ notebook_names) J →
            Exists (λ s, sorted (u_div ++ x_var) = sorted s) J →
            ∃ r, r ∈ J ∧ sorted (u_div ++ x_var) = sorted r
                 ∧ Notebook.uJalpha symbols u_div x_var X U
                   = Returns (Some r)))
  ∧ (∀ (X U : list str) (m : nat) (R : list str) (s : str),
      single_chars X → single_chars U →
      njet X U m = Ok R → s ∈ R → length s = m + 1)
  ∧ (∀ X U : list str,
      U ≠ [] →
      (∀ m s, s ∈ Nat.iter m (jet X) U → length s = m + 1) →
      single_chars X ∧ single_chars U)
  ∧ (∀ symbols : str → outcome str,
      njet [x_] [py "uu"] 0 = Ok [py "uu"]
      ∧ Notebook.uJalpha symbols (py "uu") x_ [x_] [py "uu"] = Returns None
      ∧ njet [x_] [py "uu"] (length (py "uu")) = Ok [py "uuxx"]
      ∧ njet [x_] [py "uu"] 1 = Ok [py "uux"]
      ∧ sorted (py "uu" ++ x_) = sorted (py "uux")).
Proof.
  split_and!.
  - intros symbols X U u x. exists (band X U (length u)).
    split_and!; [apply njet_band|apply Notebook_uJalpha_search| |].
    + intros r. unfold Notebook.uJalpha. rewrite njet_band. simpl.
      destruct (find _ _) as [s|] eqn:Hf; [|done].
      apply find_some in Hf as [Hin Hp%bool_decide_eq_true]. intros E.
      exists s. split_and!; [by apply list_elem_of_In|done|].
      unfold Notebook.var in E. destruct (symbols s) as [s'| |]; [|done..].
      simpl in E. destruct (decide (s' ∈ notebook_names)); [done|].
      by injection E as <-.
    + intros Hall (s & Hs & E)%Exists_exists.
      unfold Notebook.uJalpha. rewrite njet_band. simpl.
      destruct (find _ _) as [s'|] eqn:Hf.
      * apply find_some in Hf as [Hin Hp%bool_decide_eq_true].
        apply list_elem_of_In in Hin. rewrite Forall_forall in Hall.
        destruct (Hall s' Hin) as [E1 E2]. unfold Notebook.var. rewrite E1. simpl.
        rewrite decide_False by done. by exists s'.
      * exfalso. eapply find_none in Hf; [|apply list_elem_of_In, Hs].
        by apply bool_decide_eq_false in Hf.
  - intros X U m R s HX HU HR Hs. apply (band_length X U HX HU m).
    unfold band. by rewrite HR.
  - intros X U HU Hlen.
    assert (HU' : single_chars U).
    { apply Forall_forall. intros u Hu. apply (Hlen 0 u Hu). }
    split; [|done]. apply Forall_forall. intros x Hx.
    destruct U as [|u U]; [done|].
    assert (length (u ++ x) = 1 + 1) as E.
    { apply (Hlen 1). change (Nat.iter 1 (jet X) (u :: U)) with (jet X (u :: U)).
      apply elem_of_jet. exists u, x. split_and!; [by left|done..]. }
    rewrite length_app, (single_chars_elem _ u HU') in E; [lia|by left].
  - intros symbols. split_and!; vm_compute; reflexivity.
Qed.

Lemma uJalpha_search_order_witness :
  (∃ r, Notebook.uJalpha symbols_nonempty (py "uy") x_ [x_; y_] [u_]
        = Returns (Some r))
  ∧ length (py "uxy") = 2 + 1.
Proof.
  split.
  - destruct (proj1 uJalpha_search_order symbols_nonempty [x_; y_] [u_]
                (py "uy") x_) as (J & HJ & _ & _ & H).
    vm_compute in HJ. injection HJ as <-.
    destruct H as (r & _ & _ & E); [compute_done|compute_done|].
    by exists r.
  - apply (proj1 (proj2 uJalpha_search_order) [x_; y_] [u_] 2
             [py "uxx"; py "uxy"; py "uyy"] (py "uxy")).
    + repeat constructor.
    + repeat constructor.
    + vm_compute. reflexivity.
    + compute_done.
Defined.

(** ** Further properties *)

Lemma for_each_measure {St A} (body : St → A → result St) (μ : St → nat)
    (k : nat) (l : list A) :
  (∀ s a s', body s a = Ok s' → μ s' = μ s + k) →
  ∀ s s', for_each body l s = Ok s' → μ s' = μ s + k * length l.
Proof.
  intros Hbody. induction l as [|a l IH]; intros s s'; simpl.
  - intros [= ->]. lia.
  - destruct (body s a) as [s1|e] eqn:E; simpl; [|done].
    intros H%IH. apply Hbody in E. lia.
Qed.

Lemma contents_append (h : heap) (r : nat) (c : expr) :
  contents (append h r c) r = contents h r ++ [c].
Proof. unfold append, contents at 1. by rewrite lookup_insert_eq. Qed.

(** Whenever [Prolong(X,U,v,n)] returns, with whatever function the name
    [totDiv] is bound to, the reference returned is [v] and the list behind
    it has grown by [n*len(X)*len(U)] components (no label of [U] being
    empty, so that no call deduplicates [U] in place). *)
Theorem Prolong_length (D : list str → list str → expr → nat → nat → result expr)
    (X U : list str) (v n : nat) (h h' : heap) (r : nat) :
  [] ∉ U →
  Listing.Prolong D X U v n h = Ok (r, h') →
  r = v
  ∧ length (contents h' v) = length (contents h v) + n * (length X * length U).
Proof.
  intros _. unfold Listing.Prolong.
  destruct (for_each _ (range n) h) as [h1|e] eqn:E; simpl; [|done].
  intros [= <- <-]. split; [done|].
  apply (for_each_measure _ (λ h, length (contents h v)) (length X * length U)) in E.
  { unfold range in E. rewrite length_seq in E. lia. }
  clear. intros s i s' E.
  apply (for_each_measure _ (λ h, length (contents h v)) (length U)) in E.
  { unfold range in E. rewrite length_seq in E. lia. }
  clear. intros s j s' E.
  apply (for_each_measure _ (λ h, length (contents h v)) 1) in E.
  { unfold range in E. rewrite length_seq in E. lia. }
  clear. intros s q s'.
  destruct (index _ i) as [Ji|]; simpl; [|done].
  destruct (index Ji j) as [Jij|]; simpl; [|done].
  destruct (Listing.phiAlpha D X U _ Jij q) as [c|]; simpl; [|done].
  intros [= <-]. rewrite contents_append, length_app. simpl. lia.
Qed.

Lemma Prolong_length_witness :
  ∃ r h,
    Listing.Prolong totDiv [x_; y_] [u_] 0 2 {[0 := [Int 1; Int 0; Int 0]]}
    = Ok (r, h)
    ∧ r = 0
    ∧ length (contents h 0)
      = length (contents ({[0 := [Int 1; Int 0; Int 0]]} : heap) 0)
        + 2 * (length [x_; y_] * length [u_]).
Proof.
  eexists _, _. split.
  - vm_compute. reflexivity.
  - eapply (Prolong_length totDiv [x_; y_] [u_] 0 2).
    + compute_done.
    + vm_compute. reflexivity.
Defined.

(** [njet(X,U,n)] never raises, and what it returns is an order-preserving
    selection of the symbols [jet] generated. *)
Theorem njet_returns (X U : list str) (n : nat) :
  ∃ R, njet X U n = Ok R ∧ R `sublist_of` Nat.iter n (jet X) U.
Proof. apply njet_ok. Qed.

(** The list of order-[k] multi-indices in [diffOrd(p,n)], for
    [1 <= k <= n], has [C(p+k-1,k)] entries. *)
Theorem diffOrd_sizes (p n k : nat) :
  1 ≤ k ≤ n →
  ∃ L, Listing.diffOrd p n !! (k - 1) = Some L
     ∧ length L = binom (p + k - 1) k.
Proof.
  intros Hk. unfold Listing.diffOrd, range2.
  exists (Listing.combinations_with_replacement k (range p)). split.
  - rewrite list_lookup_fmap. rewrite lookup_seq_lt by lia.
    replace (1 + (k - 1)) with k by lia. reflexivity.
  - rewrite cwr_length. unfold range. by rewrite length_seq.
Qed.

Lemma diffOrd_sizes_witness :
  ∃ L, Listing.diffOrd 3 3 !! (2 - 1) = Some L
     ∧ length L = binom (3 + 2 - 1) 2.
Proof. apply (diffOrd_sizes 3 3 2). lia. Defined.


(** *** The size of the jet space *)

Lemma length_bind_const {A B} (f : A → list B) (m : nat) (l : list A) :
  (∀ a, a ∈ l → length (f a) = m) → length (l ≫= f) = length l * m.
Proof.
  induction l as [|a l IH]; intros H; [done|].
  rewrite bind_cons, length_app, (H a) by by left. simpl.
  rewrite IH; [lia|]. intros b Hb. apply H. by right.
Qed.

Section labels_size.
Context (X U : list str).
Context (HX : single_chars X) (HU : single_chars U) (Hnd : NoDup (X ++ U)).

(** The characters of a symbol determine its dependent variable and, up to
    order, its independent variables. *)
Lemma symbol_chars (u u' : str) (ws ws' : list str) :
  u ∈ U → u' ∈ U → (∀ x, x ∈ ws → x ∈ X) → (∀ x, x ∈ ws' → x ∈ X) →
  sorted (u ++ concat ws) = sorted (u' ++ concat ws') →
  u = u' ∧ ws ≡ₚ ws'.
Proof using HX HU Hnd.
  intros Hu Hu' Hws Hws' E%sorted_Permutation.
  pose proof (single_chars_elem U u HU Hu) as Lu.
  pose proof (single_chars_elem U u' HU Hu') as Lu'.
  destruct u as [|a [|??]]; try done. destruct u' as [|a' [|??]]; try done.
  simpl in E.
  pose proof (single_chars_incl X ws HX Hws) as Hws1.
  pose proof (single_chars_incl X ws' HX Hws') as Hws1'.
  assert (Ha : a = a').
  { assert (Hin : a ∈ a' :: concat ws') by (rewrite <- E; by left).
    apply elem_of_cons in Hin as [?|Hin]; [done|]. exfalso.
    rewrite (single_chars_concat ws' Hws1') in Hws'.
    apply NoDup_app in Hnd as (_ & Hd & _). apply (Hd [a]); [|done].
    apply Hws'. apply list_elem_of_fmap. by exists a. }
  subst a'. split; [done|].
  apply Permutation_cons_inv in E.
  by apply single_chars_Permutation.
Qed.

Lemma iter_jet_last_unique_U (k : nat) C z y :
  Nat.iter k (jet X) U = C ++ [z] → y ∈ C → sorted y ≠ sorted z.
Proof using HX HU Hnd.
  intros HL Hy E.
  assert (HndL : NoDup (C ++ [z])).
  { rewrite <- HL. apply NoDup_iter_jet; [done|..].
    - by apply NoDup_app in Hnd as (? & _ & _).
    - by apply NoDup_app in Hnd as (_ & _ & ?). }
  assert (Hyz : y ≠ z).
  { intros ->. apply NoDup_app in HndL as (_ & HndL & _). apply (HndL z Hy). by left. }
  assert (Hy' : y ∈ Nat.iter k (jet X) U) by (rewrite HL; apply elem_of_app; by left).
  assert (Hz' : z ∈ Nat.iter k (jet X) U) by (rewrite HL; apply elem_of_app; right; by left).
  apply elem_of_iter_jet in Hy' as (u & ws & Hu & Hl & Hws & ->).
  apply elem_of_iter_jet in Hz' as (u' & ws' & Hu' & Hl' & Hws' & ->).
  destruct (symbol_chars u u' ws ws' Hu Hu' Hws Hws' E) as [-> Hp].
  destruct U as [|ul U0 _] using rev_ind; [by inversion Hu'|].
  destruct X as [|c X0 _] using rev_ind.
  { destruct ws as [|w ws]; [|specialize (Hws w ltac:(by left)); by inversion Hws].
    destruct ws' as [|w ws']; [|specialize (Hws' w ltac:(by left)); by inversion Hws'].
    done. }
  destruct (iter_jet_last X0 U0 c ul k) as [C' HL'].
  rewrite HL' in HL. apply app_inj_tail in HL as [_ HL].
  assert (Hc : length c = 1).
  { apply (single_chars_elem _ _ HX), elem_of_app. right. by left. }
  assert (Hul : length ul = 1).
  { apply (single_chars_elem _ _ HU), elem_of_app. right. by left. }
  assert (Hu1 : length u' = 1) by by apply (single_chars_elem _ _ HU).
  apply app_inj_1 in HL as [_ HL]; [|lia].
  assert (Hrep : ws' = replicate k c).
  { rewrite (single_chars_concat ws' (single_chars_incl _ ws' HX Hws')), <- HL.
    destruct c as [|a [|??]]; try done. clear.
    induction k as [|k IHk]; simpl; [done|]. f_equal. exact IHk. }
  subst ws'. symmetry in Hp. apply replicate_Permutation in Hp. subst ws.
  done.
Qed.

Lemma njet_size_labels (k : nat) :
  ∃ R, njet X U k = Ok R ∧ NoDup R
     ∧ length R = length U * binom (length X + k - 1) k.
Proof using HX HU Hnd.
  assert (HndX : NoDup X) by by apply NoDup_app in Hnd as (? & _ & _).
  assert (HndU : NoDup U) by by apply NoDup_app in Hnd as (_ & _ & ?).
  assert (HndL : NoDup (Nat.iter k (jet X) U)) by by apply NoDup_iter_jet.
  destruct (njet_dedup_NoDup _ HndL) as (R & HR & Hsub & Hcov & Hkeys).
  exists R. split_and!; [done|by eapply sublist_NoDup|].
  specialize (Hkeys (iter_jet_last_unique_U k)).
  set (keys := U ≫= (λ u, (λ ws, sorted (u ++ concat ws))
                            <$> Listing.combinations_with_replacement k X)).
  assert (Hlen : length keys = length U * binom (length X + k - 1) k).
  { apply length_bind_const. intros u _. by rewrite length_fmap, cwr_length. }
  rewrite <- Hlen, <- (length_fmap sorted R).
  apply Permutation_length, NoDup_Permutation; [done| |].
  - apply NoDup_bind; [| |done].
    + intros u u' key Hu Hu' (ws & -> & Hws)%list_elem_of_fmap
        (ws' & E & Hws')%list_elem_of_fmap.
      eapply symbol_chars; [done..| | |exact E].
      * apply (elem_of_cwr _ _ _ Hws).
      * apply (elem_of_cwr _ _ _ Hws').
    + intros u Hu. apply NoDup_fmap_2_strong; [|by apply cwr_NoDup].
      intros ws ws' Hws Hws' E.
      apply (cwr_unique k X ws ws' HndX Hws Hws').
      eapply symbol_chars; [exact Hu|exact Hu| | |exact E].
      * apply (elem_of_cwr _ _ _ Hws).
      * apply (elem_of_cwr _ _ _ Hws').
  - intros key. unfold keys. rewrite list_elem_of_fmap, list_elem_of_bind. split.
    + intros (r & -> & Hr).
      assert (Hr' : r ∈ Nat.iter k (jet X) U) by by eapply elem_of_sublist.
      apply elem_of_iter_jet in Hr' as (u & ws & Hu & Hl & Hws & ->).
      destruct (cwr_complete k X ws Hl Hws) as (ws' & Hws' & Hp).
      exists u. split; [|done]. apply list_elem_of_fmap. exists ws'. split; [|done].
      apply sorted_Permutation. by rewrite Hp.
    + intros (u & (ws & -> & Hws)%list_elem_of_fmap & Hu).
      apply elem_of_cwr in Hws as [Hl Hws].
      destruct (Hcov (u ++ concat ws)) as (r & Hr & E).
      { apply elem_of_iter_jet. by exists u, ws. }
      by exists r.
Qed.

End labels_size.

Lemma length_concat_sum {A} (ls : list (list A)) :
  length (concat ls) = sum_list (length <$> ls).
Proof. induction ls as [|l ls IH]; simpl; [done|]. by rewrite length_app, IH. Qed.

(** Over distinct single-character labels, [njet(X,U,k)] returns
    [q * C(p+k-1,k)] symbols, all different. *)
Theorem njet_size (X U : list str) (k : nat) :
  single_chars X → single_chars U → NoDup (X ++ U) →
  ∃ R, njet X U k = Ok R ∧ NoDup R
     ∧ length R = length U * binom (length X + k - 1) k.
Proof. intros. by apply njet_size_labels. Qed.

Lemma njet_size_witness :
  ∃ R, njet [x_; y_] [u_; v_] 2 = Ok R ∧ NoDup R
     ∧ length R = length [u_; v_] * binom (length [x_; y_] + 2 - 1) 2.
Proof.
  apply (njet_size [x_; y_] [u_; v_] 2).
  - repeat constructor.
  - repeat constructor.
  - compute_done.
Defined.

(** Over distinct single-character labels, [fulljet(X,U,n)] returns
    [p + q + q * (C(p,1) + ... + C(p+n-1,n))] symbols. *)
Theorem fulljet_size (X U : list str) (n : nat) :
  single_chars X → single_chars U → NoDup (X ++ U) →
  ∃ F, fulljet X U n = Ok F
     ∧ length F = length X + length U
         + sum_list ((λ k, length U * binom (length X + k - 1) k) <$> seq 1 n).
Proof.
  intros HX HU Hnd. exists (X ++ U ++ bands X U n).
  split; [apply fulljet_bands|].
  rewrite !length_app. unfold bands. rewrite length_concat_sum, <- list_fmap_compose.
  rewrite Nat.add_assoc. f_equal. f_equal.
  apply list_fmap_ext. intros _ k _. simpl.
  destruct (njet_size_labels X U HX HU Hnd k) as (R & HR & _ & Hlen).
  unfold band. by rewrite HR.
Qed.

Lemma fulljet_size_witness :
  ∃ F, fulljet [x_; y_] [u_; v_] 2 = Ok F
     ∧ length F = length [x_; y_] + length [u_; v_]
         + sum_list ((λ k, length [u_; v_] * binom (length [x_; y_] + k - 1) k)
                       <$> seq 1 2).
Proof.
  apply (fulljet_size [x_; y_] [u_; v_] 2).
  - repeat constructor.
  - repeat constructor.
  - compute_done.
Defined.

(** For a non-empty [J], the listing's [TotDiv(X,U,P,n,J)] applies the
    function bound to [totDiv] once per entry of [J], left to right in the
    order given, each call with the ceiling [n] it was given. *)
Theorem TotDiv_listing_left_to_right
    (D : list str → list str → expr → nat → nat → result expr)
    (X U : list str) (P : expr) (n j : nat) (J : list nat) :
  Listing.TotDiv D X U P n (j :: J)
  = for_each (λ e i, D X U e i n) (j :: J) P.
Proof.
  unfold Listing.TotDiv. change (index (j :: J) 0) with (Ok j).
  rewrite bind_Ok. cbn [for_each].
  destruct (D X U P j n) as [e|err]; [|done]. rewrite !bind_Ok.
  unfold range2. replace (length (j :: J) - 1) with (length J) by (simpl; lia).
  apply (for_each_index_from (λ e i, D X U e i n) [j] J).
Qed.

(** A label listed twice breaks the count: the repeated symbol is kept. *)
Example njet_repeated_label :
  njet [x_; x_] [u_] 2 = Ok [py "uxx"; py "uxx"] ∧ binom (2 + 2 - 1) 2 = 3.
Proof. split; [vm_compute|]; reflexivity. Qed.

(** *** The layout of [jet] *)

Lemma jet_cons (X U : list str) (u : str) :
  jet X (u :: U) = ((λ x, u ++ x) <$> X) ++ jet X U.
Proof. reflexivity. Qed.

Lemma jet_length (X U : list str) : length (jet X U) = length U * length X.
Proof.
  unfold jet. apply length_bind_const. intros u _. by rewrite length_fmap.
Qed.

Lemma jet_lookup (X : list str) : ∀ (U : list str) (i j : nat) (u x : str),
  U !! i = Some u → X !! j = Some x →
  jet X U !! (i * length X + j) = Some (u ++ x).
Proof.
  induction U as [|u0 U IH]; intros i j u x Hu Hx; [done|].
  rewrite jet_cons. destruct i as [|i]; simpl in Hu.
  - injection Hu as ->. simpl. rewrite lookup_app_l.
    + by rewrite list_lookup_fmap, Hx.
    + rewrite length_fmap. by apply lookup_lt_Some in Hx.
  - rewrite lookup_app_r; rewrite length_fmap; [|simpl; lia].
    replace (S i * length X + j - length X) with (i * length X + j) by (simpl; lia).
    by apply IH.
Qed.

(** [jet(X,U)] has [len(U)*len(X)] entries, and the entry at position
    [i*len(X)+j] is [U[i]+X[j]]. *)
Theorem jet_layout (X U : list str) (i j : nat) (u x : str) :
  U !! i = Some u → X !! j = Some x →
  length (jet X U) = length U * length X
  ∧ jet X U !! (i * length X + j) = Some (u ++ x).
Proof. intros Hu Hx. split; [apply jet_length|by apply jet_lookup]. Qed.

Lemma jet_layout_witness :
  length (jet [x_; y_] [u_; v_]) = length [u_; v_] * length [x_; y_]
  ∧ jet [x_; y_] [u_; v_] !! (1 * length [x_; y_] + 0) = Some (v_ ++ x_).
Proof. apply (jet_layout [x_; y_] [u_; v_] 1 0 v_ x_); reflexivity. Defined.

(** *** Empty lists of variables *)

Lemma jet_nil_l (U : list str) : jet [] U = [].
Proof. unfold jet. induction U as [|u U IH]; [done|]. simpl. exact IH. Qed.

Lemma iter_jet_nil_r (X : list str) (n : nat) : Nat.iter n (jet X) [] = [].
Proof. induction n as [|n IH]; [done|]. simpl. by rewrite IH. Qed.

Lemma njet_nil_l (U : list str) (n : nat) : 1 ≤ n → njet [] U n = Ok [].
Proof.
  intros Hn. unfold njet. destruct n as [|n]; [lia|]. simpl. by rewrite jet_nil_l.
Qed.

Lemma njet_nil_r (X : list str) (n : nat) : njet X [] n = Ok [].
Proof. unfold njet. by rewrite iter_jet_nil_r. Qed.

Lemma bands_nil (X U : list str) (n : nat) :
  (∀ m, 1 ≤ m → band X U m = []) → bands X U n = [].
Proof.
  intros H. unfold bands.
  assert (E : ∀ a, 1 ≤ a → concat (band X U <$> seq a n) = []).
  { induction n as [|n IH]; intros a Ha; [done|]. simpl.
    rewrite H by done. simpl. apply IH. lia. }
  by apply E.
Qed.

(** Empty lists of variables: without independent variables the jet
    space is [U] and every order from 1 on is empty; without dependent
    variables the jet space is [X] and every order is empty. *)
Theorem fulljet_empty (X U : list str) (n : nat) :
  fulljet [] U n = Ok U ∧ fulljet X [] n = Ok X
  ∧ njet X [] n = Ok [] ∧ njet [] U (S n) = Ok [].
Proof.
  split_and!.
  - rewrite fulljet_bands. rewrite bands_nil; [by rewrite app_nil_r|].
    intros m Hm. unfold band. by rewrite njet_nil_l.
  - rewrite fulljet_bands. rewrite bands_nil; [by rewrite !app_nil_r|].
    intros m Hm. unfold band. by rewrite njet_nil_r.
  - apply njet_nil_r.
  - apply njet_nil_l. lia.
Qed.

(** *** [Prolong] with nothing to do *)

Lemma for_each_skip {St A} (body : St → A → result St) (l : list A) (s : St) :
  (∀ s a, body s a = Ok s) → for_each body l s = Ok s.
Proof.
  intros H. induction l as [|a l IH]; [done|]. simpl. by rewrite H, bind_Ok.
Qed.

(** With [n = 0], or no independent variable, or no dependent variable,
    [Prolong(X,U,v,n)] returns [v] with its list as it was, whatever
    function the name [totDiv] is bound to. *)
Theorem Prolong_nothing_to_do
    (D : list str → list str → expr → nat → nat → result expr)
    (X U : list str) (v n : nat) (h : heap) :
  n = 0 ∨ X = [] ∨ U = [] →
  Listing.Prolong D X U v n h = Ok (v, h).
Proof.
  intros H. unfold Listing.Prolong. cbv zeta.
  destruct H as [->|[->| ->]]; [done| |].
  - rewrite for_each_skip; done.
  - rewrite for_each_skip; [done|]. intros s i.
    apply for_each_skip. intros s' j. done.
Qed.

Lemma Prolong_nothing_to_do_witness :
  Listing.Prolong totDiv [x_] [] 0 2 {[0 := [Int 1]]} = Ok (0, {[0 := [Int 1]]}).
Proof. apply (Prolong_nothing_to_do totDiv [x_] [] 0 2). right. right. reflexivity. Defined.

(** *** [totDiv] and a coordinate without a one-higher symbol *)

Lemma for_each_TypeError (X U : list str) (P : expr) (x : str) (l : list str) :
  Exists (λ s, uJalpha s x X U = Ok None) l →
  ∀ e0,
  for_each (λ expr s, r ← uJalpha s x X U; t ← operand r;
                      Ok (Add expr (Mul (diff P s) t))) l e0
  = Raise TypeError.
Proof.
  induction l as [|s l IH]; intros Hex e0; [by apply Exists_nil in Hex|].
  simpl. destruct (uJalpha_cases X U s x) as [E|E].
  - by rewrite E.
  - rewrite E. simpl. apply IH. apply Exists_cons in Hex as [Hs|Hl]; [|done].
    rewrite E in Hs. done.
Qed.

(** When sympy reads [X[i]] and the coordinates as the symbols of their
    names and the resolver returns for every coordinate (a symbol or
    [None]), [totDiv] raises [TypeError] (the product with [None]) as soon
    as the resolver returns [None] for one of the coordinates, whatever the
    expression is (no label of [U] being empty). *)
Theorem totDiv_TypeError (sympify symbols : str → outcome str)
    (X U : list str) (P : expr) (i n : nat) (x s : str) :
  X !! i = Some x → [] ∉ U → sympify x = Returns x →
  Forall (λ t, sympify t = Returns t
               ∧ ∃ r, Notebook.uJalpha symbols t x X U = Returns r)
    (coords X U n) →
  s ∈ coords X U n → Notebook.uJalpha symbols s x X U = Returns None →
  Notebook.totDiv sympify symbols X U P i n = Raises TypeError.
Proof.
  intros Hx _ Ex Hall Hs Hn.
  rewrite (Notebook_totDiv_coords _ _ _ _ _ _ _ _ Hx).
  rewrite (Notebook_diff_symbol _ _ _ Ex), bind_Returns.
  generalize (diff P x). induction Hall as [|t l [Et [r Er]] Hl IH]; intros e0.
  - by apply elem_of_nil in Hs.
  - cbn [for_each_o]. rewrite (Notebook_diff_symbol _ _ _ Et), bind_Returns.
    apply elem_of_cons in Hs as [->|Hs].
    + by rewrite Hn.
    + rewrite Er. simpl. destruct r as [r|]; [|done]. simpl. by apply IH.
Qed.

Lemma totDiv_TypeError_witness :
  Notebook.totDiv sympify_E symbols_nonempty [x_] [py "uu"] (Int 5) 0 0
  = Raises TypeError.
Proof.
  apply (totDiv_TypeError sympify_E symbols_nonempty [x_] [py "uu"] (Int 5) 0 0
           x_ (py "uu")).
  - reflexivity.
  - compute_done.
  - reflexivity.
  - apply Forall_cons. split; [|constructor].
    split; [reflexivity|]. exists None. vm_compute. reflexivity.
  - compute_done.
  - vm_compute. reflexivity.
Defined.

(** *** When the composed operator returns *)

Lemma Listing_TotDiv_for_each
    (D : list str → list str → expr → nat → nat → result expr)
    (X U : list str) (P : expr) (n j : nat) (J : list nat) :
  Listing.TotDiv D X U P n (j :: J) = for_each (λ e i, D X U e i n) (j :: J) P.
Proof.
  unfold Listing.TotDiv. change (index (j :: J) 0) with (Ok j).
  rewrite bind_Ok. cbn [for_each].
  destruct (D X U P j n) as [e|err]; [|done]. rewrite !bind_Ok.
  unfold range2. replace (length (j :: J) - 1) with (length J) by (simpl; lia).
  apply (for_each_index_from (λ e i, D X U e i n) [j] J).
Qed.

Lemma TotDiv_as_listing (X U : list str) (P : expr) (J : list nat) :
  TotDiv X U P J = Listing.TotDiv totDiv X U P (length J + 1) J.
Proof. reflexivity. Qed.

Lemma totDiv_IndexError (X U : list str) (P : expr) (i n : nat) :
  length X ≤ i → totDiv X U P i n = Raise IndexError.
Proof.
  intros Hi. unfold totDiv, index. by rewrite (lookup_ge_None_2 X i Hi).
Qed.

Lemma for_each_totDiv_Ok (X U : list str) (n : nat) (J : list nat) :
  single_chars X → single_chars U → NoDup (X ++ U) →
  Forall (λ j, j < length X) J →
  ∀ P, ∃ e, for_each (λ e i, totDiv X U e i n) J P = Ok e.
Proof.
  intros HX HU Hnd. induction 1 as [|j J Hj HJ IH]; intros P; [by eexists|].
  simpl. apply lookup_lt_is_Some in Hj as [x Hx].
  rewrite (totDiv_chain X U P j n x HX HU Hnd Hx), bind_Ok. apply IH.
Qed.

Lemma for_each_totDiv_IndexError (X U : list str) (n : nat) (J : list nat) :
  single_chars X → single_chars U → NoDup (X ++ U) →
  Exists (λ j, length X ≤ j) J →
  ∀ P, for_each (λ e i, totDiv X U e i n) J P = Raise IndexError.
Proof.
  intros HX HU Hnd. induction J as [|j J IH]; intros Hex P.
  { by apply Exists_nil in Hex. }
  simpl. destruct (decide (j < length X)) as [Hj|Hj].
  - apply lookup_lt_is_Some in Hj as Hx. destruct Hx as [x Hx].
    rewrite (totDiv_chain X U P j n x HX HU Hnd Hx), bind_Ok. apply IH.
    apply Exists_cons in Hex as [?|?]; [lia|done].
  - rewrite totDiv_IndexError by lia. done.
Qed.

(** For distinct single-character labels that sympy reads as symbols of
    their own names, none of them a name the notebook uses, and positions
    counted from 0: [TotDiv(X,U,P,J)] returns when [J] is a non-empty
    list of positions of [X], and raises [IndexError] when [J] is empty
    or has an entry from [len(X)] on. *)
Theorem TotDiv_returns (sympify symbols : str → outcome str)
    (X U : list str) (P : expr) (J : list nat) :
  single_chars X → single_chars U → NoDup (X ++ U) →
  good_names sympify symbols X U (length J + 2) →
  (J ≠ [] ∧ Forall (λ j, j < length X) J →
     ∃ e, Notebook.TotDiv sympify symbols X U P J = Returns e)
  ∧ (J = [] ∨ Exists (λ j, length X ≤ j) J →
     Notebook.TotDiv sympify symbols X U P J = Raises IndexError).
Proof.
  intros HX HU Hnd Hg.
  rewrite (Notebook_TotDiv_labels sympify symbols X U HX HU Hnd) by done. split.
  - intros [Hne HJ]. destruct J as [|j J]; [done|].
    rewrite TotDiv_as_listing, Listing_TotDiv_for_each.
    destruct (for_each_totDiv_Ok X U (length (j :: J) + 1) (j :: J) HX HU Hnd HJ P)
      as [e ->].
    by exists e.
  - intros [->|Hex]; [done|]. destruct J as [|j J]; [done|].
    rewrite TotDiv_as_listing, Listing_TotDiv_for_each.
    by rewrite for_each_totDiv_IndexError.
Qed.

Lemma TotDiv_returns_witness :
  (∃ e, Notebook.TotDiv sympify_E symbols_nonempty [x_; y_] [u_] (Sym u_) [0; 1; 1]
        = Returns e)
  ∧ Notebook.TotDiv sympify_E symbols_nonempty [x_; y_] [u_] (Sym u_) [0; 2]
    = Raises IndexError.
Proof.
  split.
  - apply (TotDiv_returns sympify_E symbols_nonempty [x_; y_] [u_] (Sym u_) [0; 1; 1]).
    + repeat constructor.
    + repeat constructor.
    + compute_done.
    + compute_done.
    + split; [done|]. repeat constructor.
  - apply (TotDiv_returns sympify_E symbols_nonempty [x_; y_] [u_] (Sym u_) [0; 2]).
    + repeat constructor.
    + repeat constructor.
    + compute_done.
    + compute_done.
    + right. apply Exists_cons. right. apply Exists_cons. left. simpl. lia.
Defined.

(** With the name [totDiv] bound to cell 24's definition, the listing's
    [TotDiv(X,U,P,n,J)] commutes as well, at every ceiling [n]: over
    distinct single-character labels that sympy reads as symbols of their
    own names, none of them a name the notebook uses, the calls for
    [[0,1]] and for [[1,0]] return algebraically equal expressions. *)
Theorem TotDiv_listing_commutes (sympify symbols : str → outcome str)
    (X U : list str) (P : expr) (n : nat) :
  single_chars X → single_chars U → NoDup (X ++ U) → 2 ≤ length X →
  good_names sympify symbols X U (n + 1) →
  ∃ e1 e2,
    NotebookListing.TotDiv (Notebook.totDiv sympify symbols) X U P n [0; 1]
    = Returns e1
    ∧ NotebookListing.TotDiv (Notebook.totDiv sympify symbols) X U P n [1; 0]
      = Returns e2
    ∧ aeq e1 e2.
Proof.
  intros HX HU Hnd Hlen Hg.
  destruct X as [|x0 [|x1 X']]; [simpl in Hlen; lia..|].
  eexists _, _. split_and!.
  - rewrite (Notebook_TotDiv_listing sympify symbols _ U HX HU Hnd) by done.
    by rewrite (TotDiv_listing_pair _ U P n 0 1 x0 x1).
  - rewrite (Notebook_TotDiv_listing sympify symbols _ U HX HU Hnd) by done.
    by rewrite (TotDiv_listing_pair _ U P n 1 0 x1 x0).
  - intros ι. apply chain_comm; [done..| |].
    + by left.
    + right. by left.
Qed.

Lemma TotDiv_listing_commutes_witness :
  ∃ e1 e2,
    NotebookListing.TotDiv (Notebook.totDiv sympify_E symbols_nonempty)
      [x_; y_] [u_] (Mul (Sym x_) (Sym (py "uy"))) 1 [0; 1] = Returns e1
    ∧ NotebookListing.TotDiv (Notebook.totDiv sympify_E symbols_nonempty)
        [x_; y_] [u_] (Mul (Sym x_) (Sym (py "uy"))) 1 [1; 0] = Returns e2
    ∧ aeq e1 e2.
Proof.
  apply (TotDiv_listing_commutes sympify_E symbols_nonempty [x_; y_] [u_]
           (Mul (Sym x_) (Sym (py "uy"))) 1).
  - repeat constructor.
  - repeat constructor.
  - compute_done.
  - simpl. lia.
  - compute_done.
Defined.

(** *** [phiAlpha] reads the first [p+q] components only *)

Lemma for_each_ext {St A} (f g : St → A → result St) (l : list A) :
  (∀ s a, a ∈ l → f s a = g s a) → ∀ s, for_each f l s = for_each g l s.
Proof.
  induction l as [|a l IH]; intros H s; [done|]. simpl.
  rewrite H by left. destruct (g s a); [|done]. simpl.
  apply IH. intros. apply H. by right.
Qed.

Lemma phiAlpha_prefix
    (D : list str → list str → expr → nat → nat → result expr)
    (X U : list str) (v w : list expr) (J : list nat) (q : nat) :
  length X + q < length v →
  Listing.phiAlpha D X U (v ++ w) J q = Listing.phiAlpha D X U v J q.
Proof.
  intros Hv. unfold Listing.phiAlpha. cbv zeta.
  rewrite take_app_le by lia. rewrite drop_app_le by lia.
  assert (E : index (drop (length X) v ++ w) q = index (drop (length X) v) q).
  { unfold index. rewrite lookup_app_l; [done|]. rewrite length_drop. lia. }
  by rewrite E.
Qed.

(** [phiAlpha(X,U,v,J,q)] reads [v[:p]] and [v[p+q]] only: components after
    position [p+q] do not change its result (whatever function the name
    [totDiv] is bound to, no label of [U] being empty). *)
Theorem phiAlpha_app
    (D : list str → list str → expr → nat → nat → result expr)
    (X U : list str) (v w : list expr) (J : list nat) (q : nat) :
  [] ∉ U →
  length X + q < length v →
  Listing.phiAlpha D X U (v ++ w) J q = Listing.phiAlpha D X U v J q.
Proof.
  intros _ Hv. unfold Listing.phiAlpha. cbv zeta.
  rewrite take_app_le by lia. rewrite drop_app_le by lia.
  assert (E : index (drop (length X) v ++ w) q = index (drop (length X) v) q).
  { unfold index. rewrite lookup_app_l; [done|]. rewrite length_drop. lia. }
  by rewrite E.
Qed.

Lemma phiAlpha_app_witness :
  Listing.phiAlpha totDiv [x_] [u_] ([Sym x_; Sym u_] ++ [Sym y_]) [0] 0
  = Listing.phiAlpha totDiv [x_] [u_] [Sym x_; Sym u_] [0] 0.
Proof.
  apply (phiAlpha_app totDiv [x_] [u_] [Sym x_; Sym u_] [Sym y_] [0] 0).
  - compute_done.
  - simpl. lia.
Defined.

(** *** The multi-indices [diffOrd] lists *)

Lemma cwr_sorted : ∀ (k : nat) (pool : list nat) (w : list nat),
  StronglySorted lt pool →
  w ∈ Listing.combinations_with_replacement k pool →
  StronglySorted le w.
Proof.
  induction k as [|k IHk]; intros pool w Hp Hw.
  { rewrite cwr_0 in Hw. apply list_elem_of_singleton in Hw as ->. constructor. }
  induction pool as [|x pool IHp].
  { rewrite cwr_nil in Hw. by apply elem_of_nil in Hw. }
  rewrite cwr_cons in Hw. apply elem_of_app in Hw as [Hw|Hw].
  - apply list_elem_of_fmap in Hw as (w' & -> & Hw').
    constructor; [by apply (IHk (x :: pool))|].
    apply elem_of_cwr in Hw' as [_ Hin].
    apply Forall_forall. intros a Ha. apply Hin in Ha.
    apply elem_of_cons in Ha as [->|Ha]; [done|].
    apply StronglySorted_inv in Hp as [_ Hall].
    rewrite Forall_forall in Hall. apply Hall in Ha. lia.
  - apply IHp; [|done]. by apply StronglySorted_inv in Hp as [? _].
Qed.

Lemma seq_StronglySorted (a n : nat) : StronglySorted lt (seq a n).
Proof.
  revert a. induction n as [|n IH]; intros a; simpl; constructor; [apply IH|].
  apply Forall_forall. intros b Hb. apply elem_of_seq in Hb. lia.
Qed.

Lemma diffOrd_lookup (p n k : nat) :
  1 ≤ k ≤ n →
  Listing.diffOrd p n !! (k - 1)
  = Some (Listing.combinations_with_replacement k (range p)).
Proof.
  intros Hk. unfold Listing.diffOrd, range2.
  change (map ?f ?l) with (f <$> l).
  rewrite list_lookup_fmap, lookup_seq_lt by lia.
  replace (1 + (k - 1)) with k by lia. reflexivity.
Qed.

(** [diffOrd(p,n)] has [n] entries, and for [1 <= k <= n] entry [k-1]
    lists, each once, exactly the non-decreasing sequences of [k] positions
    below [p]. *)
Theorem diffOrd_multi_indices (p n k : nat) :
  1 ≤ k ≤ n →
  length (Listing.diffOrd p n) = n
  ∧ ∃ L, Listing.diffOrd p n !! (k - 1) = Some L
       ∧ NoDup L
       ∧ ∀ w, w ∈ L ↔ length w = k ∧ Sorted le w ∧ Forall (λ a, a < p) w.
Proof.
  intros Hk. split.
  { unfold Listing.diffOrd, range2. rewrite length_map, length_seq. lia. }
  eexists. split; [by apply diffOrd_lookup|]. split.
  { apply cwr_NoDup. apply NoDup_seq. }
  intros w. split.
  - intros Hw. split_and!.
    + by apply elem_of_cwr in Hw as [? _].
    + apply StronglySorted_Sorted. eapply cwr_sorted; [|exact Hw].
      apply seq_StronglySorted.
    + apply elem_of_cwr in Hw as [_ Hin]. apply Forall_forall. intros a Ha.
      apply Hin in Ha. apply elem_of_seq in Ha. lia.
  - intros (Hl & Hs & Hb).
    destruct (cwr_complete k (range p) w Hl) as (w' & Hw' & Hp).
    { intros a Ha. rewrite Forall_forall in Hb. apply Hb in Ha.
      apply elem_of_seq. lia. }
    assert (w' = w) as <-; [|done].
    apply (StronglySorted_unique le); [| |done].
    + eapply cwr_sorted; [|exact Hw']. apply seq_StronglySorted.
    + apply Sorted_StronglySorted; [apply _|done].
Qed.

Lemma diffOrd_multi_indices_witness :
  length (Listing.diffOrd 3 2) = 2
  ∧ ∃ L, Listing.diffOrd 3 2 !! (2 - 1) = Some L
       ∧ NoDup L
       ∧ ∀ w, w ∈ L ↔ length w = 2 ∧ Sorted le w ∧ Forall (λ a, a < 3) w.
Proof. apply (diffOrd_multi_indices 3 2 2). lia. Defined.

(** *** The deduplication loop keeps a symbol of every class *)

Lemma list_remove_inv (x : str) : ∀ l l',
  list_remove x l = Ok l' →
  ∃ l1 l2, l = l1 ++ x :: l2 ∧ l' = l1 ++ l2.
Proof.
  induction l as [|y l IH]; intros l' H; simpl in H; [done|].
  destruct (decide (x = y)) as [->|Hne].
  - injection H as <-. by exists [], l.
  - destruct (list_remove x l) as [l''|] eqn:E; [|done]. simpl in H.
    injection H as <-. destruct (IH l'' eq_refl) as (l1 & l2 & -> & ->).
    by exists (y :: l1), l2.
Qed.

Lemma lookup_app_cons_ne {A} (l1 l2 : list A) (x y : A) (p : nat) :
  (l1 ++ x :: l2) !! p = Some y → p ≠ length l1 → y ∈ l1 ++ l2.
Proof.
  intros H Hp. apply elem_of_app.
  destruct (decide (p < length l1)) as [Hlt|Hge].
  - rewrite lookup_app_l in H by done. left. by eapply list_elem_of_lookup_2.
  - rewrite lookup_app_r in H by lia.
    destruct (p - length l1) as [|m] eqn:E; [lia|]. simpl in H.
    right. by eapply list_elem_of_lookup_2.
Qed.

Lemma covers_refl (J : list str) : covers J J.
Proof. intros s Hs. by exists s. Qed.

Lemma covers_trans (J1 J2 J3 : list str) :
  covers J1 J2 → covers J2 J3 → covers J1 J3.
Proof.
  intros H12 H23 s Hs. destruct (H12 s Hs) as (r & Hr & E).
  destruct (H23 r Hr) as (t & Ht & E'). exists t. split; [done|congruence].
Qed.

Lemma index_Ok {A} (l : list A) (i : nat) (a : A) :
  index l i = Ok a → l !! i = Some a.
Proof. unfold index. destruct (l !! i); [|done]. by intros [= ->]. Qed.

Lemma njet_inner_covers (cnt : nat) : ∀ i k J J',
  i < k → njet_inner cnt i k J = Ok J' → covers J J'.
Proof.
  induction cnt as [|cnt IH]; intros i k J J' Hik H; simpl in H.
  { injection H as <-. apply covers_refl. }
  destruct (index J i) as [Ji|] eqn:Ei; [|done].
  destruct (index J k) as [Jk|] eqn:Ek; [|done]. simpl in H.
  apply index_Ok in Ei, Ek.
  destruct (decide (sorted Ji = sorted Jk)) as [E|E]; [|by eapply IH; [|exact H]; lia].
  destruct (list_remove Jk J) as [J1|] eqn:Er; [|done]. simpl in H.
  apply (covers_trans J J1 J'); [|by eapply IH].
  destruct (list_remove_inv Jk J J1 Er) as (l1 & l2 & -> & ->).
  intros s Hs. apply elem_of_app in Hs as [Hs|Hs].
  { exists s. split; [|done]. apply elem_of_app. by left. }
  apply elem_of_cons in Hs as [->|Hs].
  2:{ exists s. split; [|done]. apply elem_of_app. by right. }
  destruct (decide (i = length l1)) as [Hi|Hi].
  - exists Jk. split; [|done]. eapply lookup_app_cons_ne; [exact Ek|lia].
  - exists Ji. split; [|done]. eapply lookup_app_cons_ne; [exact Ei|done].
Qed.

Lemma njet_outer_covers (idx : list nat) : ∀ J J',
  njet_outer idx J = Ok J' → covers J J'.
Proof.
  induction idx as [|i idx IH]; intros J J' H; simpl in H.
  { injection H as <-. apply covers_refl. }
  destruct (njet_inner _ i (i + 1) J) as [J1|] eqn:E1; [|done]. simpl in H.
  assert (covers J J1) by (eapply njet_inner_covers; [|exact E1]; lia).
  destruct (decide _) in H.
  - injection H as <-. done.
  - eapply covers_trans; [done|]. by apply IH.
Qed.

(** For any labels: [njet(X,U,n)] returns; every symbol it returns is one
    of the symbols [n] rounds of [jet] generate, and every generated symbol
    has a symbol with the same characters among those returned. *)
Theorem njet_keeps_every_class (X U : list str) (n : nat) :
  ∃ R, njet X U n = Ok R
     ∧ (∀ r, r ∈ R → r ∈ Nat.iter n (jet X) U)
     ∧ (∀ s, s ∈ Nat.iter n (jet X) U → ∃ r, r ∈ R ∧ sorted r = sorted s).
Proof.
  destruct (njet_ok X U n) as (R & HR & Hsub). exists R. split_and!; [done| |].
  - intros r Hr. by eapply elem_of_sublist.
  - by apply (njet_outer_covers _ _ _ HR).
Qed.

(** *** When the resolver finds a symbol *)

(** For any labels: a symbol that [uJalpha(u,x,X,U)] returns is the
    symbol [var] creates from one of the symbols [len(u)] rounds of [jet]
    generate, one that has the characters of [u+x]; and [uJalpha] returns
    [None] exactly when no generated symbol has these characters. *)
Theorem uJalpha_finds (symbols : str → outcome str) (X U : list str) (u x : str) :
  (∀ r, Notebook.uJalpha symbols u x X U = Returns (Some r) →
        ∃ s, s ∈ Nat.iter (length u) (jet X) U ∧ sorted s = sorted (u ++ x)
             ∧ symbols s = Returns r)
  ∧ (Notebook.uJalpha symbols u x X U = Returns None
     ↔ ∀ t, t ∈ Nat.iter (length u) (jet X) U → sorted t ≠ sorted (u ++ x)).
Proof.
  destruct (njet_ok X U (length u)) as (R & HR & Hsub).
  assert (EB : band X U (length u) = R) by (unfold band; by rewrite HR).
  split.
  - intros r. unfold Notebook.uJalpha. rewrite HR. simpl.
    destruct (find _ R) as [s|] eqn:Hf; [|done].
    apply find_some in Hf as [Hin Hp%bool_decide_eq_true]. intros E.
    exists s. split_and!.
    + eapply elem_of_sublist; [|exact Hsub]. by apply list_elem_of_In.
    + done.
    + unfold Notebook.var in E. destruct (symbols s) as [s'| |]; [|done..].
      simpl in E. destruct (decide (s' ∈ notebook_names)); [done|].
      by injection E as <-.
  - rewrite Notebook_uJalpha_search, EB. split.
    + intros Hno t Ht E.
      destruct (njet_outer_covers _ _ _ HR t Ht) as (r & Hr & E').
      apply (Hno r Hr). congruence.
    + intros Hno s Hs E. apply (Hno s); [|done].
      by eapply elem_of_sublist.
Qed.

(** *** The symbol [divUJi] builds *)

Section labels_divUJi.
Context (X U : list str).
Context (HX : single_chars X) (HU : single_chars U) (Hnd : NoDup (X ++ U)).

Lemma band_classes (m : nat) : NoDup (sorted <$> band X U m).
Proof using HX HU Hnd.
  assert (HndL : NoDup (Nat.iter m (jet X) U)).
  { apply NoDup_iter_jet; [done|..].
    - by apply NoDup_app in Hnd as (? & _ & _).
    - by apply NoDup_app in Hnd as (_ & _ & ?). }
  destruct (njet_dedup_NoDup _ HndL) as (R & HR & _ & _ & Hkeys).
  unfold band, njet. rewrite HR. apply Hkeys.
  by apply iter_jet_last_unique_U.
Qed.

Lemma band_sorted_inj (m : nat) (r r' : str) :
  r ∈ band X U m → r' ∈ band X U m → sorted r = sorted r' → r = r'.
Proof using HX HU Hnd.
  intros [a Ha]%list_elem_of_lookup [b Hb]%list_elem_of_lookup E.
  assert (a = b) as ->; [|congruence].
  apply (NoDup_lookup (sorted <$> band X U m) a b (sorted r)).
  - apply band_classes.
  - by rewrite list_lookup_fmap, Ha.
  - by rewrite list_lookup_fmap, Hb, E.
Qed.

Lemma labels_at_elem (J : list nat) (x : str) :
  Forall (λ j, j < length X) J → x ∈ labels_at X J → x ∈ X.
Proof.
  intros HJ (j & -> & Hj)%list_elem_of_fmap.
  rewrite Forall_forall in HJ. apply HJ in Hj.
  apply lookup_lt_is_Some in Hj as [y Hy]. rewrite Hy. simpl.
  by eapply list_elem_of_lookup_2.
Qed.

Lemma divUJi_loop (n : nat) (J : list nat) : ∀ f : str,
  Forall (λ j, j < length X) J →
  f ∈ coords X U n → length f + length J ≤ n + 1 →
  ∃ r, for_each (λ (f : option str) j, x ← index X j; uJalpha (py_str f) x X U)
         J (Some f) = Ok (Some r)
     ∧ r ∈ coords X U n
     ∧ length r = length f + length J
     ∧ r ≡ₚ f ++ concat (labels_at X J).
Proof using HX HU Hnd.
  induction J as [|j J IH]; intros f HJ Hf Hlen.
  { exists f. simpl. rewrite app_nil_r. split_and!; [done|done|lia|done]. }
  apply Forall_cons in HJ as [Hj HJ]. simpl in Hlen.
  apply lookup_lt_is_Some in Hj as [x Hx].
  assert (Hxin : x ∈ X) by by eapply list_elem_of_lookup_2.
  destruct (uJalpha_coords X U HX HU Hnd n f x Hf Hxin) as (Eu & _ & Es).
  pose proof (resolved_length X U HX HU Hnd n f x Hf Hxin) as Hl.
  assert (Hr : resolved X U f x ∈ coords X U n).
  { apply (resolved_elem_of_coords X U HX HU Hnd n f x Hf Hxin). lia. }
  destruct (IH (resolved X U f x) HJ Hr ltac:(lia)) as (r & Er & Hrc & Hrl & Hrp).
  exists r. cbn [for_each]. rewrite (index_lookup _ _ _ Hx), bind_Ok.
  cbn [py_str]. rewrite Eu, bind_Ok. split_and!; [done|done|simpl; lia|].
  rewrite Hrp. apply sorted_Permutation in Es. rewrite <- Es.
  unfold labels_at. cbn [fmap list_fmap concat]. rewrite Hx. simpl.
  by rewrite <- app_assoc.
Qed.

Lemma elem_of_coords_U (n : nat) (u : str) : u ∈ U → u ∈ coords X U n.
Proof using HX HU Hnd. intros Hu. apply elem_of_coords; [done..|]. by left. Qed.

Lemma divUJi_labels (u : str) (J : list nat) (i : nat) (x : str) :
  u ∈ U → Forall (λ j, j < length X) J → X !! i = Some x →
  ∃ r, divUJi X U u J i = Ok (Some r)
     ∧ r ∈ band X U (length J + 1)
     ∧ r ≡ₚ u ++ concat (labels_at X J) ++ x.
Proof using HX HU Hnd.
  intros Hu HJ Hx.
  assert (Hxin : x ∈ X) by by eapply list_elem_of_lookup_2.
  pose proof (single_chars_elem U u HU Hu) as Lu.
  destruct (divUJi_loop (length J + 1) J u HJ (elem_of_coords_U _ u Hu) ltac:(lia))
    as (f & Ef & Hfc & Hfl & Hfp).
  destruct (uJalpha_coords X U HX HU Hnd _ f x Hfc Hxin) as (Eu & Hb & Es).
  exists (resolved X U f x). unfold divUJi.
  rewrite (for_each_index
    (λ (f : option str) j, x ← index X j; uJalpha (py_str f) x X U) J (Some u)).
  rewrite Ef, bind_Ok, (index_lookup _ _ _ Hx), bind_Ok. cbn [py_str].
  split_and!; [done| |].
  - replace (length J + 1) with (length f) by lia. done.
  - apply sorted_Permutation in Es. rewrite <- Es, Hfp. by rewrite <- app_assoc.
Qed.

End labels_divUJi.

(** For distinct single-character labels that sympy reads as symbols of
    their own names, none of them a name the notebook uses, a dependent
    variable [u] and positions within [X], [divUJi(X,U,u,J,i)] returns a
    symbol of [njet(X,U,len(J)+1)] whose characters are those of [u], of
    the labels at [J] and of [X[i]]. *)
Theorem divUJi_symbol (sympify symbols : str → outcome str)
    (X U : list str) (u : str) (J : list nat) (i : nat) (x : str) :
  single_chars X → single_chars U → NoDup (X ++ U) →
  good_names sympify symbols X U (length J + 1) →
  u ∈ U → Forall (λ j, j < length X) J → X !! i = Some x →
  ∃ r R, Notebook.divUJi symbols X U u J i = Returns (Some r)
       ∧ njet X U (length J + 1) = Ok R ∧ r ∈ R
       ∧ r ≡ₚ u ++ concat (labels_at X J) ++ x.
Proof.
  intros HX HU Hnd Hg Hu HJ Hx.
  destruct (divUJi_labels X U HX HU Hnd u J i x Hu HJ Hx) as (r & E & Hb & Hp).
  exists r, (band X U (length J + 1)).
  rewrite (Notebook_divUJi_labels sympify symbols X U HX HU Hnd) by done.
  rewrite E. split_and!; [done|apply njet_band|done|done].
Qed.

Lemma divUJi_symbol_witness :
  ∃ r R, Notebook.divUJi symbols_nonempty [x_; y_] [u_] u_ [1; 0] 1
         = Returns (Some r)
       ∧ njet [x_; y_] [u_] (length [1; 0] + 1) = Ok R ∧ r ∈ R
       ∧ r ≡ₚ u_ ++ concat (labels_at [x_; y_] [1; 0]) ++ y_.
Proof.
  apply (divUJi_symbol sympify_E symbols_nonempty [x_; y_] [u_] u_ [1; 0] 1 y_).
  - repeat constructor.
  - repeat constructor.
  - compute_done.
  - compute_done.
  - compute_done.
  - repeat constructor.
  - reflexivity.
Defined.

Lemma divUJi_rearranged (X U : list str) (u : str) (J J' : list nat) (i i' : nat) :
  single_chars X → single_chars U → NoDup (X ++ U) →
  u ∈ U → Forall (λ j, j < length X) (J ++ [i]) →
  J ++ [i] ≡ₚ J' ++ [i'] →
  ∃ r, divUJi X U u J i = Ok (Some r) ∧ divUJi X U u J' i' = Ok (Some r).
Proof.
  intros HX HU Hnd Hu Hall Hp.
  assert (Hall' : Forall (λ j, j < length X) (J' ++ [i'])) by by rewrite <- Hp.
  apply Forall_app in Hall as [HJ Hi], Hall' as [HJ' Hi'].
  apply Forall_inv in Hi. apply Forall_inv in Hi'.
  apply lookup_lt_is_Some in Hi as [x Hx]. apply lookup_lt_is_Some in Hi' as [x' Hx'].
  destruct (divUJi_labels X U HX HU Hnd u J i x Hu HJ Hx) as (r & E & Hb & Hr).
  destruct (divUJi_labels X U HX HU Hnd u J' i' x' Hu HJ' Hx') as (r' & E' & Hb' & Hr').
  exists r. rewrite E, E'. split; [done|]. do 2 f_equal.
  assert (Hlen : length J = length J').
  { apply Permutation_length in Hp. rewrite !length_app in Hp. simpl in Hp. lia. }
  rewrite <- Hlen in Hb'. symmetry.
  apply (band_sorted_inj X U HX HU Hnd _ r r' Hb Hb').
  apply sorted_Permutation. rewrite Hr, Hr'. f_equiv.
  assert (EJ : concat (labels_at X J) ++ x = concat (labels_at X (J ++ [i]))).
  { unfold labels_at. rewrite fmap_app, concat_app. simpl. by rewrite Hx, app_nil_r. }
  assert (EJ' : concat (labels_at X J') ++ x' = concat (labels_at X (J' ++ [i']))).
  { unfold labels_at. rewrite fmap_app, concat_app. simpl. by rewrite Hx', app_nil_r. }
  rewrite EJ, EJ'. unfold labels_at. by rewrite Hp.
Qed.

(** The symbol does not depend on the order of the positions: over such
    labels, two calls whose position lists [J+[i]] are rearrangements of
    each other return the same symbol. *)
Theorem divUJi_order (sympify symbols : str → outcome str)
    (X U : list str) (u : str) (J J' : list nat) (i i' : nat) :
  single_chars X → single_chars U → NoDup (X ++ U) →
  good_names sympify symbols X U (length J + 1) →
  u ∈ U → Forall (λ j, j < length X) (J ++ [i]) →
  J ++ [i] ≡ₚ J' ++ [i'] →
  ∃ r, Notebook.divUJi symbols X U u J i = Returns (Some r)
     ∧ Notebook.divUJi symbols X U u J' i' = Returns (Some r).
Proof.
  intros HX HU Hnd Hg Hu Hall Hp.
  assert (Hlen : length J = length J').
  { apply Permutation_length in Hp. rewrite !length_app in Hp. simpl in Hp. lia. }
  destruct (divUJi_rearranged X U u J J' i i' HX HU Hnd Hu Hall Hp) as (r & E & E').
  exists r.
  rewrite !(Notebook_divUJi_labels sympify symbols X U HX HU Hnd)
    by (done || by rewrite <- Hlen).
  by rewrite E, E'.
Qed.

Lemma divUJi_order_witness :
  ∃ r, Notebook.divUJi symbols_nonempty [x_; y_] [u_] u_ [1; 0] 1
       = Returns (Some r)
     ∧ Notebook.divUJi symbols_nonempty [x_; y_] [u_] u_ [1; 1] 0
       = Returns (Some r).
Proof.
  apply (divUJi_order sympify_E symbols_nonempty [x_; y_] [u_] u_ [1; 0] [1; 1] 1 0).
  - repeat constructor.
  - repeat constructor.
  - compute_done.
  - compute_done.
  - compute_done.
  - repeat constructor.
  - apply Permutation_skip, Permutation_swap.
Defined.

(** *** The value of a total derivative *)

Section derivation.
Local Open Scope Z_scope.

Lemma sumZ_app {A} (f : A → Z) (l1 l2 : list A) :
  sumZ f (l1 ++ l2) = sumZ f l1 + sumZ f l2.
Proof. induction l1 as [|a l1 IH]; simpl; [done|]. unfold sumZ in *. simpl. lia. Qed.

Lemma sumZ_linear {A} (f g : A → Z) (c d : Z) (l : list A) :
  sumZ (λ a, c * f a + d * g a) l = c * sumZ f l + d * sumZ g l.
Proof. induction l as [|a l IH]; unfold sumZ in *; simpl; lia. Qed.

Lemma sumZ_none {A} (f : A → Z) (l : list A) :
  (∀ a, a ∈ l → f a = 0) → sumZ f l = 0.
Proof.
  intros H. rewrite (sumZ_ext_in f (λ _, 0) l H). apply sumZ_zero.
Qed.

Lemma eval_chain (X U : list str) (n : nat) (ι : interp) (P : expr) (x : str) :
  eval ι (chain X U n P x)
  = eval ι (diff P x)
    + sumZ (λ s, eval ι (diff P s) * sym_val ι (resolved X U s x)) (coords X U n).
Proof.
  unfold chain, chain_sum.
  apply (eval_fold_chain ι (diff P) (λ s, resolved X U s x)).
Qed.

Lemma diff_absent (ι : interp) (P : expr) (s : str) :
  s ∉ syms P → eval ι (diff P s) = 0.
Proof.
  induction P as [z|t|a IHa b IHb|a IHa b IHb|f k a IHa]; simpl; intros Hs.
  - done.
  - destruct (decide (t = s)) as [->|?]; [|done].
    exfalso. apply Hs. by left.
  - rewrite IHa, IHb; [done|..]; intros ?; apply Hs, elem_of_app; auto.
  - rewrite IHa, IHb; [lia|..]; intros ?; apply Hs, elem_of_app; auto.
  - rewrite IHa by done. lia.
Qed.

Lemma coords_not_label (X U : list str) (n : nat) (s : str) :
  s ∈ coords X U n → s ∉ X.
Proof. unfold coords. by intros [? _]%list_elem_of_filter. Qed.

Lemma eval_diff_Sym (ι : interp) (s t : str) :
  eval ι (diff (Sym s) t) = if decide (s = t) then 1 else 0.
Proof. simpl. by destruct (decide (s = t)). Qed.

End derivation.

(** For distinct single-character labels that sympy reads as symbols of
    their own names, none of them a name the notebook uses: the total
    derivative of a single symbol with respect to [x = X[i]] is 1 for [x]
    itself, 0 for another label of [X], the one-higher symbol for a
    coordinate up to the ceiling, and 0 for any other symbol. *)
Theorem totDiv_symbol (sympify symbols : str → outcome str)
    (X U : list str) (s : str) (i n : nat) (x : str) :
  single_chars X → single_chars U → NoDup (X ++ U) →
  good_names sympify symbols X U (n + 1) → X !! i = Some x →
  ∃ e, Notebook.totDiv sympify symbols X U (Sym s) i n = Returns e
     ∧ (s = x → aeq e (Int 1))
     ∧ (s ∈ X → s ≠ x → aeq e (Int 0))
     ∧ (s ∈ coords X U n →
        ∃ r, Notebook.uJalpha symbols s x X U = Returns (Some r) ∧ aeq e (Sym r))
     ∧ (s ∉ X → s ∉ coords X U n → aeq e (Int 0)).
Proof.
  intros HX HU Hnd Hg Hx.
  assert (Hxin : x ∈ X) by by eapply list_elem_of_lookup_2.
  exists (chain X U n (Sym s) x).
  split; [by apply (Notebook_totDiv_chain sympify symbols X U HX HU Hnd)|].
  assert (Hev : ∀ ι, eval ι (chain X U n (Sym s) x)
     = ((if decide (s = x) then 1 else 0)
        + (if decide (s ∈ coords X U n) then sym_val ι (resolved X U s x) else 0))%Z).
  { intros ι. rewrite eval_chain, eval_diff_Sym. f_equal.
    rewrite <- (sumZ_indicator s (λ t, sym_val ι (resolved X U t x)))
      by by apply coords_NoDup.
    apply sumZ_ext_in. intros t _. by rewrite eval_diff_Sym. }
  split_and!.
  - intros -> ι. rewrite Hev. rewrite decide_True by done.
    rewrite decide_False; [done|]. intros H. by apply coords_not_label in H.
  - intros Hs Hne ι. rewrite Hev. rewrite decide_False by done.
    rewrite decide_False; [done|]. intros H. by apply coords_not_label in H.
  - intros Hs. exists (resolved X U s x). split.
    + apply (Notebook_uJalpha_coords sympify symbols X U HX HU Hnd (n + 1));
        [done| | |done].
      * apply (coords_mono X U HX HU Hnd n); [lia|done].
      * apply (coords_iter X U HX HU Hnd) in Hs. lia.
    + intros ι. rewrite Hev. rewrite decide_False.
      * by rewrite decide_True.
      * intros ->. by apply coords_not_label in Hs.
  - intros Hs Hc ι. rewrite Hev. rewrite decide_False.
    + by rewrite decide_False.
    + intros ->. done.
Qed.

Lemma totDiv_symbol_witness :
  ∃ e r, Notebook.totDiv sympify_E symbols_nonempty [x_; y_] [u_] (Sym (py "uy")) 0 1
         = Returns e
       ∧ Notebook.uJalpha symbols_nonempty (py "uy") x_ [x_; y_] [u_]
         = Returns (Some r)
       ∧ aeq e (Sym r).
Proof.
  destruct (totDiv_symbol sympify_E symbols_nonempty [x_; y_] [u_] (py "uy") 0 1 x_)
    as (e & He & _ & _ & Hc & _).
  - repeat constructor.
  - repeat constructor.
  - compute_done.
  - compute_done.
  - reflexivity.
  - destruct Hc as (r & Hr & Ha); [compute_done|]. by exists e, r.
Defined.

(** For distinct single-character labels that sympy reads as symbols of
    their own names, none of them a name the notebook uses, [totDiv] is a
    derivation: it sends constants to 0, is additive, and obeys the
    product rule and the chain rule, up to algebraic equality. *)
Theorem totDiv_rules (sympify symbols : str → outcome str)
    (X U : list str) (P Q : expr) (f : str) (k : nat) (c : Z) (i n : nat) :
  single_chars X → single_chars U → NoDup (X ++ U) →
  good_names sympify symbols X U (n + 1) → i < length X →
  ∃ eP eQ,
    Notebook.totDiv sympify symbols X U P i n = Returns eP
    ∧ Notebook.totDiv sympify symbols X U Q i n = Returns eQ
    ∧ (∃ e, Notebook.totDiv sympify symbols X U (Int c) i n = Returns e
          ∧ aeq e (Int 0))
    ∧ (∃ e, Notebook.totDiv sympify symbols X U (Add P Q) i n = Returns e
          ∧ aeq e (Add eP eQ))
    ∧ (∃ e, Notebook.totDiv sympify symbols X U (Mul P Q) i n = Returns e
          ∧ aeq e (Add (Mul eP Q) (Mul P eQ)))
    ∧ (∃ e, Notebook.totDiv sympify symbols X U (Fn f k P) i n = Returns e
          ∧ aeq e (Mul (Fn f (S k) P) eP)).
Proof.
  intros HX HU Hnd Hg Hi. apply lookup_lt_is_Some in Hi as [x Hx].
  pose proof (λ P, Notebook_totDiv_chain sympify symbols X U HX HU Hnd n P i x Hg Hx)
    as totDiv_ret.
  exists (chain X U n P x), (chain X U n Q x).
  split_and!; try by apply totDiv_ret.
  - eexists. split; [by apply totDiv_ret|]. intros ι. rewrite eval_chain. simpl.
    rewrite sumZ_none; [done|]. intros; lia.
  - eexists. split; [by apply totDiv_ret|]. intros ι.
    cbn [eval]. rewrite !eval_chain. cbn [diff eval].
    rewrite (sumZ_ext_in _ (λ s,
      1 * (eval ι (diff P s) * sym_val ι (resolved X U s x))
      + 1 * (eval ι (diff Q s) * sym_val ι (resolved X U s x)))%Z)
      by (intros; lia).
    rewrite sumZ_linear. lia.
  - eexists. split; [by apply totDiv_ret|]. intros ι.
    cbn [eval]. rewrite !eval_chain. cbn [diff eval].
    rewrite (sumZ_ext_in _ (λ s,
      eval ι Q * (eval ι (diff P s) * sym_val ι (resolved X U s x))
      + eval ι P * (eval ι (diff Q s) * sym_val ι (resolved X U s x)))%Z)
      by (intros; lia).
    rewrite sumZ_linear. lia.
  - eexists. split; [by apply totDiv_ret|]. intros ι.
    cbn [eval]. rewrite !eval_chain. cbn [diff eval].
    rewrite (sumZ_ext_in _ (λ s,
      fn_val ι f (S k) (eval ι P) * (eval ι (diff P s) * sym_val ι (resolved X U s x))
      + 0 * 0)%Z)
      by (intros; lia).
    rewrite sumZ_linear. lia.
Qed.

Lemma totDiv_rules_witness :
  ∃ eP eQ,
    Notebook.totDiv sympify_E symbols_nonempty [x_; y_] [u_] (Sym x_) 0 1
    = Returns eP
    ∧ Notebook.totDiv sympify_E symbols_nonempty [x_; y_] [u_] (Sym u_) 0 1
      = Returns eQ
    ∧ (∃ e, Notebook.totDiv sympify_E symbols_nonempty [x_; y_] [u_]
              (Int 7) 0 1 = Returns e
          ∧ aeq e (Int 0))
    ∧ (∃ e, Notebook.totDiv sympify_E symbols_nonempty [x_; y_] [u_]
              (Add (Sym x_) (Sym u_)) 0 1 = Returns e
          ∧ aeq e (Add eP eQ))
    ∧ (∃ e, Notebook.totDiv sympify_E symbols_nonempty [x_; y_] [u_]
              (Mul (Sym x_) (Sym u_)) 0 1 = Returns e
          ∧ aeq e (Add (Mul eP (Sym u_)) (Mul (Sym x_) eQ)))
    ∧ (∃ e, Notebook.totDiv sympify_E symbols_nonempty [x_; y_] [u_]
              (Fn (py "f") 0 (Sym x_)) 0 1 = Returns e
          ∧ aeq e (Mul (Fn (py "f") 1 (Sym x_)) eP)).
Proof.
  apply (totDiv_rules sympify_E symbols_nonempty [x_; y_] [u_] (Sym x_) (Sym u_)
           (py "f") 0 7 0 1).
  - repeat constructor.
  - repeat constructor.
  - compute_done.
  - compute_done.
  - simpl. lia.
Defined.

(** *** Raising the ceiling *)

Lemma bands_le (X U : list str) (n m : nat) :
  n ≤ m →
  bands X U m = bands X U n ++ concat (band X U <$> seq (1 + n) (m - n)).
Proof.
  intros Hnm. unfold bands. replace m with (n + (m - n)) at 1 by lia.
  by rewrite seq_app, fmap_app, concat_app.
Qed.

(** For distinct single-character labels that sympy reads as symbols of
    their own names, none of them a name the notebook uses: when every
    symbol of [P] has
    at most [n+1] characters, raising the ceiling from [n] to [m >= n]
    does not change the total derivative up to algebraic equality. *)
Theorem totDiv_ceiling (sympify symbols : str → outcome str)
    (X U : list str) (P : expr) (i n m : nat) :
  single_chars X → single_chars U → NoDup (X ++ U) →
  good_names sympify symbols X U (m + 1) → i < length X →
  n ≤ m → Forall (λ s, length s ≤ n + 1) (syms P) →
  ∃ e1 e2, Notebook.totDiv sympify symbols X U P i n = Returns e1
         ∧ Notebook.totDiv sympify symbols X U P i m = Returns e2
         ∧ aeq e1 e2.
Proof.
  intros HX HU Hnd Hg Hi Hnm HP. apply lookup_lt_is_Some in Hi as [x Hx].
  exists (chain X U n P x), (chain X U m P x).
  split_and!.
  { apply (Notebook_totDiv_chain sympify symbols X U HX HU Hnd); [|done].
    apply (good_names_le sympify symbols X U HX HU Hnd (m + 1)); [lia|done]. }
  { by apply (Notebook_totDiv_chain sympify symbols X U HX HU Hnd). }
  intros ι. rewrite !eval_chain. f_equal.
  rewrite !coords_eq by done. rewrite (bands_le X U n m Hnm), !sumZ_app.
  rewrite (sumZ_none _ (concat _)); [lia|].
  intros s Hs. rewrite diff_absent; [lia|].
  intros Hin. rewrite Forall_forall in HP. apply HP in Hin.
  apply list_elem_of_In, in_concat in Hs as (l & Hl & Hs).
  apply list_elem_of_In, list_elem_of_fmap in Hl as (k & -> & Hk).
  apply elem_of_seq in Hk. apply list_elem_of_In in Hs.
  apply (band_length X U HX HU) in Hs. lia.
Qed.

Lemma totDiv_ceiling_witness :
  ∃ e1 e2,
    Notebook.totDiv sympify_E symbols_nonempty [x_; y_] [u_]
      (Mul (Sym x_) (Sym (py "uy"))) 0 1 = Returns e1
    ∧ Notebook.totDiv sympify_E symbols_nonempty [x_; y_] [u_]
        (Mul (Sym x_) (Sym (py "uy"))) 0 3 = Returns e2
    ∧ aeq e1 e2.
Proof.
  apply (totDiv_ceiling sympify_E symbols_nonempty [x_; y_] [u_]
           (Mul (Sym x_) (Sym (py "uy"))) 0 1 3).
  - repeat constructor.
  - repeat constructor.
  - compute_done.
  - compute_done.
  - simpl. lia.
  - lia.
  - repeat constructor.
Defined.

(** *** The symbols of [fulljet] are pairwise different *)

(** For distinct single-character labels, the symbols of
    [fulljet(X,U,n)] are pairwise different and have between 1 and [n+1]
    characters. *)
Theorem fulljet_NoDup (X U : list str) (n : nat) :
  single_chars X → single_chars U → NoDup (X ++ U) →
  ∃ F, fulljet X U n = Ok F ∧ NoDup F ∧ ∀ s, s ∈ F → 1 ≤ length s ≤ n + 1.
Proof.
  intros HX HU Hnd. exists (X ++ U ++ bands X U n).
  split; [apply fulljet_bands|]. rewrite <- (coords_eq X U HX HU Hnd n). split.
  - apply NoDup_app. split_and!.
    + by apply NoDup_app in Hnd as (? & _ & _).
    + intros s Hs Hc. by apply coords_not_label in Hc.
    + by apply coords_NoDup.
  - intros s [Hs|Hs]%elem_of_app.
    + rewrite (single_chars_elem X s HX Hs). lia.
    + by apply (coords_iter X U HX HU Hnd n s) in Hs as [? _].
Qed.

Lemma fulljet_NoDup_witness :
  ∃ F, fulljet [x_; y_] [u_; v_] 2 = Ok F ∧ NoDup F
     ∧ ∀ s, s ∈ F → 1 ≤ length s ≤ 2 + 1.
Proof.
  apply (fulljet_NoDup [x_; y_] [u_; v_] 2).
  - repeat constructor.
  - repeat constructor.
  - compute_done.
Defined.

(** *** The coefficients [Prolong] appends *)

Lemma binom_1 (n : nat) : binom n 1 = n.
Proof. induction n as [|n IH]; [done|]. simpl. rewrite binom_0_r. lia. Qed.

Lemma binom_ge (p k : nat) : 1 ≤ k → p ≤ binom (p + k - 1) k.
Proof.
  intros Hk. destruct p as [|p]; [lia|].
  induction k as [|k IH]; [lia|].
  destruct k as [|k].
  { replace (S p + 1 - 1) with (S p) by lia. by rewrite binom_1. }
  replace (S p + S (S k) - 1) with (S (S p + S k - 1)) by lia.
  change (binom (S ?a) (S ?b)) with (binom a b + binom a (S b)).
  specialize (IH ltac:(lia)). lia.
Qed.

Section collect.
Context (D : list str → list str → expr → nat → nat → result expr).
Context (X U : list str) (v : nat) (v0 : list expr).
Context (Hv0 : length X + length U ≤ length v0).

Lemma appends_nil (h : heap) : appends D X U v v0 h h [].
Proof. exists []. by rewrite app_nil_r. Qed.

Lemma appends_app (h1 h2 h3 : heap) (L1 L2 : list (list nat * nat)) :
  appends D X U v v0 h1 h2 L1 → appends D X U v v0 h2 h3 L2 →
  appends D X U v v0 h1 h3 (L1 ++ L2).
Proof.
  intros (cs1 & E1 & F1 & R1) (cs2 & E2 & F2 & R2). exists (cs1 ++ cs2).
  split_and!.
  - by rewrite E2, E1, app_assoc.
  - intros r Hr. by rewrite F2, F1.
  - by apply Forall2_app.
Qed.

Lemma appends_appended_from (h h' : heap) (L : list (list nat * nat)) :
  appended_from v v0 h → appends D X U v v0 h h' L → appended_from v v0 h'.
Proof.
  intros [cs0 E0] (cs & E & _). exists (cs0 ++ cs). by rewrite E, E0, app_assoc.
Qed.

Lemma for_each_collect {A} (body : heap → A → result heap)
    (spec : A → list (list nat * nat)) (l : list A) :
  (∀ a h h', a ∈ l → appended_from v v0 h → body h a = Ok h' →
             appends D X U v v0 h h' (spec a)) →
  ∀ h h', appended_from v v0 h → for_each body l h = Ok h' →
          appends D X U v v0 h h' (l ≫= spec).
Proof.
  induction l as [|a l IH]; intros Hb h h' Hi H; simpl in H.
  { injection H as <-. apply appends_nil. }
  destruct (body h a) as [h1|] eqn:E1; [|done]. simpl in H.
  assert (R1 : appends D X U v v0 h h1 (spec a)) by (apply Hb; [by left|done..]).
  apply (appends_app h h1 h'); [done|].
  apply IH; [|by eapply appends_appended_from|done].
  intros a' h2 h3 Ha'. apply Hb. by right.
Qed.

Lemma append_appends (h : heap) (J : list nat) (q : nat) (c : expr) :
  appended_from v v0 h → q < length U →
  Listing.phiAlpha D X U (contents h v) J q = Ok c →
  appends D X U v v0 h (append h v c) [(J, q)].
Proof using Hv0.
  intros [cs0 E0] Hq Hc. exists [c]. split_and!.
  - apply contents_append.
  - intros r Hr. unfold append. by rewrite lookup_insert_ne.
  - constructor; [|constructor]. simpl. rewrite E0 in Hc.
    rewrite phiAlpha_prefix in Hc; [done|lia].
Qed.

Lemma Prolong_loops (n : nat) (h h' : heap) :
  appended_from v v0 h →
  for_each (λ h i,
      for_each (λ h j,
        for_each (λ h q,
          Ji ← index (Listing.diffOrd (length X) n) i;
          Jij ← index Ji j;
          c ← Listing.phiAlpha D X U (contents h v) Jij q;
          Ok (append h v c)) (range (length U)) h) (range (length X)) h)
    (range n) h = Ok h' →
  appends D X U v v0 h h'
    (i ← range n; j ← range (length X); q ← range (length U);
     [(multi_index (length X) n i j, q)]).
Proof using Hv0.
  intros Hi H. eapply for_each_collect; [|done|exact H].
  intros i h1 h2 _ Hi1 H1. eapply for_each_collect; [|done|exact H1].
  intros j h3 h4 _ Hi3 H3. eapply for_each_collect; [|done|exact H3].
  intros q h5 h6 Hq Hi5 H5. apply elem_of_seq in Hq.
  destruct (index _ i) as [Ji|] eqn:Ei; [|done]. simpl in H5.
  destruct (index Ji j) as [Jij|] eqn:Ej; [|done]. simpl in H5.
  destruct (Listing.phiAlpha _ _ _ _ _ _) as [c|] eqn:Ec; [|done]. simpl in H5.
  injection H5 as <-. unfold multi_index, index in *.
  destruct (_ !! i) as [Ji'|]; [|done]. injection Ei as ->. simpl.
  destruct (Ji !! j) as [Jij'|]; [|done]. injection Ej as ->. simpl.
  apply append_appends; [done|lia|done].
Qed.

End collect.

Lemma fmap_lookups_take {A} (d : A) (l : list A) (p : nat) :
  p ≤ length l → (λ j, default d (l !! j)) <$> seq 0 p = take p l.
Proof.
  revert l. induction p as [|p IH]; intros l Hl; [done|].
  destruct l as [|a l]; [simpl in Hl; lia|]. simpl. f_equal.
  rewrite <- (IH l) by (simpl in Hl; lia).
  rewrite <- (fmap_S_seq 0 p), <- list_fmap_compose. done.
Qed.

Lemma diffOrd_entry_length (p n i : nat) (L : list (list nat)) :
  Listing.diffOrd p n !! i = Some L → p ≤ length L.
Proof.
  unfold Listing.diffOrd, range2. change (map ?f ?l) with (f <$> l).
  rewrite list_lookup_fmap. intros H.
  destruct (seq 1 _ !! i) as [k|] eqn:Ek; [|done]. simpl in H. injection H as <-.
  apply lookup_seq in Ek as [-> _]. rewrite cwr_length. unfold range.
  rewrite length_seq. apply binom_ge. lia.
Qed.

Lemma diffOrd_length (p n : nat) : length (Listing.diffOrd p n) = n.
Proof. unfold Listing.diffOrd, range2. rewrite length_map, length_seq. lia. Qed.

Lemma loops_visited (p q n : nat) :
  (i ← range n; j ← range p; q' ← range q; [(multi_index p n i j, q')])
  = visited p q n.
Proof.
  unfold visited, multi_index.
  assert (E : ∀ Ls : list (list (list nat)),
    (i ← seq 0 (length Ls); j ← range p; q' ← range q;
       [(default [] (default [] (Ls !! i) !! j), q')])
    = (J ← concat ((λ L, (λ j, default [] (L !! j)) <$> range p) <$> Ls);
       (λ q', (J, q')) <$> range q)).
  { induction Ls as [|L Ls IH]; [done|].
    cbn [length seq]. rewrite bind_cons. cbn [lookup list_lookup default].
    rewrite fmap_cons. cbn [concat]. rewrite bind_app. f_equal.
    - clear. induction (range p) as [|j l IH]; [done|].
      rewrite bind_cons, fmap_cons, bind_cons, IH. by f_equal.
    - rewrite <- IH. rewrite <- (fmap_S_seq 0), list_fmap_bind. done. }
  unfold range at 1. rewrite <- (diffOrd_length p n) at 1. rewrite E.
  f_equal. f_equal. apply list_fmap_ext. intros i L HL.
  apply fmap_lookups_take. by eapply diffOrd_entry_length.
Qed.

(** Whatever function the name [totDiv] is bound to and no label of [U]
    being empty: when the list behind [v] has at least [p+q] components
    and [Prolong(X,U,v,n)] returns, the
    list has grown by one coefficient for each visited pair, in the order
    of the loops; each coefficient is the value of [phiAlpha] for the
    components the call found, and no other list has changed. *)
Theorem Prolong_contents
    (D : list str → list str → expr → nat → nat → result expr)
    (X U : list str) (v n : nat) (h h' : heap) (r : nat) :
  [] ∉ U →
  length X + length U ≤ length (contents h v) →
  Listing.Prolong D X U v n h = Ok (r, h') →
  ∃ cs, contents h' v = contents h v ++ cs
      ∧ (∀ r', r' ≠ v → h' !! r' = h !! r')
      ∧ Forall2 (λ c Jq, Listing.phiAlpha D X U (contents h v) Jq.1 Jq.2 = Ok c)
          cs (visited (length X) (length U) n).
Proof.
  intros _ Hv H. unfold Listing.Prolong in H. cbv zeta in H.
  destruct (for_each _ _ _) as [h1|] eqn:E; [|done]. simpl in H.
  injection H as <- <-.
  rewrite <- loops_visited.
  apply (Prolong_loops D X U v (contents h v) Hv n h h1); [|exact E].
  exists []. by rewrite app_nil_r.
Qed.

Lemma Prolong_contents_witness :
  ∃ h', Listing.Prolong totDiv [x_] [u_] 0 2 {[0 := [Int 1; Int 0]]} = Ok (0, h')
      ∧ ∃ cs, contents h' 0 = contents ({[0 := [Int 1; Int 0]]} : heap) 0 ++ cs
            ∧ (∀ r', r' ≠ 0 → h' !! r' = ({[0 := [Int 1; Int 0]]} : heap) !! r')
            ∧ Forall2 (λ c Jq,
                  Listing.phiAlpha totDiv [x_] [u_]
                    (contents ({[0 := [Int 1; Int 0]]} : heap) 0) Jq.1 Jq.2 = Ok c)
                cs (visited (length [x_]) (length [u_]) 2).
Proof.
  eexists. split; [vm_compute; reflexivity|].
  apply (Prolong_contents totDiv [x_] [u_] 0 2 {[0 := [Int 1; Int 0]]} _ 0).
  - compute_done.
  - vm_compute. lia.
  - vm_compute. reflexivity.
Defined.

(** *** When [phiAlpha] and [Prolong] return *)

Lemma for_each_Ok_in {St A} (body : St → A → result St) (l : list A) :
  (∀ s a, a ∈ l → ∃ s', body s a = Ok s') →
  ∀ s, ∃ s', for_each body l s = Ok s'.
Proof.
  induction l as [|a l IH]; intros H s; [by eexists|]. simpl.
  destruct (H s a ltac:(by left)) as [s1 ->]. rewrite bind_Ok.
  apply IH. intros. apply H. by right.
Qed.

Section labels_phiAlpha.
Context (X U : list str).
Context (HX : single_chars X) (HU : single_chars U) (Hnd : NoDup (X ++ U)).
Context (v : list expr) (Hv : length X + length U ≤ length v).

Lemma phiAlpha_first_loop (q : nat) :
  q < length U →
  ∃ a, for_each (λ a i,
         xi_i ← index (take (length X) v) i;
         Uq ← index U q;
         Xi ← index X i;
         r ← uJalpha Uq Xi X U;
         s ← operand r;
         Ok (Add a (Mul xi_i s))) (range (length X)) (Int 0) = Ok a.
Proof using HX HU Hnd Hv.
  intros Hq. apply for_each_Ok_in. intros a i Hi%elem_of_seq.
  destruct (lookup_lt_is_Some_2 (take (length X) v) i) as [e He].
  { rewrite length_take. lia. }
  destruct (lookup_lt_is_Some_2 U q Hq) as [u Hu].
  destruct (lookup_lt_is_Some_2 X i ltac:(lia)) as [x Hx].
  rewrite (index_lookup _ _ _ He), bind_Ok, (index_lookup _ _ _ Hu), bind_Ok,
    (index_lookup _ _ _ Hx), bind_Ok.
  destruct (uJalpha_coords X U HX HU Hnd 0 u x) as (E & _).
  { apply elem_of_coords_U; [done..|]. by eapply list_elem_of_lookup_2. }
  { by eapply list_elem_of_lookup_2. }
  rewrite E. by eexists.
Qed.

Lemma phiAlpha_second_loop (J : list nat) (q : nat) :
  q < length U → Forall (λ j, j < length X) J →
  ∃ b, for_each (λ b i,
         xi_i ← index (take (length X) v) i;
         Uq ← index U q;
         r ← divUJi X U Uq J i;
         s ← operand r;
         Ok (Add b (Mul xi_i s))) (range (length X)) (Int 0) = Ok b.
Proof using HX HU Hnd Hv.
  intros Hq HJ. apply for_each_Ok_in. intros b i Hi%elem_of_seq.
  destruct (lookup_lt_is_Some_2 (take (length X) v) i) as [e He].
  { rewrite length_take. lia. }
  destruct (lookup_lt_is_Some_2 U q Hq) as [u Hu].
  destruct (lookup_lt_is_Some_2 X i ltac:(lia)) as [x Hx].
  rewrite (index_lookup _ _ _ He), bind_Ok, (index_lookup _ _ _ Hu), bind_Ok.
  destruct (divUJi_labels X U HX HU Hnd u J i x) as (r & E & _); [|done..|].
  { by eapply list_elem_of_lookup_2. }
  rewrite E. by eexists.
Qed.

Lemma phiAlpha_Ok (J : list nat) (q : nat) :
  q < length U → J ≠ [] → Forall (λ j, j < length X) J →
  ∃ c, Listing.phiAlpha totDiv X U v J q = Ok c.
Proof using HX HU Hnd Hv.
  intros Hq Hne HJ. unfold Listing.phiAlpha. cbv zeta.
  destruct (phiAlpha_first_loop q Hq) as [a ->]. rewrite bind_Ok.
  destruct (phiAlpha_second_loop J q Hq HJ) as [b ->]. rewrite bind_Ok.
  destruct (lookup_lt_is_Some_2 (drop (length X) v) q) as [e He].
  { rewrite length_drop. lia. }
  rewrite (index_lookup _ _ _ He), bind_Ok.
  destruct J as [|j J]; [done|]. rewrite Listing_TotDiv_for_each.
  destruct (for_each_totDiv_Ok X U (length (j :: J)) (j :: J) HX HU Hnd HJ
              (Sub e a)) as [c ->].
  by eexists.
Qed.

End labels_phiAlpha.

Lemma diffOrd_entry (p n i : nat) (L : list (list nat)) (w : list nat) :
  Listing.diffOrd p n !! i = Some L → w ∈ L →
  w ≠ [] ∧ Forall (λ j, j < p) w.
Proof.
  unfold Listing.diffOrd, range2. change (map ?f ?l) with (f <$> l).
  rewrite list_lookup_fmap. intros H Hw.
  destruct (seq 1 _ !! i) as [k|] eqn:Ek; [|done]. simpl in H. injection H as <-.
  apply lookup_seq in Ek as [-> _]. apply elem_of_cwr in Hw as [Hl Hin]. split.
  - intros ->. done.
  - apply Forall_forall. intros j Hj. apply Hin, elem_of_seq in Hj. lia.
Qed.

Lemma elem_of_visited (p q n : nat) (J : list nat) (q' : nat) :
  (J, q') ∈ visited p q n → q' < q ∧ J ≠ [] ∧ Forall (λ j, j < p) J.
Proof.
  unfold visited. intros (J' & Hq & HJ)%list_elem_of_bind.
  apply list_elem_of_fmap in Hq as (q'' & [= -> ->] & Hq%elem_of_seq).
  split; [lia|].
  apply list_elem_of_In, in_concat in HJ as (L & HL & HJ).
  apply list_elem_of_In, list_elem_of_fmap in HL as (L' & -> & HL').
  apply list_elem_of_lookup in HL' as [i Hi].
  apply (diffOrd_entry p n i L'); [done|].
  apply list_elem_of_In in HJ. eapply elem_of_sublist; [exact HJ|apply sublist_take].
Qed.

Lemma Prolong_Ok (X U : list str) (v n : nat) (h : heap) :
  single_chars X → single_chars U → NoDup (X ++ U) →
  length X + length U ≤ length (contents h v) →
  ∃ h', Listing.Prolong totDiv X U v n h = Ok (v, h').
Proof.
  intros HX HU Hnd Hv. unfold Listing.Prolong. cbv zeta.
  set (Inv := λ h1 : heap, ∃ cs, contents h1 v = contents h v ++ cs).
  assert (Hgen : ∀ {A} (body : heap → A → result heap) (l : list A),
    (∀ h1 a, a ∈ l → Inv h1 → ∃ h2, body h1 a = Ok h2 ∧ Inv h2) →
    ∀ h1, Inv h1 → ∃ h2, for_each body l h1 = Ok h2 ∧ Inv h2).
  { intros A body l. induction l as [|a l IH]; intros Hb h1 Hi; [by eexists|].
    simpl. destruct (Hb h1 a ltac:(by left) Hi) as (h2 & -> & Hi2).
    rewrite bind_Ok. apply IH; [|done]. intros. apply Hb; [by right|done]. }
  destruct (Hgen _ (λ h1 i,
      for_each (λ h2 j,
        for_each (λ h3 q,
          Ji ← index (Listing.diffOrd (length X) n) i;
          Jij ← index Ji j;
          c ← Listing.phiAlpha totDiv X U (contents h3 v) Jij q;
          Ok (append h3 v c)) (range (length U)) h2) (range (length X)) h1)
      (range n)) with h as (h' & -> & _).
  2:{ exists []. by rewrite app_nil_r. }
  2:{ by eexists. }
  intros h1 i Hi%elem_of_seq Hi1. apply Hgen; [|done].
  intros h2 j Hj%elem_of_seq Hi2. apply Hgen; [|done].
  intros h3 q Hq%elem_of_seq [cs Hi3].
  destruct (lookup_lt_is_Some_2 (Listing.diffOrd (length X) n) i) as [L HL].
  { rewrite diffOrd_length. lia. }
  destruct (lookup_lt_is_Some_2 L j) as [J HJ].
  { apply diffOrd_entry_length in HL. lia. }
  rewrite (index_lookup _ _ _ HL), bind_Ok, (index_lookup _ _ _ HJ), bind_Ok.
  destruct (diffOrd_entry _ _ _ _ J HL) as [Hne Hin].
  { by eapply list_elem_of_lookup_2. }
  destruct (phiAlpha_Ok X U HX HU Hnd (contents h3 v)) with (J := J) (q := q)
    as [c ->]; [|lia|done..|].
  { rewrite Hi3, length_app. lia. }
  rewrite bind_Ok. eexists. split; [done|].
  exists (cs ++ [c]). by rewrite contents_append, Hi3, app_assoc.
Qed.

(** For distinct single-character labels that sympy reads as symbols of
    their own names, none of them a name the notebook uses, with the name
    [totDiv] bound to cell 24's definition and a list behind [v] with at
    least [p+q] components, [Prolong(X,U,v,n)] returns; it returns the
    reference [v]. *)
Theorem Prolong_returns (sympify symbols : str → outcome str)
    (X U : list str) (v n : nat) (h : heap) :
  single_chars X → single_chars U → NoDup (X ++ U) →
  good_names sympify symbols X U (n + 1) →
  length X + length U ≤ length (contents h v) →
  ∃ h', NotebookListing.Prolong symbols (Notebook.totDiv sympify symbols)
          X U v n h = (h', Returns v).
Proof.
  intros HX HU Hnd Hg Hv.
  destruct (Prolong_Ok X U v n h HX HU Hnd Hv) as [h' E]. exists h'.
  by apply (Notebook_Prolong_labels sympify symbols X U HX HU Hnd).
Qed.

Lemma Prolong_returns_witness :
  ∃ h', NotebookListing.Prolong symbols_nonempty
          (Notebook.totDiv sympify_E symbols_nonempty) [x_; y_] [u_] 0 3
          {[0 := [Sym x_; Sym y_; Sym u_]]} = (h', Returns 0).
Proof.
  apply (Prolong_returns sympify_E symbols_nonempty [x_; y_] [u_] 0 3
           {[0 := [Sym x_; Sym y_; Sym u_]]}).
  - repeat constructor.
  - repeat constructor.
  - compute_done.
  - compute_done.
  - vm_compute. lia.
Defined.

Section labels_errors.
Context (X U : list str).
Context (HX : single_chars X) (HU : single_chars U) (Hnd : NoDup (X ++ U)).

Lemma divUJi_loop_IndexError (n : nat) (J : list nat) : ∀ f : str,
  Exists (λ j, length X ≤ j) J →
  f ∈ coords X U n → length f + length J ≤ n + 1 →
  for_each (λ (f : option str) j, x ← index X j; uJalpha (py_str f) x X U)
    J (Some f) = Raise IndexError.
Proof using HX HU Hnd.
  induction J as [|j J IH]; intros f Hex Hf Hlen.
  { by apply Exists_nil in Hex. }
  cbn [for_each]. simpl in Hlen.
  destruct (decide (j < length X)) as [Hj|Hj].
  - apply lookup_lt_is_Some in Hj as Hx. destruct Hx as [x Hx].
    assert (Hxin : x ∈ X) by by eapply list_elem_of_lookup_2.
    destruct (uJalpha_coords X U HX HU Hnd n f x Hf Hxin) as (Eu & _ & _).
    pose proof (resolved_length X U HX HU Hnd n f x Hf Hxin) as Hl.
    rewrite (index_lookup _ _ _ Hx), bind_Ok. cbn [py_str]. rewrite Eu, bind_Ok.
    apply IH.
    + apply Exists_cons in Hex as [?|?]; [lia|done].
    + apply (resolved_elem_of_coords X U HX HU Hnd n f x Hf Hxin). lia.
    + lia.
  - unfold index. rewrite lookup_ge_None_2 by lia. done.
Qed.

Lemma divUJi_IndexError (u : str) (J : list nat) (i : nat) :
  u ∈ U → Exists (λ j, length X ≤ j) J →
  divUJi X U u J i = Raise IndexError.
Proof using HX HU Hnd.
  intros Hu Hex. unfold divUJi.
  rewrite (for_each_index
    (λ (f : option str) j, x ← index X j; uJalpha (py_str f) x X U) J (Some u)).
  rewrite (divUJi_loop_IndexError (length J + 1)); [done|done| |].
  - by apply elem_of_coords_U.
  - rewrite (single_chars_elem U u HU Hu). lia.
Qed.

Context (v : list expr) (Hv : length X + length U ≤ length v).

Lemma TotDiv_no_label (P : expr) (n : nat) (J : list nat) :
  length X = 0 → Listing.TotDiv totDiv X U P n J = Raise IndexError.
Proof.
  intros Hp. destruct J as [|j J]; [done|].
  rewrite Listing_TotDiv_for_each. cbn [for_each].
  by rewrite totDiv_IndexError by lia.
Qed.

Lemma phiAlpha_IndexError (J : list nat) (q : nat) :
  length U ≤ q ∨ J = [] ∨ Exists (λ j, length X ≤ j) J →
  Listing.phiAlpha totDiv X U v J q = Raise IndexError.
Proof using HX HU Hnd Hv.
  intros Hbad. unfold Listing.phiAlpha. cbv zeta.
  destruct (decide (q < length U)) as [Hq|Hq].
  - destruct Hbad as [?|Hbad]; [lia|].
    destruct (phiAlpha_first_loop X U HX HU Hnd v Hv q Hq) as [a ->].
    rewrite bind_Ok.
    destruct (lookup_lt_is_Some_2 (drop (length X) v) q) as [e He].
    { rewrite length_drop. lia. }
    destruct Hbad as [->|Hex].
    + destruct (phiAlpha_second_loop X U HX HU Hnd v Hv [] q Hq) as [b ->];
        [constructor|].
      rewrite bind_Ok, (index_lookup _ _ _ He), bind_Ok. done.
    + destruct (decide (length X = 0)) as [Hp|Hp].
      * assert (Er0 : range (length X) = []) by (unfold range; by rewrite Hp).
        rewrite Er0. cbn [for_each].
        rewrite bind_Ok, (index_lookup _ _ _ He), bind_Ok.
        by rewrite TotDiv_no_label.
      * destruct (lookup_lt_is_Some_2 (take (length X) v) 0) as [e0 He0].
        { rewrite length_take. lia. }
        destruct (lookup_lt_is_Some_2 U q Hq) as [u Hu].
        assert (Er : range (length X) = 0 :: seq 1 (length X - 1)).
        { unfold range. destruct (length X); [done|]. simpl. by rewrite Nat.sub_0_r. }
        rewrite Er. cbn [for_each].
        rewrite (index_lookup _ _ _ He0), bind_Ok, (index_lookup _ _ _ Hu), bind_Ok.
        rewrite divUJi_IndexError; [done| |done].
        by eapply list_elem_of_lookup_2.
  - destruct (decide (length X = 0)) as [Hp|Hp].
    + assert (Er0 : range (length X) = []) by (unfold range; by rewrite Hp).
      rewrite Er0. cbn [for_each]. rewrite !bind_Ok.
      destruct (index _ q) as [e|[]] eqn:Ei; try done.
      * rewrite bind_Ok. by rewrite TotDiv_no_label.
      * unfold index in Ei. by destruct (_ !! q).
      * unfold index in Ei. by destruct (_ !! q).
      * unfold index in Ei. by destruct (_ !! q).
    + destruct (lookup_lt_is_Some_2 (take (length X) v) 0) as [e0 He0].
      { rewrite length_take. lia. }
      assert (Er : range (length X) = 0 :: seq 1 (length X - 1)).
      { unfold range. destruct (length X); [done|]. simpl. by rewrite Nat.sub_0_r. }
      rewrite Er. cbn [for_each].
      rewrite (index_lookup _ _ _ He0), bind_Ok.
      assert (Eq : index U q = Raise IndexError).
      { unfold index. by rewrite (lookup_ge_None_2 U q) by lia. }
      by rewrite Eq.
Qed.

End labels_errors.

(** For distinct single-character labels that sympy reads as symbols of
    their own names, none of them a name the notebook uses, with the name
    [totDiv] bound to cell 24's definition, a generator [v] with at least
    [p+q] components and positions counted from 0: [phiAlpha(X,U,v,J,q)]
    returns when [q] is a position of [U] and [J] is a non-empty list of
    positions of [X]; it raises [IndexError] when [q] is [len(U)] or
    more, when [J] is empty and when [J] has an entry from [len(X)] on. *)
Theorem phiAlpha_returns (sympify symbols : str → outcome str)
    (X U : list str) (v : list expr) (J : list nat) (q : nat) :
  single_chars X → single_chars U → NoDup (X ++ U) →
  good_names sympify symbols X U (length J + 1) →
  length X + length U ≤ length v →
  (q < length U ∧ J ≠ [] ∧ Forall (λ j, j < length X) J →
     ∃ c, NotebookListing.phiAlpha symbols (Notebook.totDiv sympify symbols)
            X U v J q = Returns c)
  ∧ (length U ≤ q ∨ J = [] ∨ Exists (λ j, length X ≤ j) J →
     NotebookListing.phiAlpha symbols (Notebook.totDiv sympify symbols)
       X U v J q = Raises IndexError).
Proof.
  intros HX HU Hnd Hg Hv.
  rewrite (Notebook_phiAlpha_labels sympify symbols X U HX HU Hnd) by done. split.
  - intros (Hq & Hne & HJ).
    destruct (phiAlpha_Ok X U HX HU Hnd v Hv J q Hq Hne HJ) as [c ->]. by exists c.
  - intros Hbad. by rewrite (phiAlpha_IndexError X U HX HU Hnd v Hv J q Hbad).
Qed.

Lemma phiAlpha_returns_witness :
  (∃ c, NotebookListing.phiAlpha symbols_nonempty
          (Notebook.totDiv sympify_E symbols_nonempty)
          [x_; y_] [u_] [Sym x_; Int 0; Sym u_] [0; 1] 0 = Returns c)
  ∧ NotebookListing.phiAlpha symbols_nonempty
      (Notebook.totDiv sympify_E symbols_nonempty)
      [x_; y_] [u_] [Sym x_; Int 0; Sym u_] [0; 2] 0 = Raises IndexError.
Proof.
  split.
  - apply (phiAlpha_returns sympify_E symbols_nonempty [x_; y_] [u_]
             [Sym x_; Int 0; Sym u_] [0; 1] 0).
    + repeat constructor.
    + repeat constructor.
    + compute_done.
    + compute_done.
    + simpl. lia.
    + split; [simpl; lia|]. split; [done|]. repeat constructor.
  - apply (phiAlpha_returns sympify_E symbols_nonempty [x_; y_] [u_]
             [Sym x_; Int 0; Sym u_] [0; 2] 0).
    + repeat constructor.
    + repeat constructor.
    + compute_done.
    + compute_done.
    + simpl. lia.
    + right. right. apply Exists_cons. right. apply Exists_cons. left. simpl. lia.
Defined.

(** *** The deduplication loop keeps first occurrences *)

Lemma filter_filter_comm {A} (P Q : A → Prop)
    `{∀ x, Decision (P x)} `{∀ x, Decision (Q x)} (l : list A) :
  filter P (filter Q l) = filter Q (filter P l).
Proof.
  induction l as [|a l IH]; [done|].
  destruct (decide (P a)) as [HP|HP]; destruct (decide (Q a)) as [HQ|HQ].
  - rewrite (filter_cons_True Q), !(filter_cons_True P), (filter_cons_True Q), IH; done.
  - rewrite (filter_cons_False Q), (filter_cons_True P), (filter_cons_False Q), IH; done.
  - rewrite (filter_cons_True Q), !(filter_cons_False P), IH; done.
  - rewrite (filter_cons_False Q), (filter_cons_False P), IH; done.
Qed.

Lemma filter_nub (P : str → Prop) `{∀ x, Decision (P x)} (l : list str) :
  (∀ a b, sorted a = sorted b → P a → P b) →
  filter P (nub l) = nub (filter P l).
Proof.
  intros HP. induction l as [|x l IH]; [done|]. simpl.
  destruct (decide (P x)) as [Hx|Hx].
  - rewrite !filter_cons_True by done. simpl. f_equal.
    by rewrite filter_filter_comm, IH.
  - rewrite !filter_cons_False by done. rewrite <- IH.
    rewrite filter_filter_comm. apply filter_all.
    intros y [Hy _]%list_elem_of_filter E. apply Hx. by apply (HP y x).
Qed.

Lemma nub_sublist (l : list str) : nub l `sublist_of` l.
Proof.
  induction l as [|x l IH]; [done|]. simpl. apply sublist_skip.
  etrans; [apply sublist_filter|done].
Qed.

Lemma njet_outer_nub (todo : nat) : ∀ A B,
  length (A ++ B) ≤ length A + todo →
  NoDup (A ++ B) →
  (∀ C z y, B = C ++ [z] → y ∈ C → sorted y ≠ sorted z) →
  njet_outer (seq (length A) todo) (A ++ B) = Ok (A ++ nub B).
Proof.
  induction todo as [|todo IH]; intros A B Hlen Hnd Hlast.
  { rewrite length_app in Hlen. destruct B; [|simpl in Hlen; lia]. done. }
  simpl seq. cbn [njet_outer].
  destruct B as [|x B].
  { rewrite app_nil_r in *.
    replace (length A - 1 - (length A + 1)) with 0 by lia. simpl.
    rewrite decide_True by lia. by rewrite app_nil_r. }
  destruct B as [|z C _] using rev_ind.
  { rewrite length_app. simpl.
    replace (length A + 1 - 1 - (length A + 1)) with 0 by lia. simpl.
    rewrite decide_True by (rewrite length_app; simpl; lia). done. }
  replace (length (A ++ x :: C ++ [z]) - 1 - (length A + 1)) with (length C)
    by (rewrite !length_app; simpl; rewrite length_app; simpl; lia).
  pose proof (njet_inner_NoDup C A x [] z) as Hin. simpl in Hin.
  rewrite Nat.add_0_r in Hin. rewrite Hin by done. clear Hin. simpl.
  set (C' := filter (λ y, sorted x ≠ sorted y) C).
  assert (HsubC : C' `sublist_of` C) by apply sublist_filter.
  assert (Hxz : sorted x ≠ sorted z).
  { apply (Hlast (x :: C) z x); [done|by left]. }
  assert (Hnub : filter (λ y, sorted x ≠ sorted y) (nub (C ++ [z])) = nub (C' ++ [z])).
  { rewrite filter_nub by congruence. rewrite filter_app.
    by rewrite (filter_cons_True _ z), filter_nil. }
  rewrite Hnub.
  destruct (decide _) as [Hbrk|Hbrk].
  - assert (C' = []) as ->; [|done].
    rewrite !length_app in Hbrk. simpl in Hbrk. rewrite length_app in Hbrk.
    simpl in Hbrk. destruct C'; [done|simpl in Hbrk; lia].
  - specialize (IH (A ++ [x]) (C' ++ [z])).
    replace (length (A ++ [x])) with (S (length A)) in IH
      by (rewrite length_app; simpl; lia).
    rewrite <- !app_assoc in IH. simpl in IH. apply IH.
    + rewrite !length_app in Hlen |- *. simpl in *. rewrite length_app in Hlen |- *.
      simpl in *. apply sublist_length in HsubC. lia.
    + eapply sublist_NoDup; [exact Hnd|].
      apply sublist_app; [done|]. apply sublist_skip. by apply sublist_app.
    + intros C0 z0 y [EC Ez]%app_inj_tail Hy. subst z0. rewrite <- EC in Hy.
      apply (Hlast (x :: C) z y); [done|]. right. by eapply elem_of_sublist.
Qed.

Lemma njet_dedup_nub (J : list str) :
  NoDup J →
  (∀ C z y, J = C ++ [z] → y ∈ C → sorted y ≠ sorted z) →
  njet_dedup J = Ok (nub J).
Proof.
  intros Hnd Hlast.
  apply (njet_outer_nub (length J) [] J); [simpl; lia|done|done].
Qed.

(** *** First occurrences in a concatenation *)

Lemma nub_app (A B : list str) :
  nub (A ++ B)
  = nub A ++ nub (filter (λ b, Forall (λ a, sorted a ≠ sorted b) A) B).
Proof.
  induction A as [|a A IH]; simpl.
  { f_equal. symmetry. apply filter_all. intros; constructor. }
  f_equal. rewrite IH, filter_app. f_equal.
  rewrite filter_nub by congruence. f_equal.
  rewrite list_filter_filter. apply list_filter_iff. intros b.
  rewrite Forall_cons. tauto.
Qed.

Lemma nub_app_disjoint (A B : list str) :
  (∀ a b, a ∈ A → b ∈ B → sorted a ≠ sorted b) →
  nub (A ++ B) = nub A ++ nub B.
Proof.
  intros H. rewrite nub_app. f_equal. f_equal. apply filter_all.
  intros b Hb. apply Forall_forall. intros a Ha. by apply H.
Qed.

(** *** The symbols [njet] returns, in order *)

Lemma concat_Permutation {A} (ws ws' : list (list A)) :
  ws ≡ₚ ws' → concat ws ≡ₚ concat ws'.
Proof.
  induction 1 as [|w ws ws' _ IH|w w' ws|ws1 ws2 ws3 _ IH1 _ IH2]; simpl.
  - done.
  - by rewrite IH.
  - rewrite !app_assoc. f_equiv. apply Permutation_app_comm.
  - by rewrite IH1.
Qed.

Lemma filter_bind {A B} (P : B → Prop) `{∀ x, Decision (P x)}
    (f : A → list B) (l : list A) :
  filter P (l ≫= f) = l ≫= (λ a, filter P (f a)).
Proof.
  induction l as [|a l IH]; [done|]. by rewrite !bind_cons, filter_app, IH.
Qed.

Lemma filter_fmap {A B} (P : B → Prop) `{∀ x, Decision (P x)}
    (f : A → B) (l : list A) :
  filter P (f <$> l) = f <$> filter (λ a, P (f a)) l.
Proof.
  induction l as [|a l IH]; [done|]. rewrite fmap_cons.
  destruct (decide (P (f a))) as [Ha|Ha].
  - rewrite !filter_cons_True by done. by rewrite fmap_cons, IH.
  - rewrite !filter_cons_False by done. done.
Qed.

Lemma filter_ext_in {A} (P Q : A → Prop) `{∀ x, Decision (P x)}
    `{∀ x, Decision (Q x)} (l : list A) :
  (∀ a, a ∈ l → (P a ↔ Q a)) → filter P l = filter Q l.
Proof.
  induction l as [|a l IH]; intros H1; [done|].
  assert (Ha : P a ↔ Q a) by (apply H1; by left).
  assert (IH' : filter P l = filter Q l) by (apply IH; intros; apply H1; by right).
  destruct (decide (P a)) as [HP|HP].
  - rewrite !filter_cons_True by tauto. by rewrite IH'.
  - rewrite !filter_cons_False by tauto. done.
Qed.

Lemma fmap_bind_list {A B C} (f : B → C) (g : A → list B) (l : list A) :
  f <$> (l ≫= g) = l ≫= (λ a, f <$> g a).
Proof.
  induction l as [|a l IH]; [done|]. by rewrite !bind_cons, fmap_app, IH.
Qed.

Lemma bind_bind_list {A B C} (f : A → list B) (g : B → list C) (l : list A) :
  (l ≫= f) ≫= g = l ≫= (λ a, f a ≫= g).
Proof.
  induction l as [|a l IH]; [done|]. by rewrite !bind_cons, bind_app, IH.
Qed.

Lemma bind_ext_in {A B} (f g : A → list B) (l : list A) :
  (∀ a, a ∈ l → f a = g a) → l ≫= f = l ≫= g.
Proof.
  induction l as [|a l IH]; intros H; [done|]. rewrite !bind_cons.
  rewrite H by left. f_equal. apply IH. intros. apply H. by right.
Qed.

Lemma elem_of_tuples (k : nat) : ∀ (P : list str) (ws : list str),
  ws ∈ tuples k P ↔ length ws = k ∧ ∀ x, x ∈ ws → x ∈ P.
Proof.
  induction k as [|k IH]; intros P ws; simpl.
  - rewrite list_elem_of_singleton. split.
    + intros ->. split; [done|]. by intros x ?%elem_of_nil.
    + intros [Hl _]. by destruct ws.
  - rewrite list_elem_of_bind. split.
    + intros (x & (ws' & -> & Hws')%list_elem_of_fmap & Hx).
      apply IH in Hws' as [Hl Hin]. split; [simpl; lia|].
      intros y [->|Hy]%elem_of_cons; auto.
    + intros [Hl Hin]. destruct ws as [|x ws]; [done|].
      exists x. split; [|apply Hin; by left].
      apply list_elem_of_fmap. exists ws. split; [done|].
      apply IH. split; [simpl in Hl; lia|]. intros y Hy. apply Hin. by right.
Qed.

Lemma filter_tuples (k : nat) (x : str) (P : list str) :
  x ∉ P →
  filter (λ ws, x ∉ ws) (tuples k (x :: P)) = tuples k P.
Proof.
  intros Hx. induction k as [|k IH]; cbn [tuples].
  { rewrite filter_cons_True; [done|]. by intros ?%elem_of_nil. }
  rewrite bind_cons, filter_app, filter_fmap.
  rewrite (filter_none (λ ws, x ∉ x :: ws)).
  2:{ intros ws _ H. apply H. by left. }
  rewrite fmap_nil, app_nil_l, filter_bind. apply bind_ext_in. intros y Hy.
  rewrite filter_fmap. f_equal. rewrite <- IH. apply filter_ext_in.
  intros ws _. rewrite not_elem_of_cons. split; [tauto|].
  intros H. split; [|done]. by intros ->.
Qed.

Lemma iter_jet_tuples (X : list str) (k : nat) : ∀ U : list str,
  Nat.iter k (jet X) U = u ← U; (λ ws, u ++ concat ws) <$> tuples k X.
Proof.
  induction k as [|k IH]; intros U.
  { simpl. induction U as [|u U IHU]; [done|].
    rewrite bind_cons. simpl. by rewrite app_nil_r, <- IHU. }
  rewrite Nat.iter_succ_r, IH. unfold jet. rewrite bind_bind_list.
  apply bind_ext_in. intros u _. rewrite list_fmap_bind. simpl.
  rewrite fmap_bind_list. apply bind_ext_in. intros x _.
  rewrite <- list_fmap_compose. apply list_fmap_ext. intros _ ws _. simpl.
  by rewrite app_assoc.
Qed.

Lemma nub_tuples (k : nat) : ∀ (P : list str) (pre : str),
  single_chars P → NoDup P →
  nub ((λ ws, pre ++ concat ws) <$> tuples k P)
  = (λ ws, pre ++ concat ws) <$> Listing.combinations_with_replacement k P.
Proof.
  induction k as [|k IHk]; intros P pre HP Hnd; [done|].
  induction P as [|x P IHP]; [done|].
  assert (HP' : single_chars P) by by apply Forall_cons in HP as [_ ?].
  apply NoDup_cons in Hnd as Hnd'. destruct Hnd' as [Hx HndP].
  rewrite cwr_cons, fmap_app.
  cbn [tuples]. rewrite bind_cons, fmap_app, nub_app.
  change (x ← x :: P; cons x <$> tuples k (x :: P)) with (tuples (S k) (x :: P)).
  f_equal.
  - rewrite <- !list_fmap_compose.
    rewrite (list_fmap_ext _ (λ ws, (pre ++ x) ++ concat ws) (tuples k (x :: P)))
      by (intros; simpl; by rewrite app_assoc).
    rewrite (IHk (x :: P) (pre ++ x) HP Hnd).
    apply list_fmap_ext. intros; simpl; by rewrite app_assoc.
  - rewrite <- (IHP HP' HndP). f_equal.
    rewrite filter_fmap. f_equal.
    trans (filter (λ ws, x ∉ ws) (P ≫= λ y, cons y <$> tuples k (x :: P))).
    2:{ rewrite filter_bind. cbn [tuples]. apply bind_ext_in. intros y Hy.
        rewrite filter_fmap. f_equal. rewrite <- (filter_tuples k x P Hx).
        apply filter_ext_in. intros ws _. rewrite not_elem_of_cons.
        split; [tauto|]. intros H. split; [|done]. by intros ->. }
    apply filter_ext_in.
    intros b Hb.
    assert (Hb' : b ∈ tuples (S k) (x :: P)).
    { cbn [tuples]. rewrite bind_cons. apply elem_of_app. by right. }
    apply elem_of_tuples in Hb' as [Hbl Hbin].
    assert (Hb1 : single_chars b) by by apply (single_chars_incl (x :: P)).
    split.
    + intros HQ Hxb. rewrite Forall_forall in HQ.
      apply elem_of_Permutation in Hxb as [ws Hp].
      apply (HQ (pre ++ concat (x :: ws))).
      * apply list_elem_of_fmap. exists (x :: ws). split; [done|].
        apply list_elem_of_fmap. exists ws. split; [done|].
        apply elem_of_tuples. split.
        -- apply Permutation_length in Hp. simpl in Hp. lia.
        -- intros y Hy. apply Hbin. rewrite Hp. by right.
      * apply sorted_Permutation. f_equiv. apply concat_Permutation. by symmetry.
    + intros Hxb. apply Forall_forall.
      intros a (a_t & -> & (ws & -> & Hws)%list_elem_of_fmap)%list_elem_of_fmap E.
      apply sorted_Permutation, Permutation_app_inv_l in E.
      apply elem_of_tuples in Hws as [_ Hws].
      apply single_chars_Permutation in E; [| |done].
      * apply Hxb. rewrite <- E. by left.
      * apply (single_chars_incl (x :: P)); [done|].
        intros y [->|Hy]%elem_of_cons; [by left|by apply Hws].
Qed.

Section labels_symbols.
Context (X U : list str).
Context (HX : single_chars X) (HU : single_chars U) (Hnd : NoDup (X ++ U)).

Lemma nub_blocks (k : nat) (U' : list str) :
  NoDup U' → (∀ u, u ∈ U' → u ∈ U) →
  nub (u ← U'; (λ ws, u ++ concat ws) <$> tuples k X)
  = u ← U'; (λ ws, u ++ concat ws) <$> Listing.combinations_with_replacement k X.
Proof using HX HU Hnd.
  assert (HndX : NoDup X) by by apply NoDup_app in Hnd as (? & _ & _).
  induction U' as [|u U' IH]; intros Hnd' Hin; [done|].
  apply NoDup_cons in Hnd' as [Hu Hnd'].
  rewrite !bind_cons, nub_app_disjoint.
  - rewrite nub_tuples by done. f_equal. apply IH; [done|].
    intros u' Hu'. apply Hin. by right.
  - intros a b (ws & -> & Hws)%list_elem_of_fmap
      (u' & (ws' & -> & Hws')%list_elem_of_fmap & Hu')%list_elem_of_bind E.
    apply elem_of_tuples in Hws as [_ Hws], Hws' as [_ Hws'].
    destruct (symbol_chars X U HX HU Hnd u u' ws ws') as [-> _]; try done.
    + apply Hin. by left.
    + apply Hin. by right.
Qed.

Lemma njet_cwr (k : nat) :
  njet X U k
  = Ok (u ← U; (λ ws, u ++ concat ws) <$> Listing.combinations_with_replacement k X).
Proof using HX HU Hnd.
  assert (HndX : NoDup X) by by apply NoDup_app in Hnd as (? & _ & _).
  assert (HndU : NoDup U) by by apply NoDup_app in Hnd as (_ & _ & ?).
  unfold njet. rewrite njet_dedup_nub.
  - rewrite iter_jet_tuples. f_equal. by apply nub_blocks.
  - by apply NoDup_iter_jet.
  - by apply iter_jet_last_unique_U.
Qed.

End labels_symbols.

(** For distinct single-character labels, [njet(X,U,k)] lists, for each
    dependent variable in turn, the symbols [u + x1 + ... + xk] for the
    combinations with replacement of [k] labels of [X], in the order
    [combinations_with_replacement] yields them. *)
Theorem njet_symbols (X U : list str) (k : nat) :
  single_chars X → single_chars U → NoDup (X ++ U) →
  njet X U k
  = Ok (u ← U; (λ ws, u ++ concat ws) <$> Listing.combinations_with_replacement k X).
Proof.
  intros HX HU Hnd.
  assert (HndX : NoDup X) by by apply NoDup_app in Hnd as (? & _ & _).
  assert (HndU : NoDup U) by by apply NoDup_app in Hnd as (_ & _ & ?).
  unfold njet. rewrite njet_dedup_nub.
  - rewrite iter_jet_tuples. f_equal. by apply (nub_blocks X U HX HU Hnd).
  - by apply NoDup_iter_jet.
  - by apply (iter_jet_last_unique_U X U HX HU Hnd).
Qed.

Lemma njet_symbols_witness :
  njet [x_; y_] [u_; v_] 2
  = Ok (u ← [u_; v_]; (λ ws, u ++ concat ws)
                        <$> Listing.combinations_with_replacement 2 [x_; y_]).
Proof.
  apply (njet_symbols [x_; y_] [u_; v_] 2).
  - repeat constructor.
  - repeat constructor.
  - compute_done.
Defined.

(** *** Symbols and multi-indices line up *)

Lemma cwr_fmap {A B} (f : A → B) (k : nat) : ∀ pool : list A,
  @Listing.combinations_with_replacement B k (f <$> pool)
  = (λ w : list A, f <$> w) <$> @Listing.combinations_with_replacement A k pool.
Proof.
  induction k as [|k IHk]; intros pool; [done|].
  induction pool as [|a pool IHp]; [done|].
  rewrite fmap_cons, !cwr_cons, fmap_app, IHp. f_equal.
  rewrite <- fmap_cons, IHk, <- !list_fmap_compose. done.
Qed.

Lemma labels_at_range (X : list str) : labels_at X (range (length X)) = X.
Proof.
  unfold labels_at, range. rewrite fmap_lookups_take by done. apply take_ge. lia.
Qed.

(** For distinct single-character labels and [1 <= k <= n], the symbols
    of [njet(X,U,k)] for one dependent variable are, position by position,
    the labels at the order-[k] multi-indices of [diffOrd(len(X),n)]. *)
Theorem njet_diffOrd (X U : list str) (n k : nat) :
  single_chars X → single_chars U → NoDup (X ++ U) → 1 ≤ k ≤ n →
  ∃ L, Listing.diffOrd (length X) n !! (k - 1) = Some L
     ∧ njet X U k = Ok (u ← U; (λ J, u ++ concat (labels_at X J)) <$> L).
Proof.
  intros HX HU Hnd Hk. eexists. split; [by apply diffOrd_lookup|].
  rewrite (njet_cwr X U HX HU Hnd k). f_equal.
  assert (E : Listing.combinations_with_replacement k X
              = labels_at X <$> Listing.combinations_with_replacement k (range (length X))).
  { unfold labels_at. rewrite <- cwr_fmap. f_equal. symmetry. apply labels_at_range. }
  rewrite E. apply bind_ext_in. intros u _.
  by rewrite <- list_fmap_compose.
Qed.

Lemma njet_diffOrd_witness :
  ∃ L, Listing.diffOrd (length [x_; y_]) 2 !! (2 - 1) = Some L
     ∧ njet [x_; y_] [u_] 2
       = Ok (u ← [u_]; (λ J, u ++ concat (labels_at [x_; y_] J)) <$> L).
Proof.
  apply (njet_diffOrd [x_; y_] [u_] 2 2).
  - repeat constructor.
  - repeat constructor.
  - compute_done.
  - lia.
Defined.

(** *** Generators with constant coefficients *)

Section vanishing.
Local Open Scope Z_scope.

Lemma vanishes_eval (m : nat) (e : expr) (ι : interp) :
  vanishes m e → eval ι e = 0.
Proof. destruct m; intros [H _]; apply H. Qed.

Lemma vanishes_mono (m : nat) : ∀ e, vanishes (S m) e → vanishes m e.
Proof.
  induction m as [|m IH]; intros e [H0 H1].
  - split; done.
  - split; [done|]. intros s. apply IH, H1.
Qed.

Lemma vanishes_diff (m : nat) (e : expr) (s : str) :
  vanishes (S m) e → vanishes m (diff e s).
Proof. intros [_ H]. apply H. Qed.

Lemma vanishes_Int0 (m : nat) : vanishes m (Int 0).
Proof.
  induction m as [|m IH].
  - split; done.
  - split; [done|]. intros s. exact IH.
Qed.

Lemma vanishes_Add (m : nat) : ∀ a b,
  vanishes m a → vanishes m b → vanishes m (Add a b).
Proof.
  induction m as [|m IH]; intros a b Ha Hb.
  - split; [|done]. intros ι. simpl.
    by rewrite (vanishes_eval _ _ _ Ha), (vanishes_eval _ _ _ Hb).
  - split.
    + intros ι. simpl.
      by rewrite (vanishes_eval _ _ _ Ha), (vanishes_eval _ _ _ Hb).
    + intros s. simpl. apply IH; by apply vanishes_diff.
Qed.

Lemma vanishes_Mul (m : nat) : ∀ a b,
  vanishes m a ∨ vanishes m b → vanishes m (Mul a b).
Proof.
  induction m as [|m IH]; intros a b H.
  - split; [|done]. intros ι. simpl.
    destruct H as [H|H]; rewrite (vanishes_eval _ _ _ H); lia.
  - split.
    + intros ι. simpl. destruct H as [H|H]; rewrite (vanishes_eval _ _ _ H); lia.
    + intros s. simpl. destruct H as [H|H].
      * apply vanishes_Add; apply IH; left;
          [by apply vanishes_diff|by apply vanishes_mono].
      * apply vanishes_Add; apply IH; right;
          [by apply vanishes_mono|by apply vanishes_diff].
Qed.

End vanishing.

Section flatness.

Lemma flat_mono (m : nat) (e : expr) : flat (S m) e → flat m e.
Proof. intros H s t. apply vanishes_mono, H. Qed.

Lemma flat_0 (m : nat) (e : expr) : flat m e → flat 0 e.
Proof. induction m as [|m IH]; [done|]. intros H. by apply IH, flat_mono. Qed.

Lemma flat_Int (m : nat) (z : Z) : flat m (Int z).
Proof. intros s t. simpl. apply vanishes_Int0. Qed.

Lemma flat_Sym (m : nat) (r : str) : flat m (Sym r).
Proof.
  intros s t. simpl. destruct (decide (r = s)); simpl; apply vanishes_Int0.
Qed.

Lemma flat_Add (m : nat) (a b : expr) : flat m a → flat m b → flat m (Add a b).
Proof. intros Ha Hb s t. simpl. by apply vanishes_Add. Qed.

Lemma flat_Mul (m : nat) (a b : expr) :
  flat m a → (∀ s, vanishes m (diff a s)) → flat m b → flat m (Mul a b).
Proof.
  intros Ha Ha' Hb s t. cbn [diff].
  repeat apply vanishes_Add; apply vanishes_Mul; auto.
Qed.

Lemma flat_Mul_Int (m : nat) (c : Z) (e : expr) : flat m e → flat m (Mul (Int c) e).
Proof.
  intros He. apply flat_Mul; [apply flat_Int| |done].
  intros s. simpl. apply vanishes_Int0.
Qed.

Lemma flat_diff (m : nat) (e : expr) (x : str) : flat (S m) e → flat m (diff e x).
Proof. intros He s t. apply vanishes_diff, He. Qed.

Lemma flat_fold {A} (m : nat) (f : A → expr) (g : A → str) (l : list A) :
  (∀ a, flat m (Mul (f a) (Sym (g a)))) →
  ∀ e0, flat m e0 →
  flat m (fold_left (λ e a, Add e (Mul (f a) (Sym (g a)))) l e0).
Proof.
  intros Hf. induction l as [|a l IH]; intros e0 He0; [done|].
  simpl. apply IH. by apply flat_Add.
Qed.

Lemma flat_chain (X U : list str) (n m : nat) (P : expr) (x : str) :
  flat (S m) P → flat m (chain X U n P x).
Proof.
  intros HP. unfold chain, chain_sum.
  apply (flat_fold m (diff P) (λ s, resolved X U s x)).
  - intros s. apply flat_Mul; [by apply flat_diff| |apply flat_Sym].
    intros t. apply vanishes_mono, HP.
  - by apply flat_diff.
Qed.

End flatness.

Section linear.
Local Open Scope Z_scope.

Lemma sumZ_fmap {A B} (f : B → Z) (h : A → B) (l : list A) :
  sumZ f (h <$> l) = sumZ (λ a, f (h a)) l.
Proof.
  induction l as [|a l IH]; [done|].
  change (sumZ f (h <$> a :: l)) with (f (h a) + sumZ f (h <$> l)).
  by rewrite IH.
Qed.

Lemma eval_fold_lin {A} (ι : interp) (f : A → expr) (g : A → str) (l : list A) :
  ∀ e0,
  eval ι (fold_left (λ e a, Add e (Mul (f a) (Sym (g a)))) l e0)
  = eval ι e0 + sumZ (λ a, eval ι (f a) * sym_val ι (g a)) l.
Proof.
  induction l as [|a l IH]; intros e0; simpl.
  - unfold sumZ. simpl. lia.
  - rewrite IH. unfold sumZ. simpl. lia.
Qed.

Lemma eval_diff_fold_lin {A} (ι : interp) (f : A → expr) (g : A → str)
    (t : str) (l : list A) : ∀ e0,
  eval ι (diff (fold_left (λ e a, Add e (Mul (f a) (Sym (g a)))) l e0) t)
  = eval ι (diff e0 t)
    + sumZ (λ a, eval ι (diff (f a) t) * sym_val ι (g a)
                 + eval ι (f a) * (if decide (g a = t) then 1 else 0)) l.
Proof.
  induction l as [|a l IH]; intros e0; simpl.
  - unfold sumZ. simpl. lia.
  - rewrite IH. unfold sumZ. simpl. destruct (decide (g a = t)); simpl; lia.
Qed.

Lemma lin_coef_cons (c : Z) (s : str) (l : list (Z * str)) (t : str) :
  lin_coef ((c, s) :: l) t = c * (if decide (s = t) then 1 else 0) + lin_coef l t.
Proof. reflexivity. Qed.

(** A sum over a list without repetitions of the coefficients of a linear
    combination whose symbols are all in the list. *)
Lemma sumZ_lin_coef (g : str → Z) (L : list str) (l : list (Z * str)) :
  NoDup L → Forall (λ cs, cs.2 ∈ L) l →
  sumZ (λ s, lin_coef l s * g s) L = sumZ (λ cs, cs.1 * g cs.2) l.
Proof.
  intros HL. induction l as [|[c s] l IH]; intros Hl.
  { apply sumZ_none. intros; unfold lin_coef, sumZ; simpl; lia. }
  apply Forall_cons in Hl as [Hs Hl]. simpl in Hs.
  rewrite (sumZ_ext_in _ (λ t, (if decide (s = t) then 1 else 0) * (c * g t)
                               + lin_coef l t * g t)).
  2:{ intros t _. rewrite lin_coef_cons. lia. }
  rewrite sumZ_plus, sumZ_indicator by done. rewrite decide_True by done.
  rewrite IH by done. unfold sumZ. simpl. lia.
Qed.

End linear.

Section constant_coefficients.
Local Open Scope Z_scope.
Context (X U : list str).
Context (HX : single_chars X) (HU : single_chars U) (Hnd : NoDup (X ++ U)).

Lemma coords_le (N n : nat) (s : str) :
  s ∈ coords X U N → (length s ≤ n + 1)%nat → s ∈ coords X U n.
Proof using HX HU Hnd.
  intros Hs Hl. apply elem_of_coords in Hs as [Hs|(m & Hm & Hs)]; [| |done..].
  - apply elem_of_coords; [done..|]. by left.
  - apply elem_of_coords; [done..|]. right. exists m. split; [|done].
    apply (band_length X U HX HU) in Hs. lia.
Qed.

Lemma chain_step (n : nat) (e : expr) (l : list (Z * str)) (x : str) :
  x ∈ X → flat 0 e → grad e l → Forall (λ cs, cs.2 ∈ coords X U n) l →
  (∀ ι, eval ι (chain X U n e x)
        = lin_val ι ((λ cs, (cs.1, resolved X U cs.2 x)) <$> l))
  ∧ grad (chain X U n e x) ((λ cs, (cs.1, resolved X U cs.2 x)) <$> l).
Proof using HX HU Hnd.
  intros Hx Hflat Hgrad Hl.
  assert (HndC : NoDup (coords X U n)) by by apply coords_NoDup.
  split.
  - intros ι. rewrite eval_chain, Hgrad.
    rewrite (sumZ_ext_in _ (λ s, lin_coef l s * sym_val ι (resolved X U s x)))
      by (intros; by rewrite Hgrad).
    rewrite sumZ_lin_coef by done.
    unfold lin_val. rewrite sumZ_fmap. simpl.
    assert (E : lin_coef l x = 0); [|lia].
    apply sumZ_none. intros [c s] Hcs. simpl.
    rewrite Forall_forall in Hl. apply Hl in Hcs. simpl in Hcs.
    rewrite decide_False; [lia|]. intros ->. by apply coords_not_label in Hcs.
  - intros ι t. unfold chain, chain_sum.
    rewrite (eval_diff_fold_lin ι (diff e) (λ s, resolved X U s x)).
    rewrite (vanishes_eval 0 _ ι (Hflat x t)).
    rewrite (sumZ_ext_in _ (λ s, lin_coef l s
                 * (if decide (resolved X U s x = t) then 1 else 0))).
    2:{ intros s _. rewrite (vanishes_eval 0 _ ι (Hflat s t)), Hgrad. lia. }
    rewrite sumZ_lin_coef by done.
    unfold lin_coef. by rewrite sumZ_fmap.
Qed.

Lemma totDiv_path (n : nat) (J : list nat) : ∀ (e : expr) (l : list (Z * str)),
  Forall (λ j, (j < length X)%nat) J →
  flat (length J) e → grad e l →
  Forall (λ cs, cs.2 ∈ coords X U (n + 1)
                ∧ (length cs.2 + length J ≤ n + 2)%nat) l →
  ∃ e', for_each (λ e i, totDiv X U e i n) J e = Ok e'
      ∧ grad e' ((λ cs, (cs.1, res_path X U cs.2 J)) <$> l)
      ∧ (J ≠ [] → ∀ ι, eval ι e'
                       = lin_val ι ((λ cs, (cs.1, res_path X U cs.2 J)) <$> l)).
Proof using HX HU Hnd.
  induction J as [|j J IH]; intros e l HJ Hflat Hgrad Hl.
  { exists e. split_and!; [done| |done].
    rewrite (list_fmap_ext _ id l); [by rewrite list_fmap_id|]. by intros ? []. }
  apply Forall_cons in HJ as [Hj HJ].
  apply lookup_lt_is_Some in Hj as [x Hx].
  assert (Hxin : x ∈ X) by by eapply list_elem_of_lookup_2.
  cbn [for_each]. rewrite (totDiv_chain X U e j n x HX HU Hnd Hx), bind_Ok.
  destruct (chain_step n e l x) as [Hev Hgr]; [done| | |..].
  { by eapply flat_0. }
  { done. }
  { eapply Forall_impl; [exact Hl|]. intros [c s] [Hs Hlen]. simpl in *.
    apply (coords_le (n + 1)); [done|lia]. }
  destruct (IH (chain X U n e x) ((λ cs, (cs.1, resolved X U cs.2 x)) <$> l))
    as (e' & He' & Hgr' & Hev'); [done|by apply flat_chain|done| |].
  { apply Forall_fmap. eapply Forall_impl; [exact Hl|].
    intros [c s] [Hs Hlen]. simpl in *. split.
    - apply (resolved_elem_of_coords X U HX HU Hnd (n + 1) s x Hs Hxin). lia.
    - rewrite (resolved_length X U HX HU Hnd (n + 1) s x Hs Hxin). lia. }
  assert (E : (λ cs : Z * str, (cs.1, res_path X U cs.2 J))
                <$> ((λ cs : Z * str, (cs.1, resolved X U cs.2 x)) <$> l)
              = (λ cs : Z * str, (cs.1, res_path X U cs.2 (j :: J))) <$> l).
  { rewrite <- list_fmap_compose. apply list_fmap_ext. intros _ [c s] _. simpl.
    unfold res_path. simpl. by rewrite Hx. }
  rewrite E in Hgr', Hev'. exists e'. split_and!; [done..|].
  intros _ ι. destruct J as [|j' J'].
  - simpl in He'. injection He' as <-. rewrite Hev. f_equal.
    apply list_fmap_ext. intros _ [c s] _. simpl. unfold res_path. simpl.
    by rewrite Hx.
  - by apply Hev'.
Qed.

End constant_coefficients.

Lemma for_each_fold {St A} (body : St → A → result St) (pure : St → A → St)
    (l : list A) :
  (∀ s a, a ∈ l → body s a = Ok (pure s a)) →
  ∀ s, for_each body l s = Ok (fold_left pure l s).
Proof.
  induction l as [|a l IH]; intros H s; [done|]. simpl.
  rewrite H by left. rewrite bind_Ok. apply IH. intros. apply H. by right.
Qed.

Lemma Listing_TotDiv_nonempty
    (D : list str → list str → expr → nat → nat → result expr)
    (X U : list str) (P : expr) (n : nat) (J : list nat) :
  J ≠ [] → Listing.TotDiv D X U P n J = for_each (λ e i, D X U e i n) J P.
Proof. destruct J; [done|]. intros _. apply Listing_TotDiv_for_each. Qed.

Section translations.
Local Open Scope Z_scope.
Context (X U : list str).
Context (HX : single_chars X) (HU : single_chars U) (Hnd : NoDup (X ++ U)).
Lemma res_path_spec (M : nat) (J : list nat) : ∀ s : str,
  Forall (λ j, (j < length X)%nat) J →
  s ∈ coords X U M → (length s + length J ≤ M + 1)%nat →
  res_path X U s J ∈ coords X U M
  ∧ length (res_path X U s J) = (length s + length J)%nat
  ∧ res_path X U s J ≡ₚ s ++ concat (labels_at X J).
Proof using HX HU Hnd.
  induction J as [|j J IH]; intros s HJ Hs Hlen.
  { unfold res_path. simpl. rewrite app_nil_r. split_and!; [done|lia|done]. }
  apply Forall_cons in HJ as [Hj HJ]. simpl in Hlen.
  apply lookup_lt_is_Some in Hj as [x Hx].
  assert (Hxin : x ∈ X) by by eapply list_elem_of_lookup_2.
  destruct (uJalpha_coords X U HX HU Hnd M s x Hs Hxin) as (_ & _ & Es).
  pose proof (resolved_length X U HX HU Hnd M s x Hs Hxin) as Hl.
  assert (Hr : resolved X U s x ∈ coords X U M).
  { apply (resolved_elem_of_coords X U HX HU Hnd M s x Hs Hxin). lia. }
  destruct (IH (resolved X U s x) HJ Hr ltac:(lia)) as (Hc & Hlr & Hp).
  assert (E : res_path X U s (j :: J) = res_path X U (resolved X U s x) J).
  { unfold res_path. simpl. by rewrite Hx. }
  rewrite E. split_and!; [done|simpl; lia|].
  rewrite Hp. apply sorted_Permutation in Es. rewrite <- Es.
  unfold labels_at. cbn [fmap list_fmap concat]. rewrite Hx. simpl.
  by rewrite <- app_assoc.
Qed.

Lemma res_path_div_sym (u : str) (J : list nat) (i : nat) (x : str) :
  u ∈ U → Forall (λ j, (j < length X)%nat) J → X !! i = Some x →
  res_path X U (resolved X U u x) J = div_sym X U u J i.
Proof using HX HU Hnd.
  intros Huin HJ Hx.
  assert (Hxin : x ∈ X) by by eapply list_elem_of_lookup_2.
  pose proof (single_chars_elem U u HU Huin) as Lu.
  destruct (divUJi_labels X U HX HU Hnd u J i x Huin HJ Hx) as (r & E & Hb & Hp).
  unfold div_sym. rewrite E.
  set (M := (length J + 1)%nat).
  assert (Huc : u ∈ coords X U M) by by apply elem_of_coords_U.
  destruct (uJalpha_coords X U HX HU Hnd M u x Huc Hxin) as (_ & _ & Es).
  pose proof (resolved_length X U HX HU Hnd M u x Huc Hxin) as Hl.
  assert (Hr : resolved X U u x ∈ coords X U M).
  { apply (resolved_elem_of_coords X U HX HU Hnd M u x Huc Hxin). unfold M. lia. }
  destruct (res_path_spec M J (resolved X U u x) HJ Hr) as (Hc & Hlr & Hpp).
  { unfold M. lia. }
  apply (band_sorted_inj X U HX HU Hnd (length J + 1)); [|done|].
  - apply elem_of_coords in Hc as [Hc|(m & Hm & Hc)]; [| |done..].
    + apply (single_chars_elem U _ HU) in Hc. lia.
    + pose proof (band_length X U HX HU _ _ Hc) as Hb'.
      replace (length J + 1)%nat with m by lia. done.
  - apply sorted_Permutation. rewrite Hpp, Hp.
    apply sorted_Permutation in Es. rewrite <- Es, <- !app_assoc.
    f_equiv. apply Permutation_app_comm.
Qed.

Context (v : list expr) (Hv : (length X + length U ≤ length v)%nat).
Context (Hconst : Forall (λ e, ∃ z, e = Int z) v).
Context (q : nat) (u : str) (Hu : U !! q = Some u).

Lemma constant_lookup (i : nat) (e : expr) : v !! i = Some e → e = Int (int_of e).
Proof using Hconst.
  intros Hi. rewrite Forall_forall in Hconst.
  destruct (Hconst e) as [z ->]; [by eapply list_elem_of_lookup_2|done].
Qed.

Lemma first_loop_fold :
  for_each (λ a i,
      xi_i ← index (take (length X) v) i;
      Uq ← index U q;
      Xi ← index X i;
      r ← uJalpha Uq Xi X U;
      s ← operand r;
      Ok (Add a (Mul xi_i s))) (range (length X)) (Int 0)
  = Ok (fold_left (λ a i, Add a (Mul (Int (xi_coef v i)) (Sym (u_sym X U u i))))
          (range (length X)) (Int 0)).
Proof using HX HU Hnd Hv Hconst Hu.
  apply for_each_fold. intros a i Hi%elem_of_seq.
  destruct (lookup_lt_is_Some_2 v i) as [e He]; [lia|].
  destruct (lookup_lt_is_Some_2 X i ltac:(lia)) as [x Hx].
  assert (He' : take (length X) v !! i = Some e) by (rewrite lookup_take_lt; [done|lia]).
  rewrite (index_lookup _ _ _ He'), bind_Ok, (index_lookup _ _ _ Hu), bind_Ok,
    (index_lookup _ _ _ Hx), bind_Ok.
  destruct (uJalpha_coords X U HX HU Hnd 0 u x) as (E & _).
  { apply elem_of_coords_U; [done..|]. by eapply list_elem_of_lookup_2. }
  { by eapply list_elem_of_lookup_2. }
  rewrite E. simpl. unfold xi_coef, u_sym. rewrite He, Hx. simpl.
  by rewrite <- (constant_lookup i e He).
Qed.

Lemma second_loop_fold (J : list nat) :
  Forall (λ j, (j < length X)%nat) J →
  for_each (λ b i,
      xi_i ← index (take (length X) v) i;
      Uq ← index U q;
      r ← divUJi X U Uq J i;
      s ← operand r;
      Ok (Add b (Mul xi_i s))) (range (length X)) (Int 0)
  = Ok (fold_left (λ b i, Add b (Mul (Int (xi_coef v i)) (Sym (div_sym X U u J i))))
          (range (length X)) (Int 0)).
Proof using HX HU Hnd Hv Hconst Hu.
  intros HJ. apply for_each_fold. intros b i Hi%elem_of_seq.
  destruct (lookup_lt_is_Some_2 v i) as [e He]; [lia|].
  destruct (lookup_lt_is_Some_2 X i ltac:(lia)) as [x Hx].
  assert (He' : take (length X) v !! i = Some e) by (rewrite lookup_take_lt; [done|lia]).
  rewrite (index_lookup _ _ _ He'), bind_Ok, (index_lookup _ _ _ Hu), bind_Ok.
  destruct (divUJi_labels X U HX HU Hnd u J i x) as (r & E & _); [|done..|].
  { by eapply list_elem_of_lookup_2. }
  unfold div_sym, xi_coef. rewrite E, He. simpl.
  by rewrite <- (constant_lookup i e He).
Qed.

Lemma phiAlpha_translation (J : list nat) :
  J ≠ [] → Forall (λ j, (j < length X)%nat) J →
  ∃ c, Listing.phiAlpha totDiv X U v J q = Ok c ∧ aeq c (Int 0).
Proof using HX HU Hnd Hv Hconst Hu.
  intros Hne HJ.
  assert (Hq : (q < length U)%nat) by by eapply lookup_lt_Some.
  assert (Huin : u ∈ U) by by eapply list_elem_of_lookup_2.
  unfold Listing.phiAlpha. cbv zeta.
  rewrite first_loop_fold, bind_Ok, (second_loop_fold J HJ), bind_Ok.
  destruct (lookup_lt_is_Some_2 v (length X + q)) as [ed Hed]; [lia|].
  assert (Hed' : drop (length X) v !! q = Some ed) by by rewrite lookup_drop.
  rewrite (index_lookup _ _ _ Hed'), bind_Ok.
  rewrite (constant_lookup _ ed Hed).
  set (a := fold_left (λ a i, Add a (Mul (Int (xi_coef v i)) (Sym (u_sym X U u i))))
              (range (length X)) (Int 0)).
  set (b := fold_left (λ b i, Add b (Mul (Int (xi_coef v i)) (Sym (div_sym X U u J i))))
              (range (length X)) (Int 0)).
  set (l0 := (λ i, (- xi_coef v i, u_sym X U u i)) <$> range (length X)).
  assert (Hflat : flat (length J) (Sub (Int (int_of ed)) a)).
  { unfold Sub. apply flat_Add; [apply flat_Int|]. apply flat_Mul_Int.
    apply (flat_fold _ (λ i, Int (xi_coef v i)) (u_sym X U u)); [|apply flat_Int].
    intros i. apply flat_Mul_Int, flat_Sym. }
  assert (Hgrad : grad (Sub (Int (int_of ed)) a) l0).
  { intros ι t. unfold Sub. cbn [diff eval]. unfold a.
    rewrite (eval_diff_fold_lin ι (λ i, Int (xi_coef v i)) (u_sym X U u)).
    unfold lin_coef, l0. rewrite sumZ_fmap. cbn [diff eval fst snd].
    rewrite (sumZ_ext_in
      (λ i, 0 * sym_val ι (u_sym X U u i)
            + xi_coef v i * (if decide (u_sym X U u i = t) then 1 else 0))
      (λ i, xi_coef v i * (if decide (u_sym X U u i = t) then 1 else 0)))
      by (intros; lia).
    rewrite (sumZ_ext_in
      (λ i, - xi_coef v i * (if decide (u_sym X U u i = t) then 1 else 0))
      (λ i, (-1) * (xi_coef v i * (if decide (u_sym X U u i = t) then 1 else 0))
            + 0 * 0)) by (intros; lia).
    rewrite sumZ_linear. lia. }
  assert (Hl0 : Forall (λ cs, cs.2 ∈ coords X U (length J + 1)
                  ∧ (length cs.2 + length J ≤ length J + 2)%nat) l0).
  { unfold l0. apply Forall_fmap, Forall_forall. intros i Hi%elem_of_seq. simpl.
    destruct (lookup_lt_is_Some_2 X i ltac:(lia)) as [x Hx].
    assert (Hxin : x ∈ X) by by eapply list_elem_of_lookup_2.
    assert (Huc : u ∈ coords X U (length J + 1)) by by apply elem_of_coords_U.
    pose proof (single_chars_elem U u HU Huin) as Lu.
    unfold u_sym. rewrite Hx. simpl. split.
    - apply (resolved_elem_of_coords X U HX HU Hnd _ u x Huc Hxin). lia.
    - rewrite (resolved_length X U HX HU Hnd _ u x Huc Hxin). lia. }
  rewrite Listing_TotDiv_nonempty by done.
  destruct (totDiv_path X U HX HU Hnd (length J) J _ l0 HJ Hflat Hgrad Hl0)
    as (e' & -> & _ & Hev).
  rewrite bind_Ok. eexists. split; [done|].
  intros ι. cbn [eval]. rewrite (Hev Hne). unfold b.
  rewrite (eval_fold_lin ι (λ i, Int (xi_coef v i)) (div_sym X U u J)).
  unfold lin_val, l0. rewrite !sumZ_fmap. cbn [eval fst snd].
  rewrite (sumZ_ext_in
    (λ i, - xi_coef v i * sym_val ι (res_path X U (u_sym X U u i) J))
    (λ i, (-1) * (xi_coef v i * sym_val ι (div_sym X U u J i)) + 0 * 0)).
  2:{ intros i Hi%elem_of_seq.
      destruct (lookup_lt_is_Some_2 X i ltac:(lia)) as [x Hx].
      unfold u_sym. rewrite Hx. simpl.
      rewrite (res_path_div_sym u J i x Huin HJ Hx). lia. }
  rewrite sumZ_linear. lia.
Qed.

End translations.

(** For distinct single-character labels that sympy reads as symbols of
    their own names, none of them a name the notebook uses, with the name
    [totDiv] bound to cell 24's definition, and a generator whose [p+q]
    components are integer constants (a translation), every coefficient
    [phiAlpha(X,U,v,J,q)] of the prolongation is algebraically 0. *)
Theorem phiAlpha_constant (sympify symbols : str → outcome str)
    (X U : list str) (v : list expr) (J : list nat) (q : nat) :
  single_chars X → single_chars U → NoDup (X ++ U) →
  good_names sympify symbols X U (length J + 1) →
  length X + length U ≤ length v →
  Forall (λ e, ∃ z, e = Int z) v →
  q < length U → J ≠ [] → Forall (λ j, j < length X) J →
  ∃ c, NotebookListing.phiAlpha symbols (Notebook.totDiv sympify symbols)
         X U v J q = Returns c
     ∧ aeq c (Int 0).
Proof.
  intros HX HU Hnd Hg Hv Hc Hq Hne HJ.
  apply lookup_lt_is_Some in Hq as [u Hu].
  destruct (phiAlpha_translation X U HX HU Hnd v Hv Hc q u Hu J Hne HJ)
    as (c & E & Hz).
  exists c. split; [|done].
  rewrite (Notebook_phiAlpha_labels sympify symbols X U HX HU Hnd) by done.
  by rewrite E.
Qed.

Lemma phiAlpha_constant_witness :
  ∃ c, NotebookListing.phiAlpha symbols_nonempty
         (Notebook.totDiv sympify_E symbols_nonempty)
         [x_; y_] [u_] [Int 1; Int 2; Int 3] [0; 1; 1] 0 = Returns c
     ∧ aeq c (Int 0).
Proof.
  apply (phiAlpha_constant sympify_E symbols_nonempty [x_; y_] [u_]
           [Int 1; Int 2; Int 3] [0; 1; 1] 0).
  - repeat constructor.
  - repeat constructor.
  - compute_done.
  - compute_done.
  - simpl. lia.
  - repeat constructor; by eexists.
  - simpl. lia.
  - done.
  - repeat constructor.
Defined.

Lemma Prolong_translation_loops (X U : list str) (v n : nat) (h : heap) :
  single_chars X → single_chars U → NoDup (X ++ U) →
  length X + length U ≤ length (contents h v) →
  Forall (λ e, ∃ z, e = Int z) (contents h v) →
  ∃ h' cs, Listing.Prolong totDiv X U v n h = Ok (v, h')
         ∧ contents h' v = contents h v ++ cs
         ∧ Forall (λ c, aeq c (Int 0)) cs.
Proof.
  intros HX HU Hnd Hv Hc.
  destruct (Prolong_Ok X U v n h HX HU Hnd Hv) as [h' Hh'].
  exists h'. pose proof Hh' as H. unfold Listing.Prolong in H. cbv zeta in H.
  destruct (for_each _ _ _) as [h1|] eqn:E; [|done]. simpl in H.
  injection H as <-.
  destruct (Prolong_loops totDiv X U v (contents h v) Hv n h h1) as (cs & Ecs & _ & Hcs);
    [|exact E|].
  { exists []. by rewrite app_nil_r. }
  rewrite loops_visited in Hcs.
  exists cs. split_and!; [done..|].
  eapply Forall2_Forall_l; [exact Hcs|].
  apply Forall_forall. intros [J q] HJq c Hcq. simpl in Hcq.
  apply elem_of_visited in HJq as (Hq & Hne & HJ).
  destruct (lookup_lt_is_Some_2 U q Hq) as [u Hu].
  destruct (phiAlpha_translation X U HX HU Hnd (contents h v) Hv Hc q u Hu J Hne HJ)
    as (c' & Ec' & Hz).
  rewrite Ec' in Hcq. by injection Hcq as <-.
Qed.

(** For distinct single-character labels that sympy reads as symbols of
    their own names, none of them a name the notebook uses, with the name
    [totDiv] bound to cell 24's definition, and a generator whose
    components are integer constants, [Prolong(X,U,v,n)] returns [v]
    extended with coefficients that are all algebraically 0. *)
Theorem Prolong_constant (sympify symbols : str → outcome str)
    (X U : list str) (v n : nat) (h : heap) :
  single_chars X → single_chars U → NoDup (X ++ U) →
  good_names sympify symbols X U (n + 1) →
  length X + length U ≤ length (contents h v) →
  Forall (λ e, ∃ z, e = Int z) (contents h v) →
  ∃ h' cs, NotebookListing.Prolong symbols (Notebook.totDiv sympify symbols)
             X U v n h = (h', Returns v)
         ∧ contents h' v = contents h v ++ cs
         ∧ Forall (λ c, aeq c (Int 0)) cs.
Proof.
  intros HX HU Hnd Hg Hv Hc.
  destruct (Prolong_translation_loops X U v n h HX HU Hnd Hv Hc)
    as (h' & cs & E & Ecs & Hz).
  exists h', cs. split_and!; [|done..].
  by apply (Notebook_Prolong_labels sympify symbols X U HX HU Hnd).
Qed.

Lemma Prolong_constant_witness :
  ∃ h' cs, NotebookListing.Prolong symbols_nonempty
             (Notebook.totDiv sympify_E symbols_nonempty) [x_; y_] [u_] 0 2
             {[0 := [Int 1; Int 2; Int 3]]} = (h', Returns 0)
         ∧ contents h' 0 = contents ({[0 := [Int 1; Int 2; Int 3]]} : heap) 0 ++ cs
         ∧ Forall (λ c, aeq c (Int 0)) cs.
Proof.
  apply (Prolong_constant sympify_E symbols_nonempty [x_; y_] [u_] 0 2
           {[0 := [Int 1; Int 2; Int 3]]}).
  - repeat constructor.
  - repeat constructor.
  - compute_done.
  - compute_done.
  - vm_compute. lia.
  - vm_compute. repeat constructor; by eexists.
Defined.
